(** * The request processing pipeline of the agentic RAG backend

    A shallow embedding of the three components that make up the
    pipeline, and the properties checked against them:

    - [CacheService]  (services/cache.service.js): key generation, get, set;
    - [PythonBridge]  (services/python/bridge.js): the persistent worker
      process, its request queue, time-outs and the retry loop;
    - [MockQueue] and [QueueService] (config/queue.js,
      services/queue.service.js): job submission and job processing.

    JavaScript strings are modelled as Rocq strings whose characters are the
    UTF-16 code units below 256; on that range lower-casing, the white-space
    class and the UTF-8 encoding are written out in full. *)

From Stdlib Require Import ZArith List String Ascii Bool Lia Arith DecimalString.
From Stdlib Require Import DecimalPos DecimalZ.
From Equations Require Import Equations.
Import ListNotations.

Local Open Scope string_scope.

(* ===================================================================== *)
(** ** JavaScript values and strings                                      *)
(* ===================================================================== *)

Module Js.

(** The values a caller can pass where the code expects a query. *)
Inductive value : Type :=
| Undefined
| Null
| Bool (b : bool)
| Num (z : Z)
| NaN
| Str (s : string)
| Obj.

(** [!v] *)
Definition falsy (v : value) : bool :=
  match v with
  | Undefined | Null | NaN => true
  | Bool b => negb b
  | Num z => Z.eqb z 0
  | Str s => String.eqb s ""
  | Obj => false
  end.

(** [typeof v === 'string'] *)
Definition is_string (v : value) : bool :=
  match v with Str _ => true | _ => false end.

Definition code (c : ascii) : Z := Z.of_N (N_of_ascii c).
Definition chr (z : Z) : ascii := ascii_of_N (Z.to_N z).

(** White space and line terminators of ECMAScript (the class of [\s] and
    of [String.prototype.trim]) among the code units below 256:
    TAB, LF, VT, FF, CR, SPACE and NBSP. *)
Definition is_space (c : ascii) : bool :=
  let n := code c in
  ((9 <=? n) && (n <=? 13) || (n =? 32) || (n =? 160))%Z.

(** [toLowerCase] on one code unit below 256: A-Z and the Latin-1 capitals
    U+00C0..U+00DE (U+00D7, the multiplication sign, apart) move up by 32. *)
Definition lower_char (c : ascii) : ascii :=
  let n := code c in
  if ((65 <=? n) && (n <=? 90))%Z then chr (n + 32)
  else if ((192 <=? n) && (n <=? 222) && negb (n =? 215))%Z then chr (n + 32)
  else c.

Fixpoint toLowerCase (s : string) : string :=
  match s with
  | EmptyString => EmptyString
  | String c r => String (lower_char c) (toLowerCase r)
  end.

Fixpoint trimStart (s : string) : string :=
  match s with
  | EmptyString => EmptyString
  | String c r => if is_space c then trimStart r else s
  end.

Fixpoint trimEnd (s : string) : string :=
  match s with
  | EmptyString => EmptyString
  | String c r =>
      let r' := trimEnd r in
      if is_space c && String.eqb r' "" then EmptyString else String c r'
  end.

Definition trim (s : string) : string := trimEnd (trimStart s).

(** [s.replace(/\s+/g, ' ')]: every maximal run of white space becomes
    one space.  [in_run] tells that the previous character was white
    space, whose run has already produced its space. *)
Fixpoint collapse_from (in_run : bool) (s : string) : string :=
  match s with
  | EmptyString => EmptyString
  | String c r =>
      if is_space c
      then if in_run then collapse_from true r
           else String " " (collapse_from true r)
      else String c (collapse_from false r)
  end.

Definition collapse_spaces (s : string) : string := collapse_from false s.

(** UTF-8 encoding of a string of code units below 256, as bytes. *)
Fixpoint utf8 (s : string) : list Z :=
  match s with
  | EmptyString => []
  | String c r =>
      let n := code c in
      if (n <? 128)%Z then n :: utf8 r
      else Z.lor 192 (Z.shiftr n 6) :: Z.lor 128 (Z.land n 63) :: utf8 r
  end.

End Js.

(* ===================================================================== *)
(** ** MD5, as [crypto.createHash('md5')] computes it                     *)
(* ===================================================================== *)

Module Md5.
Local Open Scope Z_scope.

Definition w32 (x : Z) : Z := x mod 4294967296.

Definition add32 (x y : Z) : Z := w32 (x + y).

Definition not32 (x : Z) : Z := 4294967295 - x.

Definition rotl32 (x : Z) (n : Z) : Z :=
  Z.lor (w32 (Z.shiftl x n)) (Z.shiftr x (32 - n)).

Definition K : list Z :=
  [ 0xd76aa478; 0xe8c7b756; 0x242070db; 0xc1bdceee; 0xf57c0faf; 0x4787c62a;
    0xa8304613; 0xfd469501; 0x698098d8; 0x8b44f7af; 0xffff5bb1; 0x895cd7be;
    0x6b901122; 0xfd987193; 0xa679438e; 0x49b40821; 0xf61e2562; 0xc040b340;
    0x265e5a51; 0xe9b6c7aa; 0xd62f105d; 0x02441453; 0xd8a1e681; 0xe7d3fbc8;
    0x21e1cde6; 0xc33707d6; 0xf4d50d87; 0x455a14ed; 0xa9e3e905; 0xfcefa3f8;
    0x676f02d9; 0x8d2a4c8a; 0xfffa3942; 0x8771f681; 0x6d9d6122; 0xfde5380c;
    0xa4beea44; 0x4bdecfa9; 0xf6bb4b60; 0xbebfbc70; 0x289b7ec6; 0xeaa127fa;
    0xd4ef3085; 0x04881d05; 0xd9d4d039; 0xe6db99e5; 0x1fa27cf8; 0xc4ac5665;
    0xf4292244; 0x432aff97; 0xab9423a7; 0xfc93a039; 0x655b59c3; 0x8f0ccc92;
    0xffeff47d; 0x85845dd1; 0x6fa87e4f; 0xfe2ce6e0; 0xa3014314; 0x4e0811a1;
    0xf7537e82; 0xbd3af235; 0x2ad7d2bb; 0xeb86d391 ].

Definition shifts : list Z :=
  [ 7; 12; 17; 22; 7; 12; 17; 22; 7; 12; 17; 22; 7; 12; 17; 22;
    5; 9; 14; 20; 5; 9; 14; 20; 5; 9; 14; 20; 5; 9; 14; 20;
    4; 11; 16; 23; 4; 11; 16; 23; 4; 11; 16; 23; 4; 11; 16; 23;
    6; 10; 15; 21; 6; 10; 15; 21; 6; 10; 15; 21; 6; 10; 15; 21 ].

Record state := mkState { sa : Z; sb : Z; sc : Z; sd : Z }.

Definition init : state :=
  mkState 0x67452301 0xefcdab89 0x98badcfe 0x10325476.

(** One of the 64 operations on the block [m] (sixteen words). *)
Definition round (m : list Z) (st : state) (i : Z) : state :=
  let '(mkState a b c d) := st in
  let '(f, g) :=
    if i <? 16 then (Z.lor (Z.land b c) (Z.land (not32 b) d), i)
    else if i <? 32 then
      (Z.lor (Z.land d b) (Z.land (not32 d) c), (5 * i + 1) mod 16)
    else if i <? 48 then (Z.lxor (Z.lxor b c) d, (3 * i + 5) mod 16)
    else (Z.lxor c (Z.lor b (not32 d)), (7 * i) mod 16) in
  let k := nth (Z.to_nat i) K 0 in
  let s := nth (Z.to_nat i) shifts 0 in
  let x := nth (Z.to_nat g) m 0 in
  let f' := add32 (add32 (add32 f a) k) x in
  mkState d (add32 b (rotl32 f' s)) b c.

Definition indices : list Z := map Z.of_nat (seq 0 64).

Definition compress (st : state) (m : list Z) : state :=
  let st' := fold_left (round m) indices st in
  mkState (add32 (sa st) (sa st')) (add32 (sb st) (sb st'))
          (add32 (sc st) (sc st')) (add32 (sd st) (sd st')).

(** Little-endian bytes of [x], [n] of them. *)
Fixpoint le_bytes (n : nat) (x : Z) : list Z :=
  match n with
  | O => []
  | S n' => x mod 256 :: le_bytes n' (x / 256)
  end.

Fixpoint le_word (bs : list Z) : Z :=
  match bs with
  | [] => 0
  | b :: r => b + 256 * le_word r
  end.

(** The message followed by 0x80, zeros up to 56 modulo 64, and the bit
    length on eight bytes. *)
Definition pad (msg : list Z) : list Z :=
  let len := Z.of_nat (List.length msg) in
  let zeros := Z.to_nat ((55 - len) mod 64) in
  msg ++ 128 :: repeat 0 zeros ++ le_bytes 8 ((8 * len) mod 2 ^ 64).

(** Cuts a list into chunks of [n] elements; [fuel] bounds their number. *)
Fixpoint chunks {A} (fuel n : nat) (l : list A) : list (list A) :=
  match fuel, l with
  | O, _ | _, [] => []
  | S fuel', _ => firstn n l :: chunks fuel' n (skipn n l)
  end.

Definition words (block : list Z) : list Z :=
  map le_word (chunks 16 4 block).

Definition blocks (bytes : list Z) : list (list Z) :=
  map words (chunks (List.length bytes) 64 bytes).

Definition hex_digit (d : Z) : ascii :=
  if d <? 10 then Js.chr (48 + d) else Js.chr (87 + d).

Fixpoint hex (bs : list Z) : string :=
  match bs with
  | [] => EmptyString
  | b :: r => String (hex_digit (b / 16)) (String (hex_digit (b mod 16)) (hex r))
  end.

Definition digest (msg : list Z) : list Z :=
  let st := fold_left compress (blocks (pad msg)) init in
  le_bytes 4 (sa st) ++ le_bytes 4 (sb st) ++
  le_bytes 4 (sc st) ++ le_bytes 4 (sd st).

(** [crypto.createHash('md5').update(s).digest('hex')] *)
Definition md5_hex (s : string) : string := hex (digest (Js.utf8 s)).

End Md5.

(* ===================================================================== *)
(** ** Effects: mutable state with exceptions                             *)
(* ===================================================================== *)

(** A JavaScript function that mutates an object and may throw is a
    function from the state before to the state after and either the
    exception thrown or the value returned.  Mutations made before a
    [throw] stay. *)

Module Eff.

Inductive exn : Type :=
| TypeError (message : string)
| SyntaxError (message : string)
| RedisError (message : string)
| ValidationError (message : string)
| PythonExecutionError (message : string)
| Error (message : string).

Definition message_of (e : exn) : string :=
  match e with
  | TypeError m | SyntaxError m | RedisError m
  | ValidationError m | PythonExecutionError m | Error m => m
  end.

Definition M (S A : Type) : Type := S -> S * (exn + A).

Definition ret {S A} (a : A) : M S A := fun s => (s, inr a).

Definition throw {S A} (e : exn) : M S A := fun s => (s, inl e).

Definition bind {S A B} (m : M S A) (k : A -> M S B) : M S B :=
  fun s =>
    match m s with
    | (s', inl e) => (s', inl e)
    | (s', inr a) => k a s'
    end.

(** [try { m } catch (e) { h e }] *)
Definition try_catch {S A} (m : M S A) (h : exn -> M S A) : M S A :=
  fun s =>
    match m s with
    | (s', inl e) => h e s'
    | (s', inr a) => (s', inr a)
    end.

Definition gets {S A} (f : S -> A) : M S A := fun s => (s, inr (f s)).

Definition modify {S} (f : S -> S) : M S unit := fun s => (f s, inr tt).

(** An optional result of a library call that throws when it has none. *)
Definition of_option {S A} (e : exn) (o : option A) : M S A :=
  match o with Some a => ret a | None => throw e end.

Definition returns {S A} (m : M S A) (s : S) : Prop :=
  exists s' a, m s = (s', inr a).

Definition throws {S A} (m : M S A) (s : S) : Prop :=
  exists s' e, m s = (s', inl e).

End Eff.

Declare Scope eff_scope.
Delimit Scope eff_scope with eff.
Notation "x <- m ;; k" := (Eff.bind m (fun x => k))
  (at level 61, m at next level, right associativity) : eff_scope.
Notation "m ;; k" := (Eff.bind m (fun _ => k))
  (at level 61, right associativity) : eff_scope.

(* ===================================================================== *)
(** ** A JavaScript [Map] with string keys                                *)
(* ===================================================================== *)

(** Iteration follows insertion order, and [set] on a key that is present
    keeps the key's place: an association list without duplicate keys. *)

Module JsMap.
Section WithValues.
Context {V : Type}.

Definition t := list (string * V).

Fixpoint get (k : string) (m : t) : option V :=
  match m with
  | [] => None
  | (k', v) :: r => if String.eqb k k' then Some v else get k r
  end.

Definition has (k : string) (m : t) : bool :=
  match get k m with Some _ => true | None => false end.

Fixpoint set (k : string) (v : V) (m : t) : t :=
  match m with
  | [] => [(k, v)]
  | (k', v') :: r =>
      if String.eqb k k' then (k, v) :: r else (k', v') :: set k v r
  end.

Fixpoint delete (k : string) (m : t) : t :=
  match m with
  | [] => []
  | (k', v') :: r =>
      if String.eqb k k' then r else (k', v') :: delete k r
  end.

Definition size (m : t) : Z := Z.of_nat (List.length m).

(** [m.keys().next().value] *)
Definition first_key (m : t) : option string :=
  match m with [] => None | (k, _) :: _ => Some k end.

End WithValues.
Arguments t : clear implicits.
End JsMap.

(* ===================================================================== *)
(** ** CacheService (services/cache.service.js)                           *)
(* ===================================================================== *)

(** [JSON.stringify] and [JSON.parse] of the engine, on the values that are
    cached.  [None] stands for a throw: a cyclic structure or a BigInt in
    [stringify], a [SyntaxError] in [parse]. *)
Class Json (value : Type) : Type := {
  stringify : value -> option string;
  parse : string -> option value
}.

Module CacheService.
Import Eff.
Local Open Scope Z_scope.
Local Open Scope eff_scope.

(** [hash = md5(normalized)]; the key is [chat:] followed by the hash. *)
Definition normalize (query : string) : string :=
  Js.collapse_spaces (Js.trim (Js.toLowerCase query)).

Definition generateKey (query : string) : string :=
  let normalized := normalize query in
  let hash := Md5.md5_hex normalized in
  "chat:" ++ hash.

(** What the surroundings supply to one call: [Date.now()], and whether
    the connection to Redis is lost, so that a command sent to it is
    rejected. *)
Record Env := mkEnv { now : Z; redisDown : bool }.

Record Stats := mkStats {
  hits : Z; misses : Z; sets : Z; deletes : Z; errors : Z
}.

Section WithJson.
Context {value : Type} {json : Json value}.

(** An entry of the in-memory fallback: [{ value, expiresAt }]. *)
Record Entry := mkEntry { entry_value : value; expiresAt : Z }.

(** The Redis server behind the client: key to serialized value and the
    time, in milliseconds, at which the key expires. *)
Definition Redis := JsMap.t (string * Z).

Record t := mk {
  ttl : Z;
  enabled : bool;
  redisClient : option Redis;
  memoryCache : JsMap.t Entry;
  memoryCacheMaxSize : Z;
  stats : Stats
}.

(** [new CacheService(ttl)], with [env.cacheTtl] and [env.cacheEnabled]. *)
Definition new (ttl0 : option Z) (cacheTtl : Z) (cacheEnabled : bool) : t :=
  mk (match ttl0 with
      | Some x => if x =? 0 then cacheTtl else x
      | None => cacheTtl
      end)
     cacheEnabled None [] 100 (mkStats 0 0 0 0 0).

Definition set_stats (f : Stats -> Stats) (c : t) : t :=
  mk (ttl c) (enabled c) (redisClient c) (memoryCache c)
     (memoryCacheMaxSize c) (f (stats c)).

Definition set_memoryCache (m : JsMap.t Entry) (c : t) : t :=
  mk (ttl c) (enabled c) (redisClient c) m (memoryCacheMaxSize c) (stats c).

Definition set_redisClient (r : option Redis) (c : t) : t :=
  mk (ttl c) (enabled c) r (memoryCache c) (memoryCacheMaxSize c) (stats c).

Definition hit (s : Stats) :=
  mkStats (hits s + 1) (misses s) (sets s) (deletes s) (errors s).
Definition miss (s : Stats) :=
  mkStats (hits s) (misses s + 1) (sets s) (deletes s) (errors s).
Definition stored (s : Stats) :=
  mkStats (hits s) (misses s) (sets s + 1) (deletes s) (errors s).
Definition failed (s : Stats) :=
  mkStats (hits s) (misses s) (sets s) (deletes s) (errors s + 1).

(** [await this.redisClient.get(key)]: the string stored under a key
    that has not expired, [null] otherwise; rejected when the
    connection is lost. *)
Definition redis_get (env : Env) (r : Redis) (key : string)
  : M t (option string) :=
  if redisDown env then throw (RedisError "Connection is closed.")
  else match JsMap.get key r with
       | Some (s, expires) =>
           if now env <? expires then ret (Some s) else ret None
       | None => ret None
       end.

(** [await this.redisClient.setex(key, ttl, serialized)]; Redis refuses
    an expire time that is not positive. *)
Definition redis_setex (env : Env) (r : Redis) (key : string) (seconds : Z)
    (serialized : string) : M t unit :=
  if redisDown env then throw (RedisError "Connection is closed.")
  else if seconds <=? 0
  then throw (RedisError "ERR invalid expire time in 'setex' command")
  else modify (set_redisClient
                 (Some (JsMap.set key (serialized, now env + seconds * 1000) r))).

(** The statements of [get] inside [try]. *)
Definition get_body (env : Env) (key : string) : M t (option value) :=
  client <- gets redisClient ;;
  fromRedis <- match client with
               | Some r => redis_get env r key
               | None => ret None
               end ;;
  match fromRedis with
  | Some (String c rest as s) =>
      modify (set_stats hit) ;;
      v <- of_option (SyntaxError "Unexpected token in JSON") (parse s) ;;
      ret (Some v)
  | _ =>
      mem <- gets memoryCache ;;
      match JsMap.get key mem with
      | Some cached =>
          if expiresAt cached >? now env
          then modify (set_stats hit) ;; ret (Some (entry_value cached))
          else modify (set_memoryCache (JsMap.delete key mem)) ;;
               modify (set_stats miss) ;; ret None
      | None => modify (set_stats miss) ;; ret None
      end
  end.

Definition get (env : Env) (key : string) : M t (option value) :=
  fun c =>
    if negb (enabled c) then ret None c
    else try_catch (get_body env key)
                   (fun error => modify (set_stats failed) ;; ret None) c.

(** The statements of [set] inside [try]. *)
Definition set_body (env : Env) (key : string) (v : value) (ttl : Z)
  : M t bool :=
  serialized <- of_option (TypeError "Converting circular structure to JSON")
                          (stringify v) ;;
  client <- gets redisClient ;;
  match client with
  | Some r =>
      redis_setex env r key ttl serialized ;;
      modify (set_stats stored) ;;
      ret true
  | None =>
      mem <- gets memoryCache ;;
      max <- gets memoryCacheMaxSize ;;
      (if JsMap.size mem >=? max
       then match JsMap.first_key mem with
            | Some firstKey =>
                modify (set_memoryCache (JsMap.delete firstKey mem))
            | None => ret tt
            end
       else ret tt) ;;
      mem' <- gets memoryCache ;;
      modify (set_memoryCache
                (JsMap.set key (mkEntry v (now env + ttl * 1000)) mem')) ;;
      modify (set_stats stored) ;;
      ret true
  end.

(** [customTtl || this.ttl] *)
Definition effective_ttl (customTtl : option Z) (c : t) : Z :=
  match customTtl with
  | Some x => if x =? 0 then ttl c else x
  | None => ttl c
  end.

Definition set (env : Env) (key : string) (v : value)
    (customTtl : option Z) : M t bool :=
  fun c =>
    if negb (enabled c) then ret false c
    else
      let ttl := effective_ttl customTtl c in
      try_catch (set_body env key v ttl)
                (fun error => modify (set_stats failed) ;; ret false) c.

(** What the fallback store holds once [set] has written [v] under
    [key]: the first entry goes when the store is full. *)
Definition fallback_after (env : Env) (key : string) (v : value) (ttl : Z)
    (c : t) : JsMap.t Entry :=
  JsMap.set key (mkEntry v (now env + ttl * 1000))
            (if JsMap.size (memoryCache c) >=? memoryCacheMaxSize c
             then tl (memoryCache c)
             else memoryCache c).

End WithJson.
Arguments t : clear implicits.
Arguments Entry : clear implicits.
End CacheService.

(* ===================================================================== *)
(** ** PythonBridge (services/python/bridge.js): the worker process       *)
(* ===================================================================== *)

Module PythonBridge.
Import Eff.
Local Open Scope Z_scope.
Local Open Scope list_scope.

(** A worker process, one per [new PythonShell]; numbered in the order of
    creation. *)
Definition pid := nat.

(** [{ role, content }] *)
Definition Message : Type := string * string.

(** The object pushed on [requestQueue].  [rid] is the identity of the
    object, which is what [this.currentRequest === request] compares;
    [resolve] and [reject] are the two effects [Resolve] and [Reject]
    below. *)
Record Request := mkRequest {
  rid : nat;
  query : string;
  userId : string;
  conversationHistory : list Message
}.

(** A line of the worker's output once parsed: [data.success],
    [data.message], [data.answer], [data.contexts], [data.error?.message]. *)
Record Data := mkData {
  success : bool;
  message : option string;
  answer : string;
  contexts : list string;
  error_message : option string
}.

(** A line on the worker's standard output.  [Garbage] is a line on which
    [JSON.parse] throws.  [JsonNull] is a line that parses to [null]: the
    first read of a field of [data] then throws a [TypeError].  [Json] is
    any other line, with the fields the listener reads (a number, a string
    or an array has none of them: [success] is then [false]). *)
Inductive Line : Type :=
| Garbage
| JsonNull
| Json (data : Data).

Definition ready_line : Line :=
  Json (mkData true (Some "Ready") "" [] None).

Record Stats := mkStats {
  totalExecutions : Z;
  successfulExecutions : Z;
  failedExecutions : Z;
  totalElapsed : Z;
  avgElapsed : Z
}.

(** The fields of the bridge object. *)
Record t := mk {
  timeout : Z;
  maxRetries : Z;
  shell : option pid;
  requestQueue : list Request;
  isProcessing : bool;
  isReady : bool;
  currentRequest : option Request;
  stats : Stats
}.

(** What a process can still do. *)
Inductive ProcStatus := Running | Killed | Exited.

(** The bridge with the part of the event loop it has armed: the
    processes it created (every one keeps the listeners [_initShell] put
    on it), the time-out timers of the requests sent (no [clearTimeout]
    in the file), the restart timers and the [setImmediate] callbacks
    that have not run yet. *)
Record World := mkWorld {
  bridge : t;
  procs : list ProcStatus;
  timers : list nat;
  restarts : nat;
  immediates : nat;
  nextRid : nat
}.

(** Who called [resolve] or [reject]. *)
Inductive cause : Type :=
| ByLine (p : pid)     (* the 'message' listener of process [p] *)
| ByTimeout            (* the request's timer *)
| ByDeath              (* [_handleProcessDeath] *)
| BySend.              (* the [catch] around [shell.send] *)

(** What the bridge does to the world outside, in order. *)
Inductive effect : Type :=
| Spawn (p : pid)                        (* [new PythonShell(...)] *)
| Kill (p : pid)                         (* [this.shell.kill()] *)
| Push (r : Request)                     (* [requestQueue.push] *)
| Send (p : pid) (r : Request)           (* [this.shell.send(payload)] *)
| Resolve (r : nat) (d : Data) (c : cause)
| Reject (r : nat) (e : exn) (c : cause).

(** What the event loop delivers to the bridge. *)
Inductive event : Type :=
| ExecutePython (query userId : string) (history : list Message)
| ShellMessage (p : pid) (line : Line)
| ShellStderr (p : pid)
| ShellError (p : pid)
| ShellClose (p : pid)
| RequestTimeout (r : nat)
| RestartTimer
| Immediate.

(** *** Field updates *)

Definition with_shell (x : option pid) (b : t) : t :=
  mk (timeout b) (maxRetries b) x (requestQueue b) (isProcessing b)
     (isReady b) (currentRequest b) (stats b).
Definition with_requestQueue (x : list Request) (b : t) : t :=
  mk (timeout b) (maxRetries b) (shell b) x (isProcessing b)
     (isReady b) (currentRequest b) (stats b).
Definition with_isProcessing (x : bool) (b : t) : t :=
  mk (timeout b) (maxRetries b) (shell b) (requestQueue b) x
     (isReady b) (currentRequest b) (stats b).
Definition with_isReady (x : bool) (b : t) : t :=
  mk (timeout b) (maxRetries b) (shell b) (requestQueue b) (isProcessing b)
     x (currentRequest b) (stats b).
Definition with_currentRequest (x : option Request) (b : t) : t :=
  mk (timeout b) (maxRetries b) (shell b) (requestQueue b) (isProcessing b)
     (isReady b) x (stats b).
Definition with_stats (x : Stats) (b : t) : t :=
  mk (timeout b) (maxRetries b) (shell b) (requestQueue b) (isProcessing b)
     (isReady b) (currentRequest b) x.

Definition on_bridge (f : t -> t) (w : World) : World :=
  mkWorld (f (bridge w)) (procs w) (timers w) (restarts w) (immediates w)
          (nextRid w).
Definition with_procs (x : list ProcStatus) (w : World) : World :=
  mkWorld (bridge w) x (timers w) (restarts w) (immediates w) (nextRid w).
Definition with_timers (x : list nat) (w : World) : World :=
  mkWorld (bridge w) (procs w) x (restarts w) (immediates w) (nextRid w).
Definition with_restarts (x : nat) (w : World) : World :=
  mkWorld (bridge w) (procs w) (timers w) x (immediates w) (nextRid w).
Definition with_immediates (x : nat) (w : World) : World :=
  mkWorld (bridge w) (procs w) (timers w) (restarts w) x (nextRid w).
Definition with_nextRid (x : nat) (w : World) : World :=
  mkWorld (bridge w) (procs w) (timers w) (restarts w) (immediates w) x.

Definition status (p : pid) (w : World) : option ProcStatus :=
  nth_error (procs w) p.

Fixpoint set_nth {A} (n : nat) (x : A) (l : list A) : list A :=
  match n, l with
  | _, [] => []
  | O, _ :: r => x :: r
  | S n', y :: r => y :: set_nth n' x r
  end.

(** *** The methods *)

Definition mark_killed (p : pid) (w : World) : World :=
  match status p w with
  | Some Running => with_procs (set_nth p Killed (procs w)) w
  | _ => w
  end.

(** [_initShell()]: kills the shell the bridge still holds, if it holds
    one, creates a process and puts the four listeners on it. *)
Definition _initShell (w : World) : World * list effect :=
  let '(w1, killed) :=
    match shell (bridge w) with
    | Some old => (mark_killed old w, [Kill old])
    | None => (w, [])
    end in
  let p := List.length (procs w1) in
  let w2 := with_procs (procs w1 ++ [Running]) w1 in
  let w3 := on_bridge (fun b => with_isReady false (with_shell (Some p) b)) w2 in
  (w3, killed ++ [Spawn p]).

Definition crashed : exn := PythonExecutionError "Python process crashed".

(** [_handleProcessDeath()] *)
Definition _handleProcessDeath (w : World) : World * list effect :=
  let b := with_shell None (with_isProcessing false (with_isReady false (bridge w))) in
  let '(b', rejected) :=
    match currentRequest b with
    | Some r => (with_currentRequest None b, [Reject (rid r) crashed ByDeath])
    | None => (b, [])
    end in
  (with_restarts (S (restarts w)) (on_bridge (fun _ => b') w), rejected).

(** What [this.shell.send] throws when [this.shell] is [null]. *)
Definition send_failure : exn :=
  TypeError "Cannot read properties of null (reading 'send')".

(** [_processQueue()], with [queue] the content of [this.requestQueue].
    [this.shell.send] throws a [TypeError] when [this.shell] is [null];
    the [catch] then rejects the request and calls [_processQueue] again,
    on the rest of the queue. *)
Fixpoint processQueue_on (queue : list Request) (w : World)
  : World * list effect :=
  let b := bridge w in
  if negb (isReady b) || isProcessing b then (w, [])
  else
    match queue with
    | [] => (w, [])
    | request :: rest =>
        let w1 := on_bridge (fun b => with_isProcessing true
                               (with_currentRequest (Some request)
                                  (with_requestQueue rest b))) w in
        match shell b with
        | Some p =>
            (with_timers (timers w1 ++ [rid request]) w1, [Send p request])
        | None =>
            let w2 := on_bridge (fun b => with_isProcessing false
                                   (with_currentRequest None b)) w1 in
            let '(w3, effs) := processQueue_on rest w2 in
            (w3, Reject (rid request) send_failure BySend :: effs)
        end
    end.

Definition _processQueue (w : World) : World * list effect :=
  processQueue_on (requestQueue (bridge w)) w.

(** [_executePython(query, userId, conversationHistory)], up to the
    promise it returns: the request is pushed and [_processQueue] runs. *)
Definition _executePython (query userId : string) (history : list Message)
    (w : World) : World * list effect :=
  let request := mkRequest (nextRid w) query userId history in
  let w1 := with_nextRid (S (nextRid w))
              (on_bridge (fun b => with_requestQueue (requestQueue b ++ [request]) b) w) in
  let '(w2, effs) := _processQueue w1 in
  (w2, Push request :: effs).

Definition is_ready_message (d : Data) : bool :=
  success d && match message d with
               | Some m => String.eqb m "Ready"
               | None => false
               end.

(** [data.error?.message || 'Unknown Python error'] *)
Definition python_error (d : Data) : exn :=
  PythonExecutionError
    match error_message d with
    | Some (String c rest as m) => m
    | _ => "Unknown Python error"
    end.

(** The 'message' listener that [_initShell] put on process [p].  The
    whole body is inside [try], whose [catch] only logs.  On [null] the
    readiness test reads [data.success] only when [isReady] is not set,
    and throws there; with [isReady] set the test is skipped, the current
    request is taken out of [currentRequest], [isProcessing] is cleared,
    and then [data.success] throws: the request is neither resolved nor
    rejected, and no [setImmediate] is armed. *)
Definition on_message (p : pid) (line : Line) (w : World)
  : World * list effect :=
  match line with
  | Garbage => (w, [])
  | JsonNull =>
      if negb (isReady (bridge w)) then (w, [])
      else
        match currentRequest (bridge w) with
        | Some current =>
            (on_bridge (fun b => with_isProcessing false
                                   (with_currentRequest None b)) w, [])
        | None => (w, [])
        end
  | Json data =>
      if negb (isReady (bridge w)) && is_ready_message data
      then _processQueue (on_bridge (with_isReady true) w)
      else
        match currentRequest (bridge w) with
        | Some current =>
            let w1 := on_bridge (fun b => with_isProcessing false
                                   (with_currentRequest None b)) w in
            let settle :=
              if success data then Resolve (rid current) data (ByLine p)
              else Reject (rid current) (python_error data) (ByLine p) in
            (with_immediates (S (immediates w1)) w1, [settle])
        | None => (w, [])
        end
  end.

Definition timed_out : exn := PythonExecutionError "Python execution timeout".

(** The callback of the timer [_processQueue] set for the request [r]. *)
Definition on_timeout (r : nat) (w : World) : World * list effect :=
  match currentRequest (bridge w) with
  | Some current =>
      if Nat.eqb (rid current) r
      then let '(w1, effs) := _handleProcessDeath w in
           (w1, Reject r timed_out ByTimeout :: effs)
      else (w, [])
  | None => (w, [])
  end.

Fixpoint remove_first (r : nat) (l : list nat) : list nat :=
  match l with
  | [] => []
  | x :: rest => if Nat.eqb x r then rest else x :: remove_first r rest
  end.

(** [enabled w ev]: the event loop can deliver [ev] in [w]. *)
Definition enabled (w : World) (ev : event) : bool :=
  match ev with
  | ExecutePython _ _ _ => true
  | ShellMessage p _ | ShellStderr p | ShellError p =>
      match status p w with
      | Some Running => true
      | _ => false
      end
  | ShellClose p =>
      match status p w with
      | Some Running | Some Killed => true
      | _ => false
      end
  | RequestTimeout r => existsb (Nat.eqb r) (timers w)
  | RestartTimer => negb (Nat.eqb (restarts w) 0)
  | Immediate => negb (Nat.eqb (immediates w) 0)
  end.

Definition handle (ev : event) (w : World) : World * list effect :=
  match ev with
  | ExecutePython q u h => _executePython q u h w
  | ShellMessage p line => on_message p line w
  | ShellStderr p => (w, [])
  | ShellError p => _handleProcessDeath w
  | ShellClose p =>
      _handleProcessDeath (with_procs (set_nth p Exited (procs w)) w)
  | RequestTimeout r =>
      on_timeout r (with_timers (remove_first r (timers w)) w)
  | RestartTimer => _initShell (with_restarts (pred (restarts w)) w)
  | Immediate => _processQueue (with_immediates (pred (immediates w)) w)
  end.

(** One turn of the event loop; an event that cannot happen changes
    nothing. *)
Definition step (w : World) (ev : event) : World * list effect :=
  if enabled w ev then handle ev w else (w, []).

Fixpoint run (w : World) (evs : list event) : World * list effect :=
  match evs with
  | [] => (w, [])
  | ev :: rest =>
      let '(w1, e1) := step w ev in
      let '(w2, e2) := run w1 rest in
      (w2, e1 ++ e2)
  end.

(** [new PythonBridge(options)]; [x || d] on a number takes [d] for 0. *)
Definition or_default (x : option Z) (d : Z) : Z :=
  match x with
  | Some v => if v =? 0 then d else v
  | None => d
  end.

Definition new (timeout0 maxRetries0 : option Z) : World * list effect :=
  _initShell
    (mkWorld (mk (or_default timeout0 30000) (or_default maxRetries0 1)
                 None [] false false None (mkStats 0 0 0 0 0))
             [] [] 0 0 0).

(** Everything the bridge did from its construction through [evs]. *)
Definition history (timeout0 maxRetries0 : option Z) (evs : list event)
  : World * list effect :=
  let '(w0, e0) := new timeout0 maxRetries0 in
  let '(w, e) := run w0 evs in
  (w, e0 ++ e).

(** *** executeQuery *)

(** What [executeQuery] asks of the rest of the bridge, in order: a call
    of [_executePython], which pushes a request on the queue, and a call
    of [_sleep]. *)
Inductive action : Type :=
| Invoke (query userId : string) (history : list Message)
| Sleep (ms : Z).

(** How the [while] loop ends: by the [return] inside it, or by its
    condition, with the values of [attempt] and [lastError] then. *)
Inductive loop_exit : Type :=
| Returned (result : Data)
| Exhausted (attempt : Z) (lastError : option exn).

(** [Math.min(1000 * Math.pow(2, attempt - 1), 5000)] *)
Definition backoff (attempt : Z) : Z := Z.min (1000 * 2 ^ (attempt - 1)) 5000.

Section RetryLoop.
(** [worker k] is what the promise of the [k]-th call of
    [_executePython] settles to: the data it is resolved with or the
    error it is rejected with. *)
Variable worker : Z -> exn + Data.
Variable maxRetries : Z.
Variables (query userId : string) (history : list Message).

Equations? retry_loop (attempt : Z) (lastError : option exn)
  : list action * loop_exit
  by wf (Z.to_nat (maxRetries + 1 - attempt)) lt :=
  retry_loop attempt lastError with Z_le_gt_dec attempt maxRetries => {
    | right _ => ([], Exhausted attempt lastError)
    | left _ with worker (attempt + 1) => {
      | inr result => ([Invoke query userId history], Returned result)
      | inl error =>
          let '(rest, exit) := retry_loop (attempt + 1) (Some error) in
          (Invoke query userId history ::
             (if attempt + 1 <=? maxRetries
              then Sleep (backoff (attempt + 1)) :: rest
              else rest),
           exit)
      }
    }.
Proof. lia. Qed.

End RetryLoop.

(** [Math.round(a / b)] for [b > 0]: halves go up. *)
Definition round_div (a b : Z) : Z := (2 * a + b) / (2 * b).

(** [_updateStats(success, elapsed)] *)
Definition _updateStats (ok : bool) (elapsed : Z) (b : t) : t :=
  let s := stats b in
  let total := totalExecutions s + 1 in
  let sum := totalElapsed s + elapsed in
  with_stats
    (mkStats total
             (if ok then successfulExecutions s + 1 else successfulExecutions s)
             (if ok then failedExecutions s else failedExecutions s + 1)
             sum (round_div sum total))
    b.

Definition decimal (z : Z) : string :=
  DecimalString.NilZero.string_of_int (Z.to_int z).

(** The value [executeQuery] returns: [{ ...result, elapsed, success: true }]. *)
Record Answer := mkAnswer { result : Data; elapsed : Z }.

(** [query.trim()] is falsy *)
Definition blank (s : string) : bool := String.eqb (Js.trim s) "".

(** [executeQuery(query, userId, conversationHistory)].  [worker] is as in
    [retry_loop]; [elapsed] is [Date.now() - startTime] when the call
    ends.  The result is what the call asked of the bridge, the bridge
    object after it, and the exception thrown or the answer returned. *)
Definition text_of (query : Js.value) : string :=
  match query with Js.Str q => q | _ => "" end.

(** [!query || typeof query !== 'string' || !query.trim()] *)
Definition not_a_query (query : Js.value) : bool :=
  Js.falsy query || negb (Js.is_string query) || blank (text_of query).

(** [query.length > 2000] *)
Definition too_long (query : Js.value) : bool :=
  Z.of_nat (String.length (text_of query)) >? 2000.

Definition executeQuery (worker : Z -> exn + Data) (elapsed : Z)
    (query : Js.value) (userId : string) (history : list Message) (b : t)
  : list action * (t * (exn + Answer)) :=
  if not_a_query query
  then ([], (b, inl (ValidationError "Query must be a non-empty string")))
  else if too_long query
  then ([], (b, inl (ValidationError
                       "Query exceeds maximum length of 2000 characters")))
  else
    match retry_loop worker (maxRetries b) (text_of query) userId history 0 None with
    | (acts, Returned data) =>
        (acts, (_updateStats true elapsed b, inr (mkAnswer data elapsed)))
    | (acts, Exhausted attempt (Some lastError)) =>
        (acts, (_updateStats false elapsed b,
                inl (PythonExecutionError
                       ("Python execution failed after " ++ decimal attempt
                        ++ " attempts: " ++ message_of lastError)%string)))
    | (acts, Exhausted attempt None) =>
        (acts, (_updateStats false elapsed b,
                inl (TypeError
                       "Cannot read properties of null (reading 'message')")))
    end.

(** What the actions of [executeQuery] do to the bridge: each [Invoke] is
    a call of [_executePython]; [_sleep] leaves the bridge alone. *)
Definition perform (a : action) (w : World) : World * list effect :=
  match a with
  | Invoke q u h => _executePython q u h w
  | Sleep _ => (w, [])
  end.

(** The actions of a call, performed in order on the bridge. *)
Fixpoint perform_all (acts : list action) (w : World) : World * list effect :=
  match acts with
  | [] => (w, [])
  | a :: rest =>
      let '(w1, e1) := perform a w in
      let '(w2, e2) := perform_all rest w1 in
      (w2, e1 ++ e2)
  end.

Definition invocations (acts : list action) : nat :=
  List.length (filter (fun a => match a with Invoke _ _ _ => true | _ => false end) acts).

Definition sleeps (acts : list action) : list Z :=
  flat_map (fun a => match a with Sleep ms => [ms] | _ => [] end) acts.

End PythonBridge.

(* ===================================================================== *)
(** ** MockQueue (config/queue.js): the in-memory queue                   *)
(* ===================================================================== *)

Module MockQueue.
Import Eff.
Local Open Scope Z_scope.
Local Open Scope eff_scope.

(** What [job.getState()] answers. *)
Inductive JobState := waiting | active | completed | failed.

(** The [options] of [add]; [jobId] absent is [None]. *)
Record Options := mkOptions {
  jobId : option string;
  priority : Z;
  timeout : Z
}.

Section WithTypes.
(** The job's data, the processor's result, and the state of the
    objects the processor works on. *)
Context {D R S : Type}.

Record Job := mkJob {
  id : string;
  data : D;
  opts : Options;
  timestamp : Z;
  attemptsMade : Z;
  state : JobState;
  returnvalue : option R;
  failedReason : option string
}.

Definition with_state (x : JobState) (j : Job) : Job :=
  mkJob (id j) (data j) (opts j) (timestamp j) (attemptsMade j) x
        (returnvalue j) (failedReason j).
Definition with_returnvalue (x : R) (j : Job) : Job :=
  mkJob (id j) (data j) (opts j) (timestamp j) (attemptsMade j) (state j)
        (Some x) (failedReason j).
Definition with_failedReason (x : string) (j : Job) : Job :=
  mkJob (id j) (data j) (opts j) (timestamp j) (attemptsMade j) (state j)
        (returnvalue j) (Some x).

(** What a listener registered with [on] receives with the job. *)
Definition Listener := Job -> exn + R -> M S unit.

Record t := mk {
  jobs : JsMap.t Job;
  jobCounter : Z;
  processor : option (Job -> M S R);
  eventHandlers : JsMap.t Listener
}.

(** [new MockQueue()] *)
Definition new : t := mk [] 0 None [].

(** [process(concurrency, processor)] *)
Definition process (concurrency : Z) (f : Job -> M S R) (q : t) : t :=
  mk (jobs q) (jobCounter q) (Some f) (eventHandlers q).

(** [on(event, handler)] *)
Definition on (event : string) (handler : Listener) (q : t) : t :=
  mk (jobs q) (jobCounter q) (processor q)
     (JsMap.set event handler (eventHandlers q)).

Definition put_job (j : Job) (q : t) : t :=
  mk (JsMap.set (id j) j (jobs q)) (jobCounter q) (processor q)
     (eventHandlers q).

(** The processor and the listeners run on [S]; the queue is the other
    half of the state. *)
Definition lift {A} (m : M S A) : M (t * S) A :=
  fun qs => let '(s', r) := m (snd qs) in ((fst qs, s'), r).

(** [emit(event, job, result)] *)
Definition emit (event : string) (j : Job) (arg : exn + R) : M (t * S) unit :=
  handlers <- gets (fun qs => eventHandlers (fst qs)) ;;
  match JsMap.get event handlers with
  | Some handler => lift (handler j arg)
  | None => ret tt
  end.

(** [options.jobId || `job-${++this.jobCounter}`] *)
Definition fresh_id (options : Options) : M (t * S) string :=
  match jobId options with
  | Some (String c rest as given) => ret given
  | _ =>
      modify (fun qs => (mk (jobs (fst qs)) (jobCounter (fst qs) + 1)
                            (processor (fst qs)) (eventHandlers (fst qs)),
                         snd qs)) ;;
      n <- gets (fun qs => jobCounter (fst qs)) ;;
      ret ("job-" ++ PythonBridge.decimal n)%string
  end.

(** The job object is the one stored in [jobs]: what [add] writes to it
    afterwards shows in the map, hence [put_job] after each change. *)
Definition update_job (j : Job) : M (t * S) unit :=
  modify (fun qs => (put_job j (fst qs), snd qs)).

(** [add(data, options)]; [now] is [Date.now()]. *)
Definition add (now : Z) (d : D) (options : Options) : M (t * S) Job :=
  jobId <- fresh_id options ;;
  let job := mkJob jobId d options now 0 waiting None None in
  update_job job ;;
  proc <- gets (fun qs => processor (fst qs)) ;;
  match proc with
  | Some f =>
      let job1 := with_state active job in
      try_catch
        (update_job job1 ;;
         result <- lift (f job1) ;;
         let job2 := with_state completed (with_returnvalue result job1) in
         update_job job2 ;;
         emit "completed" job2 (inr result) ;;
         ret job2)
        (fun error =>
           current <- gets (fun qs => JsMap.get jobId (jobs (fst qs))) ;;
           let job2 := match current with Some j => j | None => job1 end in
           let job3 := with_state failed
                         (with_failedReason (message_of error) job2) in
           update_job job3 ;;
           emit "failed" job3 (inl error) ;;
           ret job3)
  | None => ret job
  end.


(** [getJob(jobId)] *)
Definition getJob (jobId : string) (q : t) : option Job :=
  JsMap.get jobId (jobs q).


(** The job [add] returns and the state it leaves, given the processor
    registered: without one the job as created; with one, the job after
    the processor has run on it, completed with the result or failed
    with the reason. *)
Definition outcome (f : option (Job -> M S R)) (job : Job) (s : S)
  : S * Job :=
  match f with
  | None => (s, job)
  | Some f =>
      match f (with_state active job) s with
      | (s', inr result) =>
          (s', with_state completed
                 (with_returnvalue result (with_state active job)))
      | (s', inl error) =>
          (s', with_state failed
                 (with_failedReason (message_of error)
                    (with_state active job)))
      end
  end.

End WithTypes.
Arguments Job : clear implicits.
Arguments t : clear implicits.
Arguments Listener : clear implicits.
End MockQueue.

(* ===================================================================== *)
(** ** QueueService (services/queue.service.js)                           *)
(* ===================================================================== *)

Module QueueService.
Import Eff.
Local Open Scope Z_scope.
Local Open Scope eff_scope.

(** What is cached for a query: [{ answer, contexts }]. *)
Record Cached := mkCached { cached_answer : string; cached_contexts : list string }.

(** [job.data] *)
Record JobData := mkJobData {
  query : Js.value;
  userId : string;
  sessionId : string;
  conversationHistory : list PythonBridge.Message;
  timestamp : Z
}.

(** The value of a processed job. *)
Record JobResult := mkJobResult {
  answer : string;
  contexts : list string;
  cached : bool;
  elapsed : Z;
  result_userId : string;
  result_sessionId : string
}.

(** What processing a job does outside the job, in order. *)
Inductive op : Type :=
| Progress (percent : Z)                       (* [job.progress(n)] *)
| CacheGet (key : string)                      (* [cacheService.get] *)
| CacheSet (key : string) (v : Cached)         (* [cacheService.set] *)
| Bridge (a : PythonBridge.action).            (* inside [executeQuery] *)

Section WithJson.
Context {json : Json Cached}.

(** The two singletons the processor works on, and the log of what it
    did. *)
Record Services := mkServices {
  cacheService : CacheService.t Cached;
  pythonBridge : PythonBridge.t;
  log : list op
}.

(** What the surroundings decide during one job: the clock and the
    state of the Redis connection, what each call of [_executePython]
    settles to, and the time the job takes. *)
Record Env := mkEnv {
  cache_env : CacheService.Env;
  worker : Z -> exn + PythonBridge.Data;
  duration : Z
}.

Definition tell (o : list op) : M Services unit :=
  modify (fun s => mkServices (cacheService s) (pythonBridge s) (log s ++ o)).

Definition on_cache {A} (m : M (CacheService.t Cached) A) : M Services A :=
  fun s => let '(c, r) := m (cacheService s) in
           (mkServices c (pythonBridge s) (log s), r).

(** [cacheService.generateKey(query)]: [query.toLowerCase] is not a
    function unless [query] is a string. *)
Definition generateKey (query : Js.value) : M Services string :=
  match query with
  | Js.Str q => ret (CacheService.generateKey q)
  | Js.Undefined =>
      throw (TypeError "Cannot read properties of undefined (reading 'toLowerCase')")
  | Js.Null =>
      throw (TypeError "Cannot read properties of null (reading 'toLowerCase')")
  | _ => throw (TypeError "query.toLowerCase is not a function")
  end.

Definition executeQuery (env : Env) (query : Js.value) (userId : string)
    (history : list PythonBridge.Message) : M Services PythonBridge.Answer :=
  fun s =>
    let '(acts, (b, r)) :=
      PythonBridge.executeQuery (worker env) (duration env) query userId
                                history (pythonBridge s) in
    (mkServices (cacheService s) b (log s ++ map Bridge acts), r).

Definition is_empty {A} (l : list A) : bool :=
  match l with [] => true | _ => false end.

(** The statements of [_processJob] inside [try]. *)
Definition processJob_body (env : Env) (d : JobData) : M Services JobResult :=
  tell [Progress 20] ;;
  cacheKey <- generateKey (query d) ;;
  hit <- (if is_empty (conversationHistory d)
          then tell [CacheGet cacheKey] ;;
               on_cache (CacheService.get (cache_env env) cacheKey)
          else ret None) ;;
  match hit with
  | Some c =>
      tell [Progress 100] ;;
      ret (mkJobResult (cached_answer c) (cached_contexts c) true
                       (duration env) (userId d) (sessionId d))
  | None =>
      tell [Progress 40] ;;
      result <- executeQuery env (query d) (userId d) (conversationHistory d) ;;
      tell [Progress 80] ;;
      let data := PythonBridge.result result in
      let stored := mkCached (PythonBridge.answer data)
                             (PythonBridge.contexts data) in
      tell [CacheSet cacheKey stored] ;;
      on_cache (CacheService.set (cache_env env) cacheKey stored None) ;;
      tell [Progress 100] ;;
      ret (mkJobResult (PythonBridge.answer data) (PythonBridge.contexts data)
                       false (duration env) (userId d) (sessionId d))
  end.

(** [_processJob(job)]: the [catch] logs and throws the error again. *)
Definition _processJob (env : Env) (job : MockQueue.Job JobData JobResult)
  : M Services JobResult :=
  try_catch (processJob_body env (MockQueue.data job))
            (fun error => throw error).









End WithJson.
End QueueService.

(* ===================================================================== *)
(** ** Vocabulary of the properties                                       *)
(* ===================================================================== *)

Module Spec.
Import PythonBridge.
Local Open Scope list_scope.

(** Every character of the string is white space. *)
Fixpoint all_space (s : string) : bool :=
  match s with
  | EmptyString => true
  | String c r => Js.is_space c && all_space r
  end.

(** The queries that must be refused: not a string, empty, white space
    only, or longer than 2000 characters. *)
Inductive refused : Js.value -> Prop :=
| refused_not_string v : Js.is_string v = false -> refused v
| refused_empty : refused (Js.Str "")
| refused_blank s : all_space s = true -> refused (Js.Str s)
| refused_long s : (String.length s > 2000)%nat -> refused (Js.Str s).

(** A query [executeQuery] lets through. *)
Definition accepted (q : string) : Prop :=
  Js.trim q <> "" /\ (String.length q <= 2000)%nat.

(** A string of [n] times the character [c]. *)
Fixpoint replicate (n : nat) (c : ascii) : string :=
  match n with
  | O => EmptyString
  | S n' => String c (replicate n' c)
  end.

(** The attempts [first], [first + 1], ... of a call whose worker fails
    every time: a call of [_executePython], then the back-off unless the
    attempt was the last one. *)
Fixpoint failing_attempts (q u : string) (h : list Message)
    (maxRetries first : Z) (n : nat) : list action :=
  match n with
  | O => []
  | S n' =>
      Invoke q u h ::
        (if (first <=? maxRetries)%Z then [Sleep (backoff first)] else [])
        ++ failing_attempts q u h maxRetries (first + 1) n'
  end.

(** The numbers [1], ..., [n]. *)
Definition upto (n : Z) : list Z := map Z.of_nat (seq 1 (Z.to_nat n)).

(** The bridge object that [new PythonBridge()] leaves. *)
Definition default_bridge : t := bridge (fst (new None None)).

End Spec.

(** Reading a history of the bridge. *)
Module Trace.
Import PythonBridge.
Local Open Scope list_scope.

(** The effect calls [resolve] or [reject] of the request [r]. *)
Definition settles (r : nat) (e : effect) : bool :=
  match e with
  | Resolve r' _ _ | Reject r' _ _ => Nat.eqb r r'
  | _ => false
  end.

Definition settled (r : nat) (tr : list effect) : bool :=
  existsb (settles r) tr.

(** The requests written to a worker, in order. *)
Definition sent (tr : list effect) : list Request :=
  flat_map (fun e => match e with Send _ r => [r] | _ => [] end) tr.

(** The requests written to a worker whose promise is still pending. *)
Definition in_flight (tr : list effect) : list Request :=
  filter (fun r => negb (settled (rid r) tr)) (sent tr).

(** The requests in the order in which they were pushed on the queue. *)
Definition arrived (tr : list effect) : list nat :=
  flat_map (fun e => match e with Push r => [rid r] | _ => [] end) tr.

(** The requests in the order in which [_processQueue] took them off the
    queue: each one was handed to [shell.send], which wrote it to the
    worker or threw. *)
Definition taken (tr : list effect) : list nat :=
  flat_map (fun e => match e with
                     | Send _ r => [rid r]
                     | Reject r _ BySend => [r]
                     | _ => []
                     end) tr.

(** The process a request was written to. *)
Definition sent_to (r : nat) (tr : list effect) : list pid :=
  flat_map (fun e => match e with
                     | Send p r' => if Nat.eqb (rid r') r then [p] else []
                     | _ => []
                     end) tr.

Definition kills (tr : list effect) : list pid :=
  flat_map (fun e => match e with Kill p => [p] | _ => [] end) tr.

(** The three things a call of [_processQueue] on the queue [q] can do:
    nothing; take the first request and write it to the worker; or, with
    no shell to write to, reject every request of the queue in turn. *)
Inductive processed (q : list Request) (w w' : World)
  : list effect -> Prop :=
| processed_nothing :
    w' = w -> processed q w w' []
| processed_send p r rest :
    isProcessing (bridge w) = false ->
    q = r :: rest ->
    bridge w' = with_isProcessing true
                  (with_currentRequest (Some r)
                     (with_requestQueue rest (bridge w))) ->
    processed q w w' [Send p r]
| processed_reject :
    isProcessing (bridge w) = false ->
    bridge w' = with_isProcessing false
                  (with_currentRequest None
                     (with_requestQueue [] (bridge w))) ->
    processed q w w' (map (fun r => Reject (rid r) send_failure BySend) q).

(** The requests taken off the queue, in the order they were taken,
    followed by the requests still waiting in it, are the requests in the
    order in which they were pushed. *)
Definition in_order (b : t) (tr : list effect) : Prop :=
  arrived tr = taken tr ++ map rid (requestQueue b).

(** The event is a line [null] of some worker. *)
Definition null_line (ev : event) : bool :=
  match ev with
  | ShellMessage _ JsonNull => true
  | _ => false
  end.

(** No worker prints the line [null]. *)
Definition no_null_line (evs : list event) : bool :=
  forallb (fun ev => negb (null_line ev)) evs.

(** What holds of the bridge object [b] after the history [tr]: a request
    is held in [currentRequest] whenever [isProcessing] is set; a request
    written to a worker and not settled is the current one; the requests
    taken off the queue and those waiting in it are the arrivals, in
    order; and no request was written while another was in flight. *)
Record consistent (b : t) (tr : list effect) : Prop := {
  idle_no_current : isProcessing b = false -> currentRequest b = None;
  flight_is_current : forall r, In r (in_flight tr) -> currentRequest b = Some r;
  queue_in_order : arrived tr = taken tr ++ map rid (requestQueue b);
  one_at_a_time : forall before p r after,
      tr = before ++ Send p r :: after -> in_flight before = []
}.

End Trace.

(** Scenarios on a bridge built with the default options. *)
Module Scenario.
Import PythonBridge.
Local Open Scope list_scope.

(** Every event of [evs] can happen when its turn comes. *)
Fixpoint deliverable (w : World) (evs : list event) : bool :=
  match evs with
  | [] => true
  | ev :: rest => enabled w ev && deliverable (fst (step w ev)) rest
  end.

Definition request_A : Request := mkRequest 0 "question A" "alice" [].
Definition request_B : Request := mkRequest 1 "question B" "bob" [].
Definition request_C : Request := mkRequest 2 "question C" "carol" [].

Definition answer_A : Data := mkData true None "answer to A" [] None.
Definition answer_B : Data := mkData true None "answer to B" [] None.

Definition ask_A : event := ExecutePython "question A" "alice" [].
Definition ask_B : event := ExecutePython "question B" "bob" [].
Definition ask_C : event := ExecutePython "question C" "carol" [].

(** Two callers, a healthy worker: B waits until A is answered. *)
Definition two_callers : list event :=
  [ ShellMessage 0 ready_line; ask_A; ask_B;
    ShellMessage 0 (Json answer_A); Immediate;
    ShellMessage 0 (Json answer_B) ].

(** The worker hangs on A: the request's timer fires, then the restart
    timer. *)
Definition hang : list event :=
  [ ShellMessage 0 ready_line; ask_A; RequestTimeout 0; RestartTimer ].

(** After the hang the second process gets ready and is sent B; then the
    first process, which was hanging, prints its answer to A. *)
Definition late_answer : list event :=
  hang ++ [ ShellMessage 1 ready_line; ask_B; ShellMessage 0 (Json answer_A) ].

(** The worker is sent A and prints the line [null]; B arrives; the
    timer of A fires. *)
Definition null_answer : list event :=
  [ ShellMessage 0 ready_line; ask_A; ShellMessage 0 JsonNull; ask_B;
    RequestTimeout 0 ].

(** After the hang the second process gets ready and is sent B; C
    arrives and waits; the first process, which was hanging, prints its
    answer to A; the [setImmediate] callback runs. *)
Definition overlap : list event :=
  hang ++ [ ShellMessage 1 ready_line; ask_B; ask_C;
            ShellMessage 0 (Json answer_A); Immediate ].

End Scenario.

(** Cache scenarios, on documents with a toy serialization: text that is
    stored as it is, [Cyclic] that [JSON.stringify] refuses, and the stored
    string [{] that [JSON.parse] refuses. *)
Module CacheScenario.
Import CacheService.
Local Open Scope Z_scope.

Inductive doc : Type := Text (s : string) | Cyclic.

#[export] Instance doc_json : Json doc := {
  stringify d := match d with Text s => Some s | Cyclic => None end;
  parse s := if String.eqb s "{" then None else Some (Text s)
}.

(** An enabled cache with a Redis client, and one without. *)
Definition with_redis : CacheService.t doc :=
  mk 3600 true (Some []) [] 100 (mkStats 0 0 0 0 0).

Definition memory_only : CacheService.t doc :=
  mk 3600 true None [] 100 (mkStats 0 0 0 0 0).

Definition up : Env := mkEnv 1000 false.
Definition down : Env := mkEnv 1000 true.

(** [n] entries under the keys 0, 1, ..., in the order of insertion. *)
Fixpoint numbered (n : nat) : JsMap.t (Entry doc) :=
  match n with
  | O => []
  | S n' =>
      (numbered n'
         ++ [(PythonBridge.decimal (Z.of_nat n'), mkEntry (Text "old") 9000)])%list
  end.

(** A cache without Redis whose in-memory store is full. *)
Definition full : CacheService.t doc :=
  mk 3600 true None (numbered 100) 100 (mkStats 0 0 0 0 0).

End CacheScenario.

(** Job scenarios: a cache without Redis, the default bridge, a worker that
    answers at the first attempt. *)
Module QueueScenario.
Import QueueService.
Local Open Scope Z_scope.

#[export] Instance cached_json : Json Cached := {
  stringify c := Some (cached_answer c);
  parse s := Some (mkCached s [])
}.

Definition services : Services :=
  mkServices (CacheService.mk 3600 true None [] 100
                              (CacheService.mkStats 0 0 0 0 0))
             Spec.default_bridge [].

Definition answers (text : string) : Env :=
  mkEnv (CacheService.mkEnv 1000 false)
        (fun _ => inr (PythonBridge.mkData true None text [] None))
        1200.

(** A follow-up question, asked after two earlier turns. *)
Definition follow_up : JobData :=
  mkJobData (Js.Str "and when is it due?") "alice" "session-1"
            [("user", "what is assignment 3?");
             ("assistant", "a report on caching")]
            1000.

(** The same words from another caller, with no earlier turn. *)
Definition first_turn : JobData :=
  mkJobData (Js.Str "And when is it due?") "bob" "session-2" [] 2000.

Definition job_of (id : string) (d : JobData)
  : MockQueue.Job JobData JobResult :=
  MockQueue.mkJob id d (MockQueue.mkOptions None 0 35000) 1000 0
                  MockQueue.active None None.

Definition key : string := CacheService.generateKey "and when is it due?".




Definition cache_reads (l : list op) : list string :=
  flat_map (fun o => match o with CacheGet k => [k] | _ => [] end) l.

Definition cache_writes (l : list op) : list string :=
  flat_map (fun o => match o with CacheSet k _ => [k] | _ => [] end) l.

Definition worker_calls (l : list op) : nat :=
  List.length
    (filter (fun o => match o with
                      | Bridge (PythonBridge.Invoke _ _ _) => true
                      | _ => false
                      end) l).

End QueueScenario.

(* ===================================================================== *)
(** ** CacheService: delete, clear, getSize, healthCheck                  *)
(* ===================================================================== *)

Module CacheOps.
Import Eff CacheService.
Local Open Scope Z_scope.
Local Open Scope eff_scope.

(** [s.startsWith(prefix)] *)
Fixpoint starts_with (prefix s : string) : bool :=
  match prefix, s with
  | EmptyString, _ => true
  | String a p, String b r => Ascii.eqb a b && starts_with p r
  | String _ _, EmptyString => false
  end.

Section WithJson.
Context {value : Type} {json : Json value}.

(** The keys of the Redis server that have not expired. *)
Definition live_keys (env : Env) (r : Redis) : list string :=
  map fst (filter (fun kv => now env <? snd (snd kv)) r).

(** [await this.redisClient.keys('chat:*')] *)
Definition redis_keys_chat (env : Env) (r : Redis) : M (t value) (list string) :=
  if redisDown env then throw (RedisError "Connection is closed.")
  else ret (filter (starts_with "chat:") (live_keys env r)).

(** [await this.redisClient.del(...keys)] *)
Definition redis_del (env : Env) (r : Redis) (keys : list string)
  : M (t value) unit :=
  if redisDown env then throw (RedisError "Connection is closed.")
  else modify (set_redisClient
                 (Some (fold_left (fun acc k => JsMap.delete k acc) keys r))).

Definition deleted (s : Stats) : Stats :=
  mkStats (hits s) (misses s) (sets s) (deletes s + 1) (errors s).

(** [delete(key)]; it does not look at [enabled]. *)
Definition delete (env : Env) (key : string) : M (t value) bool :=
  try_catch
    (client <- gets redisClient ;;
     match client with
     | Some r => redis_del env r [key]
     | None => ret tt
     end ;;
     modify (fun c => set_memoryCache (JsMap.delete key (memoryCache c)) c) ;;
     modify (set_stats deleted) ;;
     ret true)
    (fun error => modify (set_stats failed) ;; ret false).

(** [clear()]: the [chat:] keys of Redis, and the whole in-memory store. *)
Definition clear (env : Env) : M (t value) bool :=
  try_catch
    (client <- gets redisClient ;;
     match client with
     | Some r =>
         keys <- redis_keys_chat env r ;;
         match keys with
         | [] => ret tt
         | _ => redis_del env r keys
         end
     | None => ret tt
     end ;;
     modify (set_memoryCache []) ;;
     ret true)
    (fun error => ret false).

(** [getSize()]; [None] is [null]. *)
Definition getSize (env : Env) : M (t value) (option Z) :=
  try_catch
    (client <- gets redisClient ;;
     match client with
     | Some r =>
         keys <- redis_keys_chat env r ;;
         ret (Some (Z.of_nat (List.length keys)))
     | None =>
         mem <- gets memoryCache ;;
         ret (Some (JsMap.size mem))
     end)
    (fun error => ret None).

(** [healthCheck()].  [probe t] is the test value [{ timestamp: t }]; the
    three environments are those of the calls of [set], [get] and
    [delete]. *)
Definition healthCheck (probe : Z -> value) (env1 env2 env3 : Env)
  : M (t value) bool :=
  try_catch
    (set env1 "health:check" (probe (now env1)) (Some 10) ;;
     retrieved <- get env2 "health:check" ;;
     delete env3 "health:check" ;;
     ret (match retrieved with Some _ => true | None => false end))
    (fun error => ret false).

End WithJson.
End CacheOps.

(** Vocabulary of the cache properties. *)
Module CacheSpec.
Import CacheService.
Local Open Scope Z_scope.

(** No key occurs twice, as in a [Map]. *)
Definition distinct_keys {V} (m : JsMap.t V) : Prop := NoDup (map fst m).

(** The test of [distinct_keys] on a list of keys. *)
Fixpoint distinctb (l : list string) : bool :=
  match l with
  | [] => true
  | k :: r => negb (existsb (String.eqb k) r) && distinctb r
  end.

(** The in-memory store is within its capacity. *)
Definition bounded {value} (c : CacheService.t value) : Prop :=
  1 <= memoryCacheMaxSize c
  /\ JsMap.size (memoryCache c) <= memoryCacheMaxSize c.

(** The map without the keys [keys], removed one after the other. *)
Definition delete_all {V} (keys : list string) (m : JsMap.t V) : JsMap.t V :=
  fold_left (fun acc k => JsMap.delete k acc) keys m.

(** What a [GET] of Redis answers, when the connection is up. *)
Definition redis_lookup (env : Env) (r : Redis) (key : string) : option string :=
  match JsMap.get key r with
  | Some (s, expires) => if now env <? expires then Some s else None
  | None => None
  end.

End CacheSpec.

(** More cache scenarios. *)
Module CacheStock.
Import CacheService CacheScenario.
Local Open Scope Z_scope.

(** A Redis server with two cached answers, one of them expired, and the
    probe key of the health check. *)
Definition stocked : CacheService.t doc :=
  mk 3600 true
     (Some [("chat:a", ("answer a", 5000)); ("health:check", ("0", 5000));
            ("chat:b", ("answer b", 500))])
     [("chat:a", mkEntry (Text "answer a") 5000)] 100 (mkStats 0 0 0 0 0).

End CacheStock.

(** Vocabulary of the key properties. *)
Module KeySpec.
Local Open Scope Z_scope.

(** [tidy_from prev s]: in [s], read after a character that was white space
    or not ([prev]), every white-space character is a plain space, no two
    of them are adjacent, and the last character is not white space. *)
Fixpoint tidy_from (prev_space : bool) (s : string) : bool :=
  match s with
  | EmptyString => negb prev_space
  | String c r =>
      if Js.is_space c
      then Ascii.eqb c " " && negb prev_space && tidy_from true r
      else tidy_from false r
  end.

(** Words separated by single spaces, with no white space at either end;
    the empty string is tidy. *)
Definition tidy (s : string) : bool :=
  match s with
  | EmptyString => true
  | _ => tidy_from true s
  end.

(** The first character, if any, is not white space. *)
Definition starts_clean (s : string) : bool :=
  match s with
  | EmptyString => true
  | String c _ => negb (Js.is_space c)
  end.

(** One of [0-9a-f]. *)
Definition is_hex (c : ascii) : bool :=
  let n := Js.code c in
  ((48 <=? n) && (n <=? 57)) || ((97 <=? n) && (n <=? 102)).

Fixpoint all_hex (s : string) : bool :=
  match s with
  | EmptyString => true
  | String c r => is_hex c && all_hex r
  end.

End KeySpec.

(* ===================================================================== *)
(** ** PythonBridge: healthCheck, resetStats                              *)
(* ===================================================================== *)

Module BridgeOps.
Import Eff PythonBridge.
Local Open Scope Z_scope.

Definition testQuery : string :=
  "where to check scholarship status on mahadbt website".

(** [healthCheck()]: [result.success === true] holds of whatever
    [executeQuery] returns; a throw gives [false]. *)
Definition healthCheck (worker : Z -> exn + Data) (elapsed : Z) (b : t)
  : list action * (t * bool) :=
  let '(acts, (b', r)) :=
    executeQuery worker elapsed (Js.Str testQuery) "health-check" [] b in
  (acts, (b', match r with inr _ => true | inl _ => false end)).

(** [resetStats()] *)
Definition resetStats (b : t) : t := with_stats (mkStats 0 0 0 0 0) b.

(** The counters of [stats] agree: every execution counted is a success or
    a failure, and the average is the rounded mean. *)
Definition stats_ok (b : t) : Prop :=
  let s := stats b in
  0 <= successfulExecutions s
  /\ 0 <= failedExecutions s
  /\ totalExecutions s = successfulExecutions s + failedExecutions s
  /\ (0 < totalExecutions s ->
      avgElapsed s = round_div (totalElapsed s) (totalExecutions s)).

(** The sum of the sleeps of a call. *)
Definition slept (acts : list action) : Z := fold_right Z.add 0 (sleeps acts).

End BridgeOps.

(** More readings of a history of the bridge. *)
Module Processes.
Import PythonBridge Trace.
Local Open Scope list_scope.

(** The processes created, in order. *)
Definition spawned (tr : list effect) : list pid :=
  flat_map (fun e => match e with Spawn p => [p] | _ => [] end) tr.

(** What holds of the processes after the history [tr]: they were created
    in the order of their numbers; the shell the bridge holds is the last
    one created; the processes killed are older than the last one; and
    every request was written to the process that was then the last one
    created, none of those killed before. *)
Record newest (w : World) (tr : list effect) : Prop := {
  spawned_in_order : spawned tr = seq 0 (List.length (procs w));
  shell_is_last : forall p, shell (bridge w) = Some p ->
                            S p = List.length (procs w);
  killed_are_older : forall k, In k (kills tr) ->
                               (S k < List.length (procs w))%nat;
  sent_to_last : forall before p r after,
      tr = before ++ Send p r :: after ->
      spawned before = seq 0 (S p)
      /\ forall k, In k (kills before) -> (k < p)%nat
}.

End Processes.

(** Vocabulary of the job properties. *)
Module JobSpec.
Import QueueService.
Local Open Scope Z_scope.

(** The progress reports of a log, in order. *)
Definition progress (l : list op) : list Z :=
  flat_map (fun o => match o with Progress n => [n] | _ => [] end) l.

Definition is_string_query (d : JobData) : Prop :=
  exists q, query d = Js.Str q.

End JobSpec.

(** More job scenarios. *)
Module JobScenario.
Import QueueService QueueScenario.
Local Open Scope Z_scope.

(** The services with the answer to "hi" in the in-memory cache. *)
Definition warm : Services :=
  mkServices (CacheService.mk 3600 true None
                [(CacheService.generateKey "hi",
                  CacheService.mkEntry (mkCached "hello!" []) 3601000)]
                100 (CacheService.mkStats 0 0 0 0 0))
             Spec.default_bridge [].

(** "hi" after three thousand spaces: longer than a query may be. *)
Definition padded_hi : string := (Spec.replicate 3000 " " ++ "hi")%string.

Definition long_job : MockQueue.Job JobData JobResult :=
  job_of "job-9" (mkJobData (Js.Str padded_hi) "carol" "session-9" [] 1000).


(** The question of [first_turn], spelled differently by another caller. *)
Definition respelled : JobData :=
  mkJobData (Js.Str "  and WHEN is   it due? ") "dave" "session-3" [] 3000.

End JobScenario.

(* ===================================================================== *)
(** ** Queue statistics (queue.service.js, queue.js)                      *)
(* ===================================================================== *)

Module QueueOps.
Import Eff.
Local Open Scope Z_scope.

Inductive Health := healthy | degraded | unhealthy.

(** [_calculateQueueHealth(waiting, active, failed)] *)
Definition _calculateQueueHealth (waiting active failed : Z) : Health :=
  if failed >? 10 then unhealthy
  else if (waiting >? 50) || (active >? 10) then degraded
  else healthy.

(** How bad a state of health is. *)
Definition severity (h : Health) : Z :=
  match h with healthy => 0 | degraded => 1 | unhealthy => 2 end.

Record QueueStats := mkQueueStats {
  waiting_count : Z;
  active_count : Z;
  completed_count : Z;
  failed_count : Z;
  delayed_count : Z;
  paused_count : Z;
  total : Z;
  health : Health;
  isProcessing : bool
}.

Section WithTypes.
Context {D R S : Type}.

(** The counters of the in-memory queue: [getCompletedCount] is
    [this.jobs.size], the others are 0. *)
Definition getWaitingCount (q : MockQueue.t D R S) : Z := 0.
Definition getActiveCount (q : MockQueue.t D R S) : Z := 0.
Definition getCompletedCount (q : MockQueue.t D R S) : Z :=
  JsMap.size (MockQueue.jobs q).
Definition getFailedCount (q : MockQueue.t D R S) : Z := 0.
Definition getDelayedCount (q : MockQueue.t D R S) : Z := 0.
Definition getPausedCount (q : MockQueue.t D R S) : Z := 0.

(** [getQueueStats()] on the in-memory queue; [processing] is
    [this.isProcessing]. *)
Definition getQueueStats (processing : bool) (q : MockQueue.t D R S)
  : QueueStats :=
  let waiting := getWaitingCount q in
  let active := getActiveCount q in
  let completed := getCompletedCount q in
  let failed := getFailedCount q in
  let delayed := getDelayedCount q in
  let paused := getPausedCount q in
  mkQueueStats waiting active completed failed delayed paused
               (waiting + active + completed + failed + delayed)
               (_calculateQueueHealth waiting active failed)
               processing.

(** [close()]: [this.jobs.clear()] *)
Definition close (q : MockQueue.t D R S) : MockQueue.t D R S :=
  MockQueue.mk [] (MockQueue.jobCounter q) (MockQueue.processor q)
               (MockQueue.eventHandlers q).

(** The identifier [add] gives the job. *)
Definition id_given (options : MockQueue.Options) (q : MockQueue.t D R S)
  : string :=
  match MockQueue.jobId options with
  | Some (String c rest as given) => given
  | _ => ("job-" ++ PythonBridge.decimal (MockQueue.jobCounter q + 1))%string
  end.

(** No identifier was asked for: [options.jobId] is absent or empty. *)
Definition automatic (options : MockQueue.Options) : Prop :=
  MockQueue.jobId options = None \/ MockQueue.jobId options = Some ""%string.

(** Every job of the queue has one of the identifiers the queue has
    generated so far, the counter counting up from 0. *)
Definition generated_ids (q : MockQueue.t D R S) : Prop :=
  0 <= MockQueue.jobCounter q
  /\ forall k, In k (map fst (MockQueue.jobs q)) ->
               exists n, 1 <= n <= MockQueue.jobCounter q
                         /\ k = ("job-" ++ PythonBridge.decimal n)%string.

(** The jobs of [ds] added one after the other, each with [add]. *)
Fixpoint add_each (now : Z) (options : MockQueue.Options) (ds : list D)
  : M (MockQueue.t D R S * S) (list (MockQueue.Job D R)) :=
  match ds with
  | [] => ret []
  | d :: rest =>
      bind (MockQueue.add now d options) (fun job =>
      bind (add_each now options rest) (fun others =>
      ret (job :: others)))
  end.

End WithTypes.

(** A processor that always throws. *)
Definition failing_processor : MockQueue.Job string string
                               -> M unit string :=
  fun _ => throw (Error "worker down").

Definition no_options : MockQueue.Options := MockQueue.mkOptions None 0 0.

End QueueOps.

(* ===================================================================== *)
(** ** The daily limit of a user (userRateLimiter, getRateLimitStatus)    *)
(* ===================================================================== *)

Module RateLimiter.
Import Eff.
Local Open Scope Z_scope.
Local Open Scope eff_scope.

Definition DAILY_LIMIT : Z := 50.
Definition TWENTY_FOUR_HOURS : Z := 24 * 60 * 60 * 1000.

(** [user.usage]; a field the document does not have is [None].  Dates
    are milliseconds since the epoch. *)
Record Usage := mkUsage {
  totalQueries : option Z;
  lastQueryAt : option Z;
  totalSavedChats : option Z;
  dailyQueries : option Z;
  dailyLimit : option Z;
  dailyResetAt : option Z;
  dailyTokens : option Z
}.

Record User := mkUser {
  email : string;
  usage : option Usage
}.

(** The users of the database by identifier, and the error, if any, with
    which [User.findById] and [user.save] reject. *)
Record Db := mkDb {
  users : JsMap.t User;
  find_error : option exn;
  save_error : option exn
}.

(** [x] when the stored document has the path, the default of the schema
    otherwise. *)
Definition or_schema_default (x : option Z) (default : Z) : option Z :=
  match x with
  | Some v => Some v
  | None => Some default
  end.

(** The document as mongoose hands it over: a path of [usage] the stored
    document lacks takes the default the schema gives it
    (user.model.js): 0 for [totalQueries], [totalSavedChats],
    [dailyQueries] and [dailyTokens], 50 for [dailyLimit] and [Date.now]
    for [dailyResetAt]; [lastQueryAt] has none.  [now] is the clock when
    the document is loaded. *)
Definition hydrate (now : Z) (user : User) : User :=
  let u := match usage user with
           | Some x => x
           | None => mkUsage None None None None None None None
           end in
  mkUser (email user)
         (Some (mkUsage (or_schema_default (totalQueries u) 0)
                        (lastQueryAt u)
                        (or_schema_default (totalSavedChats u) 0)
                        (or_schema_default (dailyQueries u) 0)
                        (or_schema_default (dailyLimit u) 50)
                        (or_schema_default (dailyResetAt u) now)
                        (or_schema_default (dailyTokens u) 0))).

(** [User.findById(userId)]; [now] is the clock, which is read once for
    the whole call of the middleware. *)
Definition findById (now : Z) (userId : string) : M Db (option User) :=
  fun db =>
    match find_error db with
    | Some e => (db, inl e)
    | None => (db, inr (option_map (hydrate now) (JsMap.get userId (users db))))
    end.

(** [user.save()], [user] being the document found under [userId] *)
Definition save (userId : string) (user : User) : M Db unit :=
  fun db =>
    match save_error db with
    | Some e => (db, inl e)
    | None => (mkDb (JsMap.set userId user (users db)) (find_error db)
                    (save_error db), inr tt)
    end.

(** [user.usage?.field || fallback] for a number: absent and 0 give the
    fallback. *)
Definition number_or (field : Usage -> option Z) (fallback : Z)
    (u : option Usage) : Z :=
  match u with
  | Some x =>
      match field x with
      | Some z => if z =? 0 then fallback else z
      | None => fallback
      end
  | None => fallback
  end.

(** [user.usage?.field || fallback] for a date: a date is never falsy. *)
Definition date_or (field : Usage -> option Z) (fallback : Z)
    (u : option Usage) : Z :=
  match u with
  | Some x => match field x with Some z => z | None => fallback end
  | None => fallback
  end.

(** [{ ...user.usage }] *)
Definition spread (u : option Usage) : Usage :=
  match u with
  | Some x => x
  | None => mkUsage None None None None None None None
  end.

(** The three [X-RateLimit-] headers; [reset] is the date written in
    [X-RateLimit-Reset]. *)
Record Headers := mkHeaders {
  h_limit : Z;
  h_remaining : Z;
  h_reset : Z
}.

(** [req.rateLimitInfo] *)
Record Info := mkInfo {
  i_limit : Z;
  i_remaining : Z;
  i_used : Z
}.

(** The [error] of the 429 answer. *)
Record Refusal := mkRefusal {
  message : string;
  code : string;
  statusCode : Z;
  retryAfter : Z;
  limit : Z;
  remaining : Z;
  resetAt : Z
}.

(** What the middleware does with the request: [next()], with the headers
    and the [rateLimitInfo] it has set, or the 429 answer. *)
Inductive Outcome :=
| Next (headers : option Headers) (info : option Info)
| TooMany (headers : Headers) (error : Refusal).

(** [Math.ceil(a / b)] for [b > 0] *)
Definition ceil_div (a b : Z) : Z := - ((- a) / b).

(** [!userId] *)
Definition no_user (userId : option string) : bool :=
  match userId with
  | Some (String _ _) => false
  | _ => true
  end.

(** [userRateLimiter(req, res, next)]; [now] is [new Date()].  The handler
    that [next()] starts is not part of it. *)
Definition userRateLimiter (now : Z) (userId : option string)
  : M Db Outcome :=
  try_catch
    (match userId with
     | Some (String _ _ as userId) =>
         found <- findById now userId ;;
         match found with
         | None => ret (Next None None)
         | Some user =>
             let resetAt := date_or dailyResetAt now (usage user) in
             let dailyLimit := number_or dailyLimit DAILY_LIMIT (usage user) in
             if now - resetAt >=? TWENTY_FOUR_HOURS then
               let u := spread (usage user) in
               let usage' :=
                 mkUsage (Some (number_or totalQueries 0 (usage user) + 1))
                         (Some now) (totalSavedChats u) (Some 1)
                         (RateLimiter.dailyLimit u) (Some now)
                         (dailyTokens u) in
               save userId (mkUser (email user) (Some usage')) ;;
               ret (Next (Some (mkHeaders dailyLimit (dailyLimit - 1)
                                          (now + TWENTY_FOUR_HOURS)))
                         None)
             else
               let currentQueries := number_or dailyQueries 0 (usage user) in
               if currentQueries >=? dailyLimit then
                 let resetTime := resetAt + TWENTY_FOUR_HOURS in
                 let waitMinutes := ceil_div (resetTime - now) (60 * 1000) in
                 ret (TooMany
                        (mkHeaders dailyLimit 0 resetTime)
                        (mkRefusal
                           ("Daily query limit ("
                              ++ PythonBridge.decimal dailyLimit
                              ++ ") exceeded. Please try again in "
                              ++ PythonBridge.decimal waitMinutes
                              ++ " minutes.")%string
                           "DAILY_LIMIT_EXCEEDED" 429 (waitMinutes * 60)
                           dailyLimit 0 resetTime))
               else
                 let u := spread (usage user) in
                 let usage' :=
                   mkUsage (Some (number_or totalQueries 0 (usage user) + 1))
                           (Some now) (totalSavedChats u)
                           (Some (currentQueries + 1))
                           (RateLimiter.dailyLimit u) (dailyResetAt u)
                           (dailyTokens u) in
                 save userId (mkUser (email user) (Some usage')) ;;
                 ret (Next (Some (mkHeaders dailyLimit
                                            (dailyLimit - currentQueries - 1)
                                            (resetAt + TWENTY_FOUR_HOURS)))
                           (Some (mkInfo dailyLimit
                                         (dailyLimit - currentQueries - 1)
                                         (currentQueries + 1))))
         end
     | _ => ret (Next None None)
     end)
    (fun error => ret (Next None None)).

(** What [getRateLimitStatus] answers. *)
Record Status := mkStatus {
  s_limit : Z;
  s_used : Z;
  s_remaining : Z;
  s_resetAt : Z
}.

(** [getRateLimitStatus(userId)] *)
Definition getRateLimitStatus (now : Z) (userId : string)
  : M Db (option Status) :=
  try_catch
    (found <- findById now userId ;;
     match found with
     | None => ret None
     | Some user =>
         let resetAt := date_or dailyResetAt now (usage user) in
         let dailyLimit := number_or dailyLimit DAILY_LIMIT (usage user) in
         if now - resetAt >=? TWENTY_FOUR_HOURS then
           ret (Some (mkStatus dailyLimit 0 dailyLimit
                               (now + TWENTY_FOUR_HOURS)))
         else
           let currentQueries := number_or dailyQueries 0 (usage user) in
           ret (Some (mkStatus dailyLimit currentQueries
                               (Z.max 0 (dailyLimit - currentQueries))
                               (resetAt + TWENTY_FOUR_HOURS)))
     end)
    (fun error => ret None).

Definition passed (o : Outcome) : bool :=
  match o with Next _ _ => true | TooMany _ _ => false end.

(** The user stored under the identifier, in a database that answers. *)
Definition stored (userId : string) (user : User) (db : Db) : Prop :=
  find_error db = None /\ save_error db = None
  /\ JsMap.get userId (users db) = Some user.

(** The numbers the middleware reads from the user. *)
Definition limit_of (user : User) : Z :=
  number_or dailyLimit DAILY_LIMIT (usage user).
Definition used_of (user : User) : Z :=
  number_or dailyQueries 0 (usage user).
Definition total_of (user : User) : Z :=
  number_or totalQueries 0 (usage user).
Definition reset_of (now : Z) (user : User) : Z :=
  date_or dailyResetAt now (usage user).

(** When the day of the user started, if the user has such a date. *)
Definition day_of (user : User) : option Z :=
  match usage user with
  | Some u => dailyResetAt u
  | None => None
  end.

(** A user half way through the day. *)
Definition alice : User :=
  mkUser "alice@example.org"
         (Some (mkUsage (Some 120) (Some 1000) (Some 2) (Some 48) (Some 50)
                        (Some 1000) (Some 0))).

Definition db_alice : Db := mkDb [("u1"%string, alice)] None None.

End RateLimiter.

(* ===================================================================== *)
(** * Properties                                                          *)
(* ===================================================================== *)

(** ** The hash is the MD5 of the library *)

Example md5_empty : Md5.md5_hex "" = "d41d8cd98f00b204e9800998ecf8427e".
Proof. vm_compute. reflexivity. Qed.

Example md5_abc : Md5.md5_hex "abc" = "900150983cd24fb0d6963f7d28e17f72".
Proof. vm_compute. reflexivity. Qed.

Example md5_utf8 :
  Md5.md5_hex ("caf" ++ String (Js.chr 233) "")
  = "07117fe4a1ebd544965dc19573183da2".
Proof. vm_compute. reflexivity. Qed.

Example md5_two_blocks :
  Md5.md5_hex
    "aaaaaaaaaaaaaaaaaaaaaaaaaaaaaaaaaaaaaaaaaaaaaaaaaaaaaaaaaaaaaaaaaaaaaa"
  = "0f5c6c4e740bfcc08c3c26ccb2673d46".
Proof. vm_compute. reflexivity. Qed.

(** ** Cache keys *)

Module KeyProps.
Import CacheService.

Example normalize_example :
  normalize (String (Js.chr 9) ("  What ARE   the" ++ String (Js.chr 10)
                                " Admission  Requirements?  "))
  = "what are the admission requirements?".
Proof. vm_compute. reflexivity. Qed.

Example generateKey_example :
  generateKey "  What are the   admission requirements? "
  = "chat:44b37914987ef274f3b3b86973e93f7c".
Proof. vm_compute. reflexivity. Qed.

Lemma generateKey_prefix query :
  String.substring 0 5 (generateKey query) = "chat:".
Proof. reflexivity. Qed.

(** C6. Two queries that lower-casing, trimming and collapsing runs of
    white space to one space send to the same text have the same cache
    key.  The key is computed from the query alone: [generateKey] has no
    other argument and reads no state. *)
Theorem generateKey_deterministic (a b : string) :
  normalize a = normalize b -> generateKey a = generateKey b.
Proof.
  intros Hnorm. unfold generateKey. cbv zeta. now rewrite Hnorm.
Qed.

Lemma generateKey_deterministic_witness :
  generateKey "  Hello   WORLD " = generateKey "hello world".
Proof.
  apply (generateKey_deterministic "  Hello   WORLD " "hello world").
  vm_compute. reflexivity.
Defined.

End KeyProps.

(** ** The retry loop of the bridge *)

Module RetryProps.
Import Eff PythonBridge Spec.
Local Open Scope Z_scope.
Local Open Scope list_scope.

Lemma trimStart_all_space s : all_space s = true -> Js.trimStart s = "".
Proof.
  induction s as [|c r IH]; simpl; [reflexivity|].
  intros H. apply andb_prop in H as [Hc Hr]. rewrite Hc. auto.
Qed.

Lemma blank_all_space s : all_space s = true -> blank s = true.
Proof.
  intros H. unfold blank, Js.trim. now rewrite trimStart_all_space.
Qed.

Lemma refused_is_caught query :
  refused query -> not_a_query query = true \/ too_long query = true.
Proof.
  unfold not_a_query, too_long.
  destruct 1 as [v Hv| |s Hs|s Hs].
  - left. rewrite Hv. simpl. now rewrite orb_true_r.
  - left. reflexivity.
  - left. simpl. rewrite (blank_all_space s Hs). now rewrite orb_true_r.
  - right. simpl. apply Z.gtb_lt. lia.
Qed.

(** C5. A query that is not a string, is empty, holds white space only or
    is longer than 2000 characters makes [executeQuery] throw a
    [ValidationError] at once: it asks nothing of the bridge (no call of
    [_executePython], so nothing is pushed on the queue or sent to the
    worker, and no sleep), and the bridge object is left as it was. *)
Theorem validation_fails_fast worker elapsed query userId history b :
  refused query ->
  exists message,
    executeQuery worker elapsed query userId history b
    = ([], (b, inl (ValidationError message)))
    /\ forall w,
        perform_all (fst (executeQuery worker elapsed query userId history b)) w
        = (w, []).
Proof.
  intros H. unfold executeQuery.
  destruct (refused_is_caught query H) as [E|E].
  - rewrite E. eauto.
  - rewrite E. destruct (not_a_query query); eauto.
Qed.

Lemma validation_fails_fast_witness :
  exists message,
    executeQuery (fun _ => inr (mkData true None "never asked" [] None)) 7
                 (Js.Str (replicate 5000 "a")) "anonymous" []
                 (bridge (fst (new None None)))
    = ([], (bridge (fst (new None None)), inl (ValidationError message)))
    /\ forall w,
        perform_all
          (fst (executeQuery (fun _ => inr (mkData true None "never asked" [] None)) 7
                             (Js.Str (replicate 5000 "a")) "anonymous" []
                             (bridge (fst (new None None))))) w
        = (w, []).
Proof.
  apply validation_fails_fast.
  apply refused_long. apply Nat.ltb_lt. vm_compute. reflexivity.
Defined.

(** *** The loop when every attempt fails *)

Section AlwaysFailing.
Variable worker : Z -> exn + Data.
Variable failure : Z -> exn.
Hypothesis worker_fails : forall k, worker k = inl (failure k).
Variables (maxRetries : Z) (q u : string) (h : list Message).

Lemma retry_loop_failing n attempt lastError :
  Z.of_nat n = maxRetries + 1 - attempt ->
  retry_loop worker maxRetries q u h attempt lastError
  = (failing_attempts q u h maxRetries (attempt + 1) n,
     Exhausted (maxRetries + 1)
               (match n with O => lastError | S _ => Some (failure (maxRetries + 1)) end)).
Proof.
  revert attempt lastError.
  induction n as [|n IH]; intros attempt lastError Hn; simp retry_loop.
  - destruct (Z_le_gt_dec attempt maxRetries); [lia|]. simpl.
    replace attempt with (maxRetries + 1) by lia. reflexivity.
  - destruct (Z_le_gt_dec attempt maxRetries); [|lia]. simpl.
    rewrite worker_fails. simpl.
    rewrite (IH (attempt + 1) (Some (failure (attempt + 1)))) by lia.
    simpl. f_equal.
    + destruct (attempt + 1 <=? maxRetries); reflexivity.
    + f_equal. destruct n; [|reflexivity].
      f_equal. f_equal. lia.
Qed.

Lemma invocations_failing first n :
  invocations (failing_attempts q u h maxRetries first n) = n.
Proof.
  revert first. induction n as [|n IH]; intros first; [reflexivity|].
  unfold invocations in *. simpl.
  destruct (first <=? maxRetries); simpl; now rewrite IH.
Qed.

Lemma sleeps_failing first n :
  Z.of_nat n = maxRetries + 2 - first -> 1 <= first ->
  sleeps (failing_attempts q u h maxRetries first n)
  = map backoff (map Z.of_nat (seq (Z.to_nat first) (pred n))).
Proof.
  revert first. induction n as [|n IH]; intros first Hn Hf; [reflexivity|].
  simpl. destruct (Z.leb_spec first maxRetries) as [Hle|Hgt].
  - simpl. rewrite IH by lia.
    destruct n as [|n]; [lia|].
    replace (Z.to_nat (first + 1)) with (S (Z.to_nat first)) by lia.
    simpl. now rewrite Z2Nat.id by lia.
  - simpl. assert (n = 0)%nat as -> by lia. reflexivity.
Qed.

End AlwaysFailing.

Lemma accepted_passes q :
  accepted q -> not_a_query (Js.Str q) = false /\ too_long (Js.Str q) = false.
Proof.
  intros [Htrim Hlen]. unfold not_a_query, too_long, blank. simpl.
  destruct (String.eqb_spec (Js.trim q) "") as [E|_]; [contradiction|].
  destruct (String.eqb_spec q "") as [->|_]; [now elim Htrim|].
  split; [reflexivity|].
  destruct (Z.gtb_spec (Z.of_nat (String.length q)) 2000); [lia|reflexivity].
Qed.

(** C4, as the code has it.  When every call of [_executePython] for an
    accepted query fails, [executeQuery] makes [maxRetries + 1] calls (the
    first attempt and [maxRetries] retries), sleeps between two attempts
    for [min(1000 * 2^(k-1), 5000)] ms after the [k]-th failure, hence
    [maxRetries] times, and then throws a [PythonExecutionError] that
    carries the number of attempts and the last error. *)
Theorem retry_budget worker failure elapsed q u h b :
  (forall k, worker k = inl (failure k)) ->
  accepted q ->
  0 <= maxRetries b ->
  exists acts,
    executeQuery worker elapsed (Js.Str q) u h b
    = (acts,
       (_updateStats false elapsed b,
        inl (PythonExecutionError
               ("Python execution failed after " ++ decimal (maxRetries b + 1)
                ++ " attempts: " ++ message_of (failure (maxRetries b + 1)))%string)))
    /\ acts = failing_attempts q u h (maxRetries b) 1 (Z.to_nat (maxRetries b + 1))
    /\ invocations acts = Z.to_nat (maxRetries b + 1)
    /\ sleeps acts = map backoff (upto (maxRetries b)).
Proof.
  intros Hfail Hq Hmr.
  destruct (accepted_passes q Hq) as [Hv Hl].
  exists (failing_attempts q u h (maxRetries b) 1 (Z.to_nat (maxRetries b + 1))).
  split; [|split; [reflexivity|split]].
  - unfold executeQuery. rewrite Hv, Hl. simpl text_of.
    rewrite (retry_loop_failing worker failure Hfail (maxRetries b) q u h
               (Z.to_nat (maxRetries b + 1)) 0 None) by lia.
    simpl (0 + 1).
    destruct (Z.to_nat (maxRetries b + 1)) eqn:E; [lia|reflexivity].
  - apply invocations_failing.
  - rewrite sleeps_failing by lia. unfold upto.
    replace (pred (Z.to_nat (maxRetries b + 1))) with (Z.to_nat (maxRetries b)) by lia.
    reflexivity.
Qed.

Lemma retry_budget_witness :
  exists acts,
    executeQuery (fun _ => inl timed_out) 60000 (Js.Str "hello") "anonymous" []
                 default_bridge
    = (acts,
       (_updateStats false 60000 default_bridge,
        inl (PythonExecutionError
               "Python execution failed after 2 attempts: Python execution timeout")))
    /\ acts = [Invoke "hello" "anonymous" []; Sleep 1000;
               Invoke "hello" "anonymous" []]
    /\ invocations acts = 2%nat
    /\ sleeps acts = [1000].
Proof.
  apply (retry_budget (fun _ => inl timed_out) (fun _ => timed_out) 60000
                      "hello" "anonymous" [] default_bridge).
  - reflexivity.
  - split; [discriminate | apply Nat.leb_le; reflexivity].
  - vm_compute. discriminate.
Defined.

(** C4 as stated fails: with the default [maxRetries] of 1 and a worker
    that times out every time, the worker is invoked twice. *)
Lemma retry_budget_counterexample :
  maxRetries default_bridge = 1
  /\ invocations (fst (executeQuery (fun _ => inl timed_out) 60000
                                    (Js.Str "hello") "anonymous" []
                                    default_bridge)) = 2%nat
  /\ invocations (fst (executeQuery (fun _ => inl timed_out) 60000
                                    (Js.Str "hello") "anonymous" []
                                    default_bridge))
     <> Z.to_nat (maxRetries default_bridge).
Proof.
  split; [reflexivity|]. split; [reflexivity|].
  vm_compute. discriminate.
Qed.

(** Whatever the worker does, a call never invokes it more than
    [maxRetries + 1] times: the loop ends. *)
Lemma invocations_bounded worker maxRetries q u h attempt lastError :
  (invocations (fst (retry_loop worker maxRetries q u h attempt lastError))
   <= Z.to_nat (maxRetries + 1 - attempt))%nat.
Proof.
  funelim (retry_loop worker maxRetries q u h attempt lastError);
    try (unfold invocations; simpl; lia).
  destruct (retry_loop worker maxRetries q u h (attempt + 1) (Some error))
    as [rest ex] eqn:E.
  unfold invocations in *. simpl in *.
  destruct (attempt + 1 <=? maxRetries); simpl; lia.
Qed.

End RetryProps.

(** ** The worker process: one request at a time, in arrival order *)

Module BridgeProps.
Import Eff PythonBridge Trace Spec Scenario.
Local Open Scope list_scope.

(** *** Traces *)

Lemma settled_app r t1 t2 : settled r (t1 ++ t2) = settled r t1 || settled r t2.
Proof. apply existsb_app. Qed.

Lemma sent_app t1 t2 : sent (t1 ++ t2) = sent t1 ++ sent t2.
Proof. apply flat_map_app. Qed.

Lemma arrived_app t1 t2 : arrived (t1 ++ t2) = arrived t1 ++ arrived t2.
Proof. apply flat_map_app. Qed.

Lemma taken_app t1 t2 : taken (t1 ++ t2) = taken t1 ++ taken t2.
Proof. apply flat_map_app. Qed.

Lemma in_in_flight r tr :
  In r (in_flight tr) <-> In r (sent tr) /\ settled (rid r) tr = false.
Proof.
  unfold in_flight. rewrite filter_In.
  now rewrite negb_true_iff.
Qed.

Lemma in_flight_nil tr :
  (forall r, In r (sent tr) -> settled (rid r) tr = true) -> in_flight tr = [].
Proof.
  intros H. destruct (in_flight tr) as [|r l] eqn:E; [reflexivity|].
  assert (In r (in_flight tr)) as Hin by (rewrite E; now left).
  apply in_in_flight in Hin as [Hs Hu]. rewrite (H r Hs) in Hu. discriminate.
Qed.

(** *** What [_processQueue] can do *)

Lemma processQueue_on_processed q :
  forall w, processed q w (fst (processQueue_on q w)) (snd (processQueue_on q w)).
Proof.
  induction q as [|r rest IH]; intros w; simpl.
  - destruct (negb (isReady (bridge w)) || isProcessing (bridge w));
      now constructor.
  - destruct (negb (isReady (bridge w)) || isProcessing (bridge w)) eqn:G;
      [now constructor|].
    apply orb_false_elim in G as [Hready Hproc].
    destruct (shell (bridge w)) as [p|] eqn:Hshell.
    + simpl. eapply processed_send; eauto.
    + set (w2 := on_bridge _ (on_bridge _ w)).
      specialize (IH w2).
      destruct (processQueue_on rest w2) as [w3 effs] eqn:E. simpl in *.
      inversion IH as [Hw|p r' rest' Hp Hq Hb|Hp Hb]; subst.
      * (* the rest of the queue was left alone: it is empty *)
        destruct rest as [|r2 rest2].
        -- apply (processed_reject [r] w w2); [exact Hproc|].
           destruct w as [[]]; reflexivity.
        -- simpl in E. rewrite Hready, Hshell in E. simpl in E.
           destruct (processQueue_on rest2 _) in E. discriminate.
      * exfalso. simpl in E. rewrite Hready, Hshell in E. simpl in E.
        destruct (processQueue_on rest' _) in E. discriminate.
      * apply (processed_reject (r :: rest) w w3); [exact Hproc|].
        rewrite Hb. destruct w as [[]]; reflexivity.
Qed.


(** *** The invariant *)

Lemma sent_nil_no_send effs l p r l' :
  sent effs = [] -> effs <> l ++ Send p r :: l'.
Proof.
  intros Hs ->. rewrite sent_app in Hs. simpl in Hs.
  now destruct (sent l).
Qed.

(** A step that writes nothing to a worker. *)
Lemma consistent_quiet b tr b' effs :
  consistent b tr ->
  sent effs = [] ->
  taken effs ++ map rid (requestQueue b')
    = map rid (requestQueue b) ++ arrived effs ->
  (isProcessing b' = false -> currentRequest b' = None) ->
  (forall r, currentRequest b = Some r ->
             currentRequest b' = Some r \/ settled (rid r) effs = true) ->
  consistent b' (tr ++ effs).
Proof.
  intros [I1 I2 I3 I4] Hsent Hq Hidle Hcur. split.
  - exact Hidle.
  - intros r Hr. apply in_in_flight in Hr as [Hs Hu].
    rewrite sent_app, Hsent, app_nil_r in Hs.
    rewrite settled_app in Hu. apply orb_false_elim in Hu as [Hu1 Hu2].
    destruct (Hcur r) as [H|H]; [|exact H|congruence].
    apply I2, in_in_flight. now split.
  - rewrite arrived_app, taken_app, I3, <- !app_assoc. f_equal.
    now rewrite Hq.
  - intros before p r after Heq.
    apply app_eq_app in Heq as [l [[Htr Hafter]|[Hbefore Heffs]]].
    + destruct l as [|x l].
      * rewrite app_nil_r in Htr. simpl in Hafter.
        exfalso. eapply (sent_nil_no_send effs []); eauto.
      * simpl in Hafter. injection Hafter as <- _.
        eapply I4. exact Htr.
    + exfalso. eapply sent_nil_no_send; eauto.
Qed.

Lemma sent_rejects q :
  sent (map (fun r => Reject (rid r) send_failure BySend) q) = [].
Proof. induction q; auto. Qed.

Lemma arrived_rejects q :
  arrived (map (fun r => Reject (rid r) send_failure BySend) q) = [].
Proof. induction q; auto. Qed.

Lemma taken_rejects q :
  taken (map (fun r => Reject (rid r) send_failure BySend) q) = map rid q.
Proof. induction q; simpl; congruence. Qed.

(** A call of [_processQueue]. *)
Lemma consistent_processed w w' tr effs :
  consistent (bridge w) tr ->
  processed (requestQueue (bridge w)) w w' effs ->
  consistent (bridge w') (tr ++ effs).
Proof.
  intros Inv H. pose proof Inv as [I1 I2 I3 I4].
  destruct H as [->|p r rest Hidle Hq Hb|Hidle Hb].
  - now rewrite app_nil_r.
  - pose proof (I1 Hidle) as Hnone.
    assert (in_flight tr = []) as Hfree.
    { destruct (in_flight tr) as [|r0 l] eqn:E; [reflexivity|].
      rewrite (I2 r0) in Hnone; [discriminate|]. now left. }
    rewrite Hb. split; simpl.
    + discriminate.
    + intros r0 Hr0. apply in_in_flight in Hr0 as [Hs Hu].
      rewrite sent_app in Hs. rewrite settled_app in Hu.
      apply orb_false_elim in Hu as [Hu _].
      apply in_app_or in Hs as [Hs|[<-|[]]]; [|reflexivity].
      assert (In r0 (in_flight tr)) as Hin by (apply in_in_flight; now split).
      rewrite Hfree in Hin. destruct Hin.
    + rewrite arrived_app, taken_app, I3, Hq. simpl.
      now rewrite app_nil_r, <- app_assoc.
    + intros before p' r' after Heq.
      apply app_eq_app in Heq as [l [[Htr Hafter]|[Hbefore Heffs]]].
      * destruct l as [|x l].
        -- rewrite app_nil_r in Htr. now subst before.
        -- simpl in Hafter. injection Hafter as <- _.
           eapply I4. exact Htr.
      * destruct l as [|x l]; simpl in Heffs.
        -- rewrite app_nil_r in Hbefore. now subst before.
        -- injection Heffs as _ Heffs. now destruct l.
  - apply (consistent_quiet (bridge w)); auto.
    + apply sent_rejects.
    + rewrite Hb, taken_rejects, arrived_rejects. simpl.
      now rewrite !app_nil_r.
    + rewrite Hb. reflexivity.
    + intros r Hr. rewrite (I1 Hidle) in Hr. discriminate.
Qed.

Lemma consistent_processQueue w tr :
  consistent (bridge w) tr ->
  consistent (bridge (fst (_processQueue w))) (tr ++ snd (_processQueue w)).
Proof.
  intros Inv. apply (consistent_processed w); [exact Inv|].
  apply processQueue_on_processed.
Qed.

(** A change of the world around the bridge object does not matter. *)
Lemma consistent_same_bridge w w' tr :
  bridge w' = bridge w -> consistent (bridge w) tr -> consistent (bridge w') tr.
Proof. now intros ->. Qed.

Lemma bridge_mark_killed p w : bridge (mark_killed p w) = bridge w.
Proof. unfold mark_killed. now destruct (status p w) as [[]|]. Qed.

Ltac quiet b :=
  apply (consistent_quiet b); simpl; auto;
  try (rewrite ?app_nil_r; reflexivity); try discriminate;
  try (eapply idle_no_current; eassumption);
  try (intros ? ?; now left).

Lemma consistent_initShell w tr :
  consistent (bridge w) tr ->
  consistent (bridge (fst (_initShell w))) (tr ++ snd (_initShell w)).
Proof.
  intros Inv. pose proof Inv as [I1 I2 I3 I4]. unfold _initShell.
  destruct (shell (bridge w)) as [old|]; simpl;
    rewrite ?bridge_mark_killed; quiet (bridge w).
Qed.

Lemma consistent_handleProcessDeath w tr :
  consistent (bridge w) tr ->
  consistent (bridge (fst (_handleProcessDeath w)))
             (tr ++ snd (_handleProcessDeath w)).
Proof.
  intros Inv. unfold _handleProcessDeath. simpl.
  destruct (currentRequest (bridge w)) as [c|] eqn:Hc; simpl.
  - quiet (bridge w);
      intros r Hr; right; rewrite Hc in Hr; injection Hr as <-;
      now rewrite Nat.eqb_refl.
  - quiet (bridge w); intros r Hr; rewrite Hc in Hr; discriminate.
Qed.

Lemma consistent_on_message p line w tr :
  line <> JsonNull ->
  consistent (bridge w) tr ->
  consistent (bridge (fst (on_message p line w)))
             (tr ++ snd (on_message p line w)).
Proof.
  intros Hline Inv. pose proof Inv as [I1 I2 I3 I4].
  destruct line as [| |data]; simpl.
  - now rewrite app_nil_r.
  - congruence.
  - destruct (negb (isReady (bridge w)) && is_ready_message data).
    + apply consistent_processQueue. simpl.
      rewrite <- (app_nil_r tr). quiet (bridge w).
    + destruct (currentRequest (bridge w)) as [c|] eqn:Hc; simpl.
      * destruct (success data); quiet (bridge w);
          intros r Hr; right; rewrite Hc in Hr; injection Hr as <-;
          now rewrite Nat.eqb_refl.
      * now rewrite app_nil_r.
Qed.

Lemma consistent_on_timeout r w tr :
  consistent (bridge w) tr ->
  consistent (bridge (fst (on_timeout r w))) (tr ++ snd (on_timeout r w)).
Proof.
  intros Inv. pose proof Inv as [I1 I2 I3 I4]. unfold on_timeout.
  destruct (currentRequest (bridge w)) as [c|] eqn:Hc;
    [|now rewrite app_nil_r].
  destruct (Nat.eqb (rid c) r) eqn:E; [|now rewrite app_nil_r].
  pose proof (consistent_handleProcessDeath w (tr ++ [Reject r timed_out ByTimeout]))
    as H.
  destruct (_handleProcessDeath w) as [w1 effs]. simpl in *.
  rewrite <- app_assoc in H. apply H. quiet (bridge w).
Qed.

Lemma consistent_executePython q u h w tr :
  consistent (bridge w) tr ->
  consistent (bridge (fst (_executePython q u h w)))
             (tr ++ snd (_executePython q u h w)).
Proof.
  intros Inv. pose proof Inv as [I1 I2 I3 I4]. unfold _executePython.
  set (request := mkRequest (nextRid w) q u h).
  set (w1 := with_nextRid _ _).
  pose proof (consistent_processQueue w1 (tr ++ [Push request])) as H.
  destruct (_processQueue w1) as [w2 effs]. simpl in *.
  rewrite <- app_assoc in H. apply H.
  quiet (bridge w). now rewrite map_app.
Qed.

Lemma consistent_step w ev tr :
  null_line ev = false ->
  consistent (bridge w) tr ->
  consistent (bridge (fst (step w ev))) (tr ++ snd (step w ev)).
Proof.
  intros Hev Inv. unfold step.
  destruct (enabled w ev); [|now rewrite app_nil_r].
  destruct ev; simpl.
  - now apply consistent_executePython.
  - apply consistent_on_message; [|assumption].
    intros ->. discriminate.
  - now rewrite app_nil_r.
  - now apply consistent_handleProcessDeath.
  - now apply consistent_handleProcessDeath.
  - now apply consistent_on_timeout.
  - now apply consistent_initShell.
  - now apply consistent_processQueue.
Qed.

Lemma consistent_run evs : forall w tr,
  no_null_line evs = true ->
  consistent (bridge w) tr ->
  consistent (bridge (fst (run w evs))) (tr ++ snd (run w evs)).
Proof.
  induction evs as [|ev rest IH]; intros w tr Hevs Inv; simpl.
  - now rewrite app_nil_r.
  - simpl in Hevs. apply andb_prop in Hevs as [Hev Hrest].
    apply negb_true_iff in Hev.
    pose proof (consistent_step w ev tr Hev Inv) as H1.
    destruct (step w ev) as [w1 e1]. simpl in H1.
    pose proof (IH w1 (tr ++ e1) Hrest H1) as H2.
    destruct (run w1 rest) as [w2 e2]. simpl in *.
    now rewrite app_assoc.
Qed.

Lemma consistent_new timeout0 maxRetries0 :
  consistent (bridge (fst (new timeout0 maxRetries0)))
             (snd (new timeout0 maxRetries0)).
Proof.
  split; simpl; auto.
  - intros r [].
  - intros [|x before] p r after H; [discriminate|].
    injection H as _ H. now destruct before.
Qed.

Lemma consistent_history timeout0 maxRetries0 evs :
  no_null_line evs = true ->
  consistent (bridge (fst (history timeout0 maxRetries0 evs)))
             (snd (history timeout0 maxRetries0 evs)).
Proof.
  intros Hevs. unfold history.
  pose proof (consistent_new timeout0 maxRetries0) as H0.
  destruct (new timeout0 maxRetries0) as [w0 e0].
  pose proof (consistent_run evs w0 e0 Hevs H0) as H.
  now destruct (run w0 evs) as [w e].
Qed.

(** C1, on the code.  Two histories in which a request is written to a
    worker that has not answered the request written to it before.
    (1) The worker is sent A and prints the line [null].  The listener
    takes A out of [currentRequest] and clears [isProcessing] before
    [data.success] throws: A is neither resolved nor rejected.  B arrives
    and is written to the same process at once, A being in flight; when
    the timer of A fires, B is the current request and the timer does
    nothing, so the promise of A is never settled.
    (2) After the time-out of A the first process is still running beside
    the second.  B is written to the second process and C waits.  The
    first process prints its answer to A: its listener resolves B, and C
    is written to the second process, which has not answered B. *)
Theorem request_sent_to_busy_worker :
  (deliverable (fst (new None None)) null_answer = true
   /\ snd (history None None null_answer)
      = [Spawn 0; Push request_A; Send 0 request_A;
         Push request_B; Send 0 request_B]
   /\ in_flight [Spawn 0; Push request_A; Send 0 request_A; Push request_B]
      = [request_A]
   /\ settled (rid request_A) (snd (history None None null_answer)) = false
   /\ currentRequest (bridge (fst (history None None null_answer)))
      = Some request_B
   /\ requestQueue (bridge (fst (history None None null_answer))) = [])
  /\ (deliverable (fst (new None None)) overlap = true
      /\ snd (history None None overlap)
         = [Spawn 0; Push request_A; Send 0 request_A;
            Reject 0 timed_out ByTimeout; Reject 0 crashed ByDeath; Spawn 1;
            Push request_B; Send 1 request_B; Push request_C;
            Resolve (rid request_B) answer_A (ByLine 0);
            Send 1 request_C]
      /\ sent_to (rid request_B) (snd (history None None overlap)) = [1%nat]
      /\ sent_to (rid request_C) (snd (history None None overlap)) = [1%nat]).
Proof. vm_compute. repeat split. Qed.

Example two_callers_history :
  snd (history None None two_callers)
  = [Spawn 0; Push request_A; Send 0 request_A; Push request_B;
     Resolve 0 answer_A (ByLine 0); Send 0 request_B;
     Resolve 1 answer_B (ByLine 0)].
Proof. vm_compute. reflexivity. Qed.

(** *** Time-outs and replaced processes *)

(** [_handleProcessDeath] drops the shell without killing it, and
    [_initShell] kills only a shell the bridge still holds. *)
Lemma handleProcessDeath_no_kill w :
  kills (snd (_handleProcessDeath w)) = []
  /\ shell (bridge (fst (_handleProcessDeath w))) = None
  /\ procs (fst (_handleProcessDeath w)) = procs w.
Proof.
  unfold _handleProcessDeath. simpl.
  now destruct (currentRequest (bridge w)).
Qed.

Lemma timeout_step_no_kill w r :
  kills (snd (step w (RequestTimeout r))) = [].
Proof.
  unfold step. destruct (enabled w (RequestTimeout r)); [|reflexivity].
  unfold handle, on_timeout, _handleProcessDeath. simpl.
  destruct (currentRequest (bridge w)) as [c|]; [|reflexivity].
  now destruct (Nat.eqb (rid c) r).
Qed.

Lemma initShell_without_shell w :
  shell (bridge w) = None ->
  snd (_initShell w) = [Spawn (List.length (procs w))].
Proof. unfold _initShell. now intros ->. Qed.

(** C3, on the code.  A request is in flight when its time-out fires, and
    the restart timer fires after it.  The request is rejected with the
    time-out error and a second process is created, but the first process
    is never killed: the bridge forgot it before [_initShell] could kill
    it, and it is still running, with its listeners, beside the new one. *)
Theorem timeout_leaves_old_process_running :
  deliverable (fst (new None None)) hang = true
  /\ snd (history None None hang)
     = [Spawn 0; Push request_A; Send 0 request_A;
        Reject 0 timed_out ByTimeout; Reject 0 crashed ByDeath; Spawn 1]
  /\ kills (snd (history None None hang)) = []
  /\ procs (fst (history None None hang)) = [Running; Running]
  /\ shell (bridge (fst (history None None hang))) = Some 1%nat.
Proof. vm_compute. repeat split. Qed.

(** C10, on the code.  After the time-out of A the bridge runs a second
    process and has written B to it.  The first process then prints its
    answer to A: its listener resolves B, the request in flight to the
    second process, with that answer. *)
Theorem stale_line_settles_current_request :
  deliverable (fst (new None None)) late_answer = true
  /\ snd (history None None late_answer)
     = [Spawn 0; Push request_A; Send 0 request_A;
        Reject 0 timed_out ByTimeout; Reject 0 crashed ByDeath; Spawn 1;
        Push request_B; Send 1 request_B;
        Resolve (rid request_B) answer_A (ByLine 0)]
  /\ sent_to (rid request_B) (snd (history None None late_answer)) = [1%nat]
  /\ shell (bridge (fst (history None None late_answer))) = Some 1%nat.
Proof. vm_compute. repeat split. Qed.

End BridgeProps.

(** ** The cache *)

Module CacheProps.
Import Eff CacheService CacheScenario.
Local Open Scope Z_scope.

Section WithJson.
Context {value : Type} {json : Json value}.

(** C8. [get] and [set] never throw: they return a value whatever the
    state of the cache, of Redis and of the value.  When a statement
    inside their [try] throws (Redis rejects the command, the stored
    string does not parse, the value does not serialize), [get] counts
    an error and returns [null], [set] counts an error and returns
    [false]. *)
Theorem cache_never_throws env key (v : value) customTtl (c : t value) :
  returns (get env key) c
  /\ returns (set env key v customTtl) c
  /\ (forall c1 e,
         enabled c = true ->
         get_body env key c = (c1, inl e) ->
         get env key c = (set_stats failed c1, inr None))
  /\ (forall c1 e,
         enabled c = true ->
         set_body env key v (effective_ttl customTtl c) c = (c1, inl e) ->
         set env key v customTtl c = (set_stats failed c1, inr false)).
Proof.
  unfold returns, get, set, try_catch, bind, modify, ret.
  repeat split.
  - destruct (enabled c); simpl; [|eauto].
    destruct (get_body env key c) as [c1 [e|r]]; simpl; eauto.
  - destruct (enabled c); simpl; [|eauto].
    destruct (set_body env key v (effective_ttl customTtl c) c)
      as [c1 [e|r]]; simpl; eauto.
  - intros c1 e -> ->. reflexivity.
  - intros c1 e -> ->. reflexivity.
Qed.

  (** C7, as the code has it.  A [set] that succeeds wrote the entry to
    one store.  With a Redis client it wrote the serialized value to
    Redis, with the expiry, and left the in-memory store as it was.
    Without one it wrote the value to the in-memory store, after
    removing that store's first (oldest) entry when the store held
    [memoryCacheMaxSize] entries or more. *)
Theorem set_writes_one_store env key (v : value) customTtl (c c' : t value) :
  set env key v customTtl c = (c', inr true) ->
  exists serialized,
    stringify v = Some serialized
    /\ match redisClient c with
       | Some r =>
           redisClient c'
           = Some (JsMap.set key
                     (serialized,
                      now env + effective_ttl customTtl c * 1000) r)
           /\ memoryCache c' = memoryCache c
       | None =>
           redisClient c' = None
           /\ memoryCache c'
              = fallback_after env key v (effective_ttl customTtl c) c
       end.
Proof.
  unfold set, try_catch, set_body, fallback_after, bind, of_option, gets,
    modify, ret, throw, redis_setex.
  destruct (enabled c); simpl; [|discriminate].
  destruct (stringify v) as [serialized|]; simpl; [|discriminate].
  intros H. exists serialized. split; [reflexivity|].
  destruct (redisClient c) as [r|] eqn:Hr; simpl in H.
  - destruct (redisDown env); simpl in H; [discriminate|].
    destruct (effective_ttl customTtl c <=? 0); simpl in H; [discriminate|].
    injection H as <-. simpl. auto.
  - destruct (JsMap.size (memoryCache c) >=? memoryCacheMaxSize c).
    + destruct (memoryCache c) as [|[k0 e0] rest] eqn:Hm; simpl in H.
      * injection H as <-. simpl. rewrite Hr, Hm. auto.
      * rewrite String.eqb_refl in H. simpl in H.
        injection H as <-. simpl. rewrite Hr. auto.
    + simpl in H. injection H as <-. simpl. rewrite Hr. auto.
Qed.

End WithJson.

Lemma cache_never_throws_witness :
  get down "chat:k" with_redis = (set_stats failed with_redis, inr None)
  /\ set up "chat:k" Cyclic None memory_only
     = (set_stats failed memory_only, inr false).
Proof.
  split.
  - apply (proj1 (proj2 (proj2
             (cache_never_throws down "chat:k" Cyclic None with_redis)))
             with_redis (RedisError "Connection is closed.")); reflexivity.
  - apply (proj2 (proj2 (proj2
             (cache_never_throws up "chat:k" Cyclic None memory_only)))
             memory_only
             (TypeError "Converting circular structure to JSON"));
      reflexivity.
Defined.

Example get_survives_bad_json :
  get up "chat:k"
      (set_redisClient (Some [("chat:k", ("{", 5000))]) with_redis)
  = (set_stats failed (set_stats hit
       (set_redisClient (Some [("chat:k", ("{", 5000))]) with_redis)),
     inr None).
Proof. reflexivity. Qed.

Lemma set_writes_one_store_witness :
  exists serialized,
    stringify (Text "an answer") = Some serialized
    /\ redisClient (fst (set up "chat:k" (Text "an answer") (Some 60) memory_only))
       = None
    /\ memoryCache (fst (set up "chat:k" (Text "an answer") (Some 60) memory_only))
       = [("chat:k", mkEntry (Text "an answer") 61000)].
Proof.
  apply (set_writes_one_store up "chat:k" (Text "an answer") (Some 60)
           memory_only
           (fst (set up "chat:k" (Text "an answer") (Some 60) memory_only))).
  reflexivity.
Defined.

(** C7 as stated fails: with a Redis client, a [set] that succeeds writes
    to Redis and does not write to the in-process store. *)
Lemma set_dual_write_counterexample :
  enabled with_redis = true
  /\ snd (set up "chat:k" (Text "an answer") None with_redis) = inr true
  /\ redisClient (fst (set up "chat:k" (Text "an answer") None with_redis))
     = Some [("chat:k", ("an answer", 3601000))]
  /\ JsMap.has "chat:k"
       (memoryCache (fst (set up "chat:k" (Text "an answer") None with_redis)))
     = false.
Proof. repeat split. Qed.

(** The oldest entry goes when the in-memory store is full. *)
Example set_evicts_oldest :
  let after := memoryCache (fst (set up "chat:k" (Text "new") None full)) in
  JsMap.first_key (memoryCache full) = Some "0"
  /\ JsMap.has "0" after = false
  /\ JsMap.first_key after = Some "1"
  /\ JsMap.get "chat:k" after = Some (mkEntry (Text "new") 3601000)
  /\ JsMap.size after = 100.
Proof. vm_compute. repeat split. Qed.

Lemma length_set_le {V} k (v : V) m :
  (List.length (JsMap.set k v m) <= S (List.length m))%nat.
Proof.
  induction m as [|[k' v'] r IH]; simpl; [lia|].
  destruct (String.eqb k k'); simpl; lia.
Qed.

(** The in-memory store never grows beyond its capacity. *)
Lemma fallback_stays_bounded {value} env key (v : value) ttl (c : t value) :
  1 <= memoryCacheMaxSize c ->
  JsMap.size (memoryCache c) <= memoryCacheMaxSize c ->
  JsMap.size (fallback_after env key v ttl c) <= memoryCacheMaxSize c.
Proof.
  unfold fallback_after, JsMap.size. intros Hmax Hsize.
  match goal with |- context [JsMap.set ?k ?e ?m] =>
    pose proof (length_set_le k e m) as Hle end.
  destruct (Z.geb_spec (Z.of_nat (List.length (memoryCache c)))
                       (memoryCacheMaxSize c)) as [Hfull|Hroom].
  - destruct (memoryCache c) as [|x rest]; simpl in *; lia.
  - lia.
Qed.

End CacheProps.

(** ** Jobs *)

Module QueueProps.
Import Eff QueueService QueueScenario.
Local Open Scope Z_scope.
Local Open Scope list_scope.

(** A job that carries earlier turns does not read the cache. *)
Lemma contextual_job_never_reads {json : Json Cached} env job s :
  conversationHistory (MockQueue.data job) <> [] ->
  cache_reads (log s) = [] ->
  cache_reads (log (fst (_processJob env job s))) = [].
Proof.
  intros Hctx Hlog.
  unfold _processJob, try_catch, processJob_body, bind, tell, modify, ret,
    throw, generateKey, executeQuery, on_cache.
  destruct (conversationHistory (MockQueue.data job)) as [|m h] eqn:Hh;
    [contradiction|].
  simpl.
  assert (forall l, cache_reads (l ++ [Progress 20]) = cache_reads l) as P20.
  { intros l. unfold cache_reads. rewrite flat_map_app. simpl.
    now rewrite app_nil_r. }
  destruct (query (MockQueue.data job)) as [| | | | |q|]; simpl;
    rewrite ?P20; auto.
  destruct (PythonBridge.executeQuery _ _ _ _ _ _) as [acts [b [e|a]]]; simpl.
  - unfold cache_reads in *. rewrite !flat_map_app, Hlog. simpl.
    induction acts; simpl; auto.
  - destruct (CacheService.set _ _ _ _ _) as [c [e|ok]]; simpl;
      unfold cache_reads in *; rewrite !flat_map_app, Hlog; simpl;
      induction acts; simpl; auto.
Qed.

(** C2, on the code.  A job with two earlier turns is processed on an
    empty cache: the cache is not read, but the answer, which depends on
    those turns, is stored under the key of the bare query.  The next
    job, from another caller and with no earlier turn, asks the same
    words and is served that answer from the cache, without the worker
    being asked. *)
Theorem contextual_job_writes_cache :
  let after := fst (_processJob (answers "on Friday")
                                (job_of "job-1" follow_up) services) in
  let next := _processJob (answers "next month")
                          (job_of "job-2" first_turn)
                          (mkServices (cacheService after) (pythonBridge after) []) in
  conversationHistory follow_up <> []
  /\ cache_reads (log after) = []
  /\ cache_writes (log after) = [key]
  /\ JsMap.get key (CacheService.memoryCache (cacheService after))
     = Some (CacheService.mkEntry (mkCached "on Friday" []) 3601000)
  /\ snd next = inr (mkJobResult "on Friday" [] true 1200 "bob" "session-2")
  /\ worker_calls (log (fst next)) = 0%nat.
Proof. vm_compute. repeat split; discriminate. Qed.

(** *** Submission to the in-memory queue *)

Lemma get_set_same {V} k (v : V) m : JsMap.get k (JsMap.set k v m) = Some v.
Proof.
  induction m as [|[k' v'] r IH]; simpl.
  - now rewrite String.eqb_refl.
  - destruct (String.eqb k k') eqn:E; simpl; rewrite ?E, ?String.eqb_refl; auto.
Qed.

Lemma set_set_same {V} k (v v' : V) m :
  JsMap.set k v' (JsMap.set k v m) = JsMap.set k v' m.
Proof.
  induction m as [|[k0 v0] r IH]; simpl.
  - now rewrite String.eqb_refl.
  - destruct (String.eqb k k0) eqn:E; simpl; rewrite ?E, ?String.eqb_refl;
      congruence.
Qed.

End QueueProps.

(** ** JavaScript maps *)

Module MapFacts.
Import CacheSpec.
Local Open Scope list_scope.

Lemma distinctb_sound l : distinctb l = true -> NoDup l.
Proof.
  induction l as [|k r IH]; simpl; intros H; constructor;
    apply andb_prop in H as [Hk Hr]; auto.
  intros Hin. apply negb_true_iff in Hk.
  assert (existsb (String.eqb k) r = true) as E; [|congruence].
  apply existsb_exists. exists k. split; [assumption|apply String.eqb_refl].
Qed.

Section WithValues.
Context {V : Type}.
Implicit Types (m : JsMap.t V) (k : string) (v : V).

Lemma get_set k v m : JsMap.get k (JsMap.set k v m) = Some v.
Proof.
  induction m as [|[k' v'] r IH]; simpl.
  - now rewrite String.eqb_refl.
  - destruct (String.eqb k k') eqn:E; simpl; rewrite ?E, ?String.eqb_refl; auto.
Qed.

Lemma get_set_other k k' v m :
  k' <> k -> JsMap.get k' (JsMap.set k v m) = JsMap.get k' m.
Proof.
  intros Hne. induction m as [|[k0 v0] r IH]; simpl.
  - destruct (String.eqb_spec k' k); congruence.
  - destruct (String.eqb_spec k k0) as [->|]; simpl.
    + destruct (String.eqb_spec k' k0); congruence.
    + destruct (String.eqb_spec k' k0); auto.
Qed.

Lemma get_none_not_in k m : JsMap.get k m = None <-> ~ In k (map fst m).
Proof.
  induction m as [|[k' v'] r IH]; simpl.
  - tauto.
  - destruct (String.eqb_spec k k') as [->|Hne].
    + split; [discriminate|]. intros H. elim H. now left.
    + rewrite IH. split.
      * intros H [E|E]; [congruence|tauto].
      * tauto.
Qed.

Lemma keys_delete_subset k k' m :
  In k' (map fst (JsMap.delete k m)) -> In k' (map fst m).
Proof.
  induction m as [|[k0 v0] r IH]; simpl; [tauto|].
  destruct (String.eqb k k0); simpl; tauto.
Qed.

Lemma distinct_delete k m : distinct_keys m -> distinct_keys (JsMap.delete k m).
Proof.
  unfold distinct_keys.
  induction m as [|[k0 v0] r IH]; simpl; intros H; [constructor|].
  inversion H as [|? ? Hnot Hr]; subst.
  destruct (String.eqb k k0); simpl; [assumption|].
  constructor; [|auto].
  intros Hin. apply Hnot. eapply keys_delete_subset; eauto.
Qed.

Lemma get_delete k m : distinct_keys m -> JsMap.get k (JsMap.delete k m) = None.
Proof.
  unfold distinct_keys.
  induction m as [|[k0 v0] r IH]; simpl; intros H; [reflexivity|].
  inversion H as [|? ? Hnot Hr]; subst.
  destruct (String.eqb_spec k k0) as [->|Hne]; simpl.
  - now apply get_none_not_in.
  - destruct (String.eqb_spec k k0); [congruence|auto].
Qed.

Lemma get_delete_other k k' m :
  k' <> k -> JsMap.get k' (JsMap.delete k m) = JsMap.get k' m.
Proof.
  intros Hne. induction m as [|[k0 v0] r IH]; simpl; [reflexivity|].
  destruct (String.eqb_spec k k0) as [->|]; simpl.
  - destruct (String.eqb_spec k' k0); congruence.
  - destruct (String.eqb_spec k' k0); auto.
Qed.

Lemma keys_set k v m k' :
  In k' (map fst (JsMap.set k v m)) <-> k' = k \/ In k' (map fst m).
Proof.
  induction m as [|[k0 v0] r IH]; simpl.
  - intuition.
  - destruct (String.eqb_spec k k0) as [->|Hne]; simpl.
    + intuition.
    + rewrite IH. intuition.
Qed.

Lemma distinct_set k v m : distinct_keys m -> distinct_keys (JsMap.set k v m).
Proof.
  unfold distinct_keys.
  induction m as [|[k0 v0] r IH]; simpl; intros H.
  - repeat constructor. tauto.
  - inversion H as [|? ? Hnot Hr]; subst.
    destruct (String.eqb_spec k k0) as [->|Hne]; simpl.
    + now constructor.
    + constructor; [|auto]. rewrite keys_set. intros [E|E]; [congruence|tauto].
Qed.

Lemma distinct_tl m : distinct_keys m -> distinct_keys (tl m).
Proof.
  unfold distinct_keys. destruct m as [|[k v] r]; simpl; auto.
  now inversion 1.
Qed.

Lemma length_set_bound k v m :
  (List.length (JsMap.set k v m) <= S (List.length m))%nat.
Proof.
  induction m as [|[k' v'] r IH]; simpl; [lia|].
  destruct (String.eqb k k'); simpl; lia.
Qed.

Lemma length_delete_le k m :
  (List.length (JsMap.delete k m) <= List.length m)%nat.
Proof.
  induction m as [|[k' v'] r IH]; simpl; [lia|].
  destruct (String.eqb k k'); simpl; lia.
Qed.

Lemma delete_absent k m : JsMap.get k m = None -> JsMap.delete k m = m.
Proof.
  induction m as [|[k' v'] r IH]; simpl; [reflexivity|].
  destruct (String.eqb k k'); [discriminate|].
  intros H. now rewrite IH.
Qed.

Lemma delete_set_absent k v m :
  JsMap.get k m = None -> JsMap.delete k (JsMap.set k v m) = m.
Proof.
  induction m as [|[k' v'] r IH]; simpl.
  - now rewrite String.eqb_refl.
  - destruct (String.eqb k k') eqn:E; [discriminate|].
    intros H. simpl. rewrite E. now rewrite IH.
Qed.

End WithValues.
End MapFacts.

(** ** The cache: round trips, expiry, capacity *)

Module CacheMoreProps.
Import Eff CacheService CacheOps CacheSpec MapFacts CacheScenario CacheStock.
Local Open Scope Z_scope.
Local Open Scope list_scope.

Ltac run_cache :=
  unfold set, get, CacheOps.delete, clear, getSize, set_body, get_body,
    redis_setex, redis_get, redis_del, redis_keys_chat;
  unfold try_catch, bind, of_option, gets, modify, ret, throw.

Section WithJson.
Context {value : Type} {json : Json value}.
Implicit Types (c : CacheService.t value) (v : value).

(** [set] on an enabled cache without Redis, for a value that serializes. *)
Lemma set_in_memory env key v customTtl c serialized :
  enabled c = true ->
  redisClient c = None ->
  stringify v = Some serialized ->
  set env key v customTtl c
  = (set_stats stored
       (set_memoryCache (fallback_after env key v (effective_ttl customTtl c) c) c),
     inr true).
Proof.
  destruct c as [ttl0 en rc mem max st]. simpl. intros -> -> Hs.
  run_cache. simpl. rewrite Hs. simpl. unfold fallback_after. simpl.
  destruct (JsMap.size mem >=? max); simpl; [|reflexivity].
  destruct mem as [|[k0 e0] rest]; simpl; [reflexivity|].
  now rewrite String.eqb_refl.
Qed.

(** X1. In-memory round trip: on an enabled cache without Redis, a value
    that serializes is stored by [set], and a [get] of the same key before
    the entry expires returns that very value, also when the store was
    full. *)
Theorem memory_round_trip env1 env2 key v customTtl c serialized :
  enabled c = true ->
  redisClient c = None ->
  stringify v = Some serialized ->
  now env2 < now env1 + effective_ttl customTtl c * 1000 ->
  exists c1 c2,
    set env1 key v customTtl c = (c1, inr true)
    /\ get env2 key c1 = (c2, inr (Some v)).
Proof.
  intros He Hr Hs Hnow.
  rewrite (set_in_memory env1 key v customTtl c serialized He Hr Hs).
  eexists. eexists. split; [reflexivity|].
  run_cache. simpl. rewrite He, Hr. simpl.
  unfold fallback_after. rewrite get_set. simpl.
  destruct (Z.gtb_spec (now env1 + effective_ttl customTtl c * 1000) (now env2));
    [reflexivity|lia].
Qed.

(** X2. Expiry: on an enabled cache without Redis, a [get] at or after the
    expiry time of the entry is a miss (counted as such) and removes the
    entry, so that the key is gone from the store. *)
Theorem expired_entry_is_purged env key c e :
  enabled c = true ->
  redisClient c = None ->
  distinct_keys (memoryCache c) ->
  JsMap.get key (memoryCache c) = Some e ->
  expiresAt e <= now env ->
  exists c',
    get env key c = (c', inr None)
    /\ memoryCache c' = JsMap.delete key (memoryCache c)
    /\ JsMap.get key (memoryCache c') = None
    /\ misses (stats c') = misses (stats c) + 1
    /\ hits (stats c') = hits (stats c).
Proof.
  intros He Hr Hd Hg Hexp. run_cache. rewrite He. simpl. rewrite Hr. simpl.
  rewrite Hg.
  destruct (Z.gtb_spec (expiresAt e) (now env)); [lia|]. simpl.
  eexists. split; [reflexivity|]. simpl.
  repeat split. now apply get_delete.
Qed.

(** X3. Redis round trip: with a Redis client and the connection up, [set]
    stores the serialized value with a positive time to live, and a [get]
    before it expires returns what [JSON.parse] makes of that string; the
    in-memory store is not touched. *)
Theorem redis_round_trip env1 env2 key v v' customTtl c r serialized :
  enabled c = true ->
  redisClient c = Some r ->
  redisDown env1 = false ->
  redisDown env2 = false ->
  stringify v = Some serialized ->
  serialized <> "" ->
  parse serialized = Some v' ->
  0 < effective_ttl customTtl c ->
  now env2 < now env1 + effective_ttl customTtl c * 1000 ->
  exists c1 c2,
    set env1 key v customTtl c = (c1, inr true)
    /\ get env2 key c1 = (c2, inr (Some v'))
    /\ memoryCache c2 = memoryCache c.
Proof.
  intros He Hr Hd1 Hd2 Hs Hne Hp Httl Hnow.
  run_cache. rewrite He, Hs. simpl. rewrite Hr, Hd1. simpl.
  destruct (Z.leb_spec (effective_ttl customTtl c) 0); [lia|]. simpl.
  eexists. eexists. split; [reflexivity|]. simpl. rewrite He, Hd2. simpl.
  rewrite get_set.
  destruct (Z.ltb_spec (now env2) (now env1 + effective_ttl customTtl c * 1000));
    [|lia].
  simpl. destruct serialized as [|ch rest]; [congruence|].
  simpl. rewrite Hp. simpl. split; reflexivity.
Qed.

(** Case analysis on the innermost tests of the goal. *)
Ltac split_cases :=
  repeat (simpl;
          match goal with
          | |- context [match ?x with _ => _ end] =>
              lazymatch x with
              | context [match _ with _ => _ end] => fail
              | _ => destruct x eqn:?
              end
          end); simpl.

(** What [set] can do to the in-memory store. *)
Lemma set_memory env key v customTtl c :
  memoryCacheMaxSize (fst (set env key v customTtl c)) = memoryCacheMaxSize c
  /\ (memoryCache (fst (set env key v customTtl c)) = memoryCache c
      \/ memoryCache (fst (set env key v customTtl c))
         = fallback_after env key v (effective_ttl customTtl c) c).
Proof.
  destruct (enabled c) eqn:He.
  - destruct (stringify v) as [serialized|] eqn:Hs.
    + destruct (redisClient c) as [r|] eqn:Hr.
      * destruct c as [ttl0 en rc mem max st]. simpl in *. subst en rc.
        run_cache. simpl. rewrite Hs. simpl.
        destruct (redisDown env); simpl; auto.
        destruct (effective_ttl customTtl _ <=? 0); simpl; auto.
      * rewrite (set_in_memory env key v customTtl c serialized He Hr Hs).
        simpl. auto.
    + run_cache. rewrite He, Hs. simpl. auto.
  - run_cache. rewrite He. simpl. auto.
Qed.

(** What [get], [delete] and [clear] can do to it. *)
Lemma get_memory env key c :
  memoryCacheMaxSize (fst (get env key c)) = memoryCacheMaxSize c
  /\ (memoryCache (fst (get env key c)) = memoryCache c
      \/ memoryCache (fst (get env key c)) = JsMap.delete key (memoryCache c)).
Proof.
  destruct c as [ttl0 en rc mem max st]. run_cache. simpl.
  split_cases; auto.
Qed.

Lemma delete_memory env key c :
  memoryCacheMaxSize (fst (CacheOps.delete env key c)) = memoryCacheMaxSize c
  /\ (memoryCache (fst (CacheOps.delete env key c)) = memoryCache c
      \/ memoryCache (fst (CacheOps.delete env key c))
         = JsMap.delete key (memoryCache c)).
Proof.
  destruct c as [ttl0 en rc mem max st]. run_cache. simpl.
  split_cases; auto.
Qed.

Lemma clear_memory env c :
  memoryCacheMaxSize (fst (clear env c)) = memoryCacheMaxSize c
  /\ (memoryCache (fst (clear env c)) = memoryCache c
      \/ memoryCache (fst (clear env c)) = []).
Proof.
  destruct c as [ttl0 en rc mem max st]. run_cache. cbn -[starts_with].
  destruct rc as [r|]; cbn -[starts_with]; auto.
  destruct (redisDown env); cbn -[starts_with]; auto.
  destruct (filter (starts_with "chat:") (live_keys env r));
    cbn -[starts_with]; auto.
Qed.

(** X4. Capacity: the in-memory store never holds more entries than
    [memoryCacheMaxSize] (100): whatever the arguments, the state of Redis
    and the outcome, [set], [get], [delete] and [clear] leave a store that
    was within its capacity within its capacity. *)
Theorem memory_store_stays_bounded env key v customTtl c :
  bounded c ->
  bounded (fst (set env key v customTtl c))
  /\ bounded (fst (get env key c))
  /\ bounded (fst (CacheOps.delete env key c))
  /\ bounded (fst (clear env c)).
Proof.
  intros [Hmax Hsize]. unfold bounded.
  destruct (set_memory env key v customTtl c) as [-> [->| ->]];
  destruct (get_memory env key c) as [-> [->| ->]];
  destruct (delete_memory env key c) as [-> [->| ->]];
  destruct (clear_memory env c) as [-> [->| ->]];
  pose proof (CacheProps.fallback_stays_bounded env key v
                (effective_ttl customTtl c) c Hmax Hsize);
  pose proof (length_delete_le key (memoryCache c));
  unfold JsMap.size in *; simpl; repeat split; lia.
Qed.

(** X5. [delete] then [get]: when Redis is absent or reachable, [delete]
    returns [true] (also on a disabled cache) and a later [get] of the key
    returns [null], whatever the state of Redis then.  When Redis rejects
    the command, [delete] returns [false] and has not removed the
    in-memory entry either. *)
Theorem delete_then_get_misses env1 env2 key c :
  distinct_keys (memoryCache c) ->
  (forall r, redisClient c = Some r -> distinct_keys r) ->
  (redisClient c = None \/ redisDown env1 = false ->
   exists c1,
     CacheOps.delete env1 key c = (c1, inr true)
     /\ snd (get env2 key c1) = inr None)
  /\ (redisClient c <> None -> redisDown env1 = true ->
      exists c1,
        CacheOps.delete env1 key c = (c1, inr false)
        /\ memoryCache c1 = memoryCache c).
Proof.
  intros Hm Hr. destruct c as [ttl0 en rc mem max st]. simpl in *. split.
  - intros Hup. run_cache. simpl.
    destruct rc as [r|]; simpl.
    + destruct Hup as [Hup|Hup]; [discriminate|]. rewrite Hup. simpl.
      eexists. split; [reflexivity|]. simpl.
      destruct en; simpl; [|reflexivity].
      destruct (redisDown env2); simpl; [reflexivity|].
      rewrite (get_delete key r (Hr r eq_refl)). simpl.
      now rewrite (get_delete key mem Hm).
    + eexists. split; [reflexivity|]. simpl.
      destruct en; simpl; [|reflexivity].
      now rewrite (get_delete key mem Hm).
  - intros Hsome Hdown. run_cache. simpl.
    destruct rc as [r|]; [|congruence]. simpl. rewrite Hdown. simpl.
    eexists. split; reflexivity.
Qed.

(** *** clear *)

Lemma delete_all_cons {V} k keys (m : JsMap.t V) :
  delete_all (k :: keys) m = delete_all keys (JsMap.delete k m).
Proof. reflexivity. Qed.

Lemma delete_all_other {V} keys : forall (m : JsMap.t V) k,
  ~ In k keys -> JsMap.get k (delete_all keys m) = JsMap.get k m.
Proof.
  induction keys as [|k0 rest IH]; intros m k Hk; [reflexivity|].
  rewrite delete_all_cons, IH by (intros H; apply Hk; now right).
  apply get_delete_other. intros ->. apply Hk. now left.
Qed.

Lemma delete_all_in {V} keys : forall (m : JsMap.t V) k,
  distinct_keys m -> In k keys -> JsMap.get k (delete_all keys m) = None.
Proof.
  induction keys as [|k0 rest IH]; intros m k Hm Hk; [destruct Hk|].
  rewrite delete_all_cons.
  destruct (in_dec string_dec k rest) as [Hin|Hout].
  - apply IH; [now apply distinct_delete|assumption].
  - rewrite (delete_all_other rest _ k Hout).
    destruct Hk as [->|Hk]; [|contradiction].
    now apply get_delete.
Qed.

Lemma get_some_in {V} k (v : V) m : JsMap.get k m = Some v -> In (k, v) m.
Proof.
  induction m as [|[k' v'] r IH]; simpl; [discriminate|].
  destruct (String.eqb_spec k k') as [->|Hne].
  - intros [= ->]. now left.
  - intros H. right. auto.
Qed.

Lemma live_key_listed env (r : Redis) k s :
  redis_lookup env r k = Some s -> In k (live_keys env r).
Proof.
  unfold redis_lookup, live_keys.
  destruct (JsMap.get k r) as [[s0 expires]|] eqn:Hg; [|discriminate].
  destruct (now env <? expires) eqn:Hlive; [|discriminate].
  intros _. apply in_map_iff. exists (k, (s0, expires)). split; [reflexivity|].
  apply filter_In. split; [now apply get_some_in|exact Hlive].
Qed.

(** X6. [clear]: with Redis reachable, [clear] returns [true], empties the
    in-memory store, leaves no [chat:] key that can be read in Redis, and
    leaves every other Redis key (such as [health:check]) as it was. *)
Theorem clear_removes_chat_keys env c r :
  redisClient c = Some r ->
  redisDown env = false ->
  distinct_keys r ->
  exists c' r',
    clear env c = (c', inr true)
    /\ memoryCache c' = []
    /\ redisClient c' = Some r'
    /\ (forall k, starts_with "chat:" k = true -> redis_lookup env r' k = None)
    /\ (forall k, starts_with "chat:" k = false ->
                  JsMap.get k r' = JsMap.get k r).
Proof.
  intros Hr Hup Hd. destruct c as [ttl0 en rc mem max st]. simpl in Hr. subst rc.
  run_cache. cbn -[starts_with]. rewrite Hup. cbn -[starts_with].
  destruct (filter (starts_with "chat:") (live_keys env r)) as [|k0 keys] eqn:Hk;
    cbn -[starts_with].
  - exists (mk ttl0 en (Some r) [] max st), r.
    repeat split.
    intros k Hchat.
    destruct (redis_lookup env r k) as [s|] eqn:Hl; [|reflexivity].
    assert (In k (filter (starts_with "chat:") (live_keys env r))) as Hin.
    { apply filter_In. split; [eapply live_key_listed; eauto|exact Hchat]. }
    rewrite Hk in Hin. destruct Hin.
  - exists (mk ttl0 en (Some (delete_all (k0 :: keys) r)) [] max st),
           (delete_all (k0 :: keys) r).
    repeat split.
    + intros k Hchat. unfold redis_lookup.
      destruct (in_dec string_dec k (k0 :: keys)) as [Hin|Hout].
      * now rewrite (delete_all_in (k0 :: keys) r k Hd Hin).
      * rewrite (delete_all_other (k0 :: keys) r k Hout).
        destruct (redis_lookup env r k) as [s|] eqn:Hl; [|exact Hl].
        elim Hout. rewrite <- Hk. apply filter_In.
        split; [eapply live_key_listed; eauto|exact Hchat].
    + intros k Hother. apply delete_all_other.
      rewrite <- Hk. intros Hin. apply filter_In in Hin as [_ Hin]. congruence.
Qed.

(** *** healthCheck *)

(** X7. [healthCheck] on a cache without Redis, when the probe value
    serializes and is read back within its ten seconds: the result is the
    [enabled] flag, so a disabled cache is always reported unhealthy.  The
    probe key is not left in the store; but when the store was full the
    probe has pushed out its oldest entry, which is lost. *)
Theorem healthCheck_without_redis probe env1 env2 env3 c serialized :
  redisClient c = None ->
  stringify (probe (now env1)) = Some serialized ->
  now env2 < now env1 + 10000 ->
  JsMap.get "health:check" (memoryCache c) = None ->
  exists c',
    healthCheck probe env1 env2 env3 c = (c', inr (enabled c))
    /\ memoryCache c'
       = (if enabled c && (JsMap.size (memoryCache c) >=? memoryCacheMaxSize c)
          then tl (memoryCache c)
          else memoryCache c).
Proof.
  intros Hr Hs Hnow Habsent.
  unfold healthCheck, try_catch. unfold bind at 1.
  destruct (enabled c) eqn:He.
  - rewrite (set_in_memory env1 "health:check" _ (Some 10) c serialized He Hr Hs).
    destruct c as [ttl0 en rc mem max st]. simpl in *. subst en rc.
    unfold fallback_after. simpl.
    unfold bind at 1. run_cache. simpl.
    rewrite (get_set "health:check").
    simpl.
    destruct (Z.gtb_spec (now env1 + 10000) (now env2)); [|lia]. simpl.
    eexists. split; [reflexivity|]. simpl.
    destruct (JsMap.size mem >=? max).
    + apply delete_set_absent.
      destruct mem as [|[k0 e0] rest]; [reflexivity|].
      cbn [tl]. cbn [JsMap.get] in Habsent.
      destruct (String.eqb "health:check" k0); [discriminate|assumption].
    + now apply delete_set_absent.
  - destruct c as [ttl0 en rc mem max st]. simpl in *. subst en rc.
    run_cache. simpl.
    eexists. split; [reflexivity|]. simpl.
    now apply delete_absent.
Qed.

End WithJson.

Lemma memory_round_trip_witness :
  exists c1 c2,
    set up "chat:k" (Text "an answer") None full = (c1, inr true)
    /\ get (mkEnv 3600999 false) "chat:k" c1 = (c2, inr (Some (Text "an answer"))).
Proof.
  apply (memory_round_trip up (mkEnv 3600999 false) "chat:k" (Text "an answer")
           None full "an answer"); try reflexivity.
Defined.

Lemma expired_entry_is_purged_witness :
  exists c',
    get (mkEnv 9000 false) "7" full = (c', inr None)
    /\ memoryCache c' = JsMap.delete "7" (memoryCache full)
    /\ JsMap.get "7" (memoryCache c') = None
    /\ misses (stats c') = misses (stats full) + 1
    /\ hits (stats c') = hits (stats full).
Proof.
  apply (expired_entry_is_purged (mkEnv 9000 false) "7" full
           (mkEntry (Text "old") 9000)); try reflexivity;
    try (apply distinctb_sound; vm_compute; reflexivity); simpl; lia.
Defined.

Lemma redis_round_trip_witness :
  exists c1 c2,
    set up "chat:k" (Text "an answer") (Some 60) with_redis = (c1, inr true)
    /\ get (mkEnv 60999 false) "chat:k" c1 = (c2, inr (Some (Text "an answer")))
    /\ memoryCache c2 = memoryCache with_redis.
Proof.
  apply (redis_round_trip up (mkEnv 60999 false) "chat:k" (Text "an answer")
           (Text "an answer") (Some 60) with_redis [] "an answer");
    try reflexivity; discriminate.
Defined.

Lemma memory_store_stays_bounded_witness :
  bounded (fst (set up "chat:k" (Text "new") None full))
  /\ bounded (fst (get up "chat:k" full))
  /\ bounded (fst (CacheOps.delete up "chat:k" full))
  /\ bounded (fst (clear up full)).
Proof.
  apply (memory_store_stays_bounded up "chat:k" (Text "new") None full).
  split; vm_compute; discriminate.
Defined.

Lemma delete_then_get_misses_witness :
  exists c1,
    CacheOps.delete up "7" full = (c1, inr true)
    /\ snd (get up "7" c1) = inr None.
Proof.
  apply (delete_then_get_misses up up "7" full).
  - apply distinctb_sound. vm_compute. reflexivity.
  - discriminate.
  - now left.
Defined.

Lemma clear_removes_chat_keys_witness :
  exists c' r',
    clear up stocked = (c', inr true)
    /\ memoryCache c' = []
    /\ redisClient c' = Some r'
    /\ (forall k, starts_with "chat:" k = true -> redis_lookup up r' k = None)
    /\ (forall k, starts_with "chat:" k = false ->
                  JsMap.get k r'
                  = JsMap.get k [("chat:a", ("answer a", 5000));
                                 ("health:check", ("0", 5000));
                                 ("chat:b", ("answer b", 500))]).
Proof.
  apply (clear_removes_chat_keys up stocked); try reflexivity.
  apply distinctb_sound. reflexivity.
Defined.

Example clear_example :
  redisClient (fst (clear up stocked))
  = Some [("health:check", ("0", 5000)); ("chat:b", ("answer b", 500))].
Proof. reflexivity. Qed.

Lemma healthCheck_without_redis_witness :
  exists c',
    healthCheck (fun t => Text (PythonBridge.decimal t)) up up up full
    = (c', inr true)
    /\ memoryCache c' = tl (memoryCache full).
Proof.
  apply (healthCheck_without_redis (fun t => Text (PythonBridge.decimal t))
           up up up full "1000"); try reflexivity.
Defined.

End CacheMoreProps.

(** ** Cache keys: canonical form and shape *)

Module KeyMoreProps.
Import CacheService KeySpec.
Local Open Scope string_scope.

Ltac each_ascii c :=
  destruct c as [[] [] [] [] [] [] [] []]; reflexivity.

Lemma is_space_lower c : Js.is_space (Js.lower_char c) = Js.is_space c.
Proof. each_ascii c. Qed.

Lemma lower_lower c : Js.lower_char (Js.lower_char c) = Js.lower_char c.
Proof. each_ascii c. Qed.

Lemma toLowerCase_idem s : Js.toLowerCase (Js.toLowerCase s) = Js.toLowerCase s.
Proof. induction s as [|c r IH]; simpl; [reflexivity|]. now rewrite lower_lower, IH. Qed.

Lemma lower_empty s : String.eqb (Js.toLowerCase s) "" = String.eqb s "".
Proof. now destruct s. Qed.

Lemma lower_trimStart s :
  Js.toLowerCase (Js.trimStart s) = Js.trimStart (Js.toLowerCase s).
Proof.
  induction s as [|c r IH]; simpl; [reflexivity|].
  rewrite is_space_lower. now destruct (Js.is_space c).
Qed.

Lemma lower_trimEnd s :
  Js.toLowerCase (Js.trimEnd s) = Js.trimEnd (Js.toLowerCase s).
Proof.
  induction s as [|c r IH]; simpl; [reflexivity|].
  rewrite is_space_lower, <- IH, lower_empty.
  now destruct (Js.is_space c && String.eqb (Js.trimEnd r) "").
Qed.

Lemma lower_collapse p s :
  Js.toLowerCase (Js.collapse_from p s) = Js.collapse_from p (Js.toLowerCase s).
Proof.
  revert p. induction s as [|c r IH]; intros p; simpl; [reflexivity|].
  rewrite is_space_lower.
  destruct (Js.is_space c); [destruct p|]; simpl; now rewrite IH.
Qed.

(** The normalized text is in lower case already. *)
Lemma lower_normalize q : Js.toLowerCase (normalize q) = normalize q.
Proof.
  unfold normalize, Js.collapse_spaces, Js.trim.
  now rewrite lower_collapse, lower_trimEnd, lower_trimStart, toLowerCase_idem.
Qed.

Lemma trimEnd_idem s : Js.trimEnd (Js.trimEnd s) = Js.trimEnd s.
Proof.
  induction s as [|c r IH]; simpl; [reflexivity|].
  destruct (Js.is_space c && String.eqb (Js.trimEnd r) "") eqn:E;
    [reflexivity|].
  simpl. now rewrite IH, E.
Qed.

Lemma trimStart_clean s : starts_clean (Js.trimStart s) = true.
Proof.
  induction s as [|c r IH]; simpl; [reflexivity|].
  destruct (Js.is_space c) eqn:E; [assumption|]. simpl. now rewrite E.
Qed.

Lemma trimEnd_keeps_clean s :
  starts_clean s = true -> starts_clean (Js.trimEnd s) = true.
Proof.
  destruct s as [|c r]; simpl; [reflexivity|].
  intros H. apply negb_true_iff in H. rewrite H. simpl. now rewrite H.
Qed.

Lemma trim_clean s : starts_clean (Js.trim s) = true.
Proof. apply trimEnd_keeps_clean, trimStart_clean. Qed.

Lemma collapse_tidy s : forall p,
  s <> "" -> Js.trimEnd s = s ->
  tidy_from p (Js.collapse_from p s) = true.
Proof.
  induction s as [|c r IH]; intros p Hne Hend; [congruence|].
  simpl in Hend. simpl.
  destruct (Js.is_space c) eqn:Hc; simpl in Hend.
  - destruct (String.eqb_spec (Js.trimEnd r) "") as [E|E]; [discriminate|].
    injection Hend as Hend.
    assert (r <> "") as Hr by (intros ->; now apply E).
    destruct p.
    + now apply IH.
    + simpl. now rewrite IH.
  - injection Hend as Hend. simpl. rewrite Hc.
    destruct r as [|c' r']; [reflexivity|].
    apply IH; [discriminate|assumption].
Qed.

Lemma collapse_clean_start s :
  starts_clean s = true -> Js.collapse_from true s = Js.collapse_from false s.
Proof.
  destruct s as [|c r]; simpl; [reflexivity|].
  intros H. apply negb_true_iff in H. now rewrite H.
Qed.

(** X8. Canonical form: whatever the query, its normalized text is tidy
    (no white space at either end, and between words exactly one plain
    space: tabs, line breaks and no-break spaces are gone) and is in lower
    case. *)
Theorem normalize_is_tidy q :
  tidy (normalize q) = true /\ Js.toLowerCase (normalize q) = normalize q.
Proof.
  split; [|apply lower_normalize].
  unfold normalize, Js.collapse_spaces.
  set (t := Js.trim (Js.toLowerCase q)).
  assert (starts_clean t = true) as Hstart by apply trim_clean.
  assert (Js.trimEnd t = t) as Hend by apply trimEnd_idem.
  destruct t as [|c r] eqn:Ht; [reflexivity|].
  rewrite <- collapse_clean_start by exact Hstart.
  pose proof (collapse_tidy (String c r) true ltac:(discriminate) Hend) as H.
  destruct (Js.collapse_from true (String c r)); [discriminate|exact H].
Qed.

Lemma tidy_trimEnd s : forall p, tidy_from p s = true -> Js.trimEnd s = s.
Proof.
  induction s as [|c r IH]; intros p H; [reflexivity|].
  simpl in *. destruct (Js.is_space c) eqn:Hc.
  - apply andb_prop in H as [_ H]. rewrite (IH true H).
    destruct r; [discriminate|reflexivity].
  - simpl. now rewrite (IH false H).
Qed.

Lemma tidy_collapse s : forall p, tidy_from p s = true -> Js.collapse_from p s = s.
Proof.
  induction s as [|c r IH]; intros p H; [reflexivity|].
  simpl in *. destruct (Js.is_space c) eqn:Hc.
  - apply andb_prop in H as [H Hr]. apply andb_prop in H as [Heq Hp].
    apply Ascii.eqb_eq in Heq. subst c.
    destruct p; [discriminate|]. now rewrite (IH true Hr).
  - now rewrite (IH false H).
Qed.

Lemma tidy_clean s : tidy s = true -> starts_clean s = true.
Proof.
  destruct s as [|c r]; [reflexivity|]. simpl.
  destruct (Js.is_space c); [|reflexivity].
  rewrite andb_false_r. discriminate.
Qed.

(** A tidy text in lower case is its own normalization. *)
Lemma normalize_tidy_fixed s :
  tidy s = true -> Js.toLowerCase s = s -> normalize s = s.
Proof.
  intros Ht Hl. unfold normalize, Js.collapse_spaces, Js.trim. rewrite Hl.
  pose proof (tidy_clean s Ht) as Hc.
  destruct s as [|c r]; [reflexivity|].
  assert (Js.trimStart (String c r) = String c r) as ->.
  { simpl in *. apply negb_true_iff in Hc. now rewrite Hc. }
  change (tidy_from true (String c r) = true) in Ht.
  rewrite (tidy_trimEnd _ true Ht).
  rewrite <- collapse_clean_start by exact Hc.
  now apply tidy_collapse.
Qed.

(** X9. Normalizing twice changes nothing, so a query and its normalized
    text, and any two spellings of that text that differ by case or by the
    white space between and around the words, have the same cache key. *)
Theorem normalize_idempotent q :
  normalize (normalize q) = normalize q
  /\ generateKey (normalize q) = generateKey q
  /\ generateKey (Js.toLowerCase q) = generateKey q
  /\ generateKey (Js.trim q) = generateKey q.
Proof.
  destruct (normalize_is_tidy q) as [Ht Hl].
  pose proof (normalize_tidy_fixed _ Ht Hl) as Hfix.
  split; [exact Hfix|]. split; [|split].
  - unfold generateKey. cbv zeta. now rewrite Hfix.
  - unfold generateKey, normalize. cbv zeta. now rewrite toLowerCase_idem.
  - unfold generateKey, normalize, Js.trim. cbv zeta.
    rewrite <- !lower_trimStart, <- !lower_trimEnd.
    do 4 f_equal.
    assert (forall s, Js.trimStart (Js.trimStart s) = Js.trimStart s) as Hss.
    { induction s as [|c r IH]; simpl; [reflexivity|].
      destruct (Js.is_space c) eqn:E; [assumption|]. simpl. now rewrite E. }
    assert (forall s, starts_clean s = true -> Js.trimStart s = s) as Hcs.
    { intros [|c r]; simpl; [reflexivity|]. intros H.
      apply negb_true_iff in H. now rewrite H. }
    rewrite (Hcs (Js.trimEnd (Js.trimStart q)))
      by apply trimEnd_keeps_clean, trimStart_clean.
    apply trimEnd_idem.
Qed.

(** *** The shape of a key *)

Lemma le_bytes_length n : forall x, List.length (Md5.le_bytes n x) = n.
Proof. induction n as [|n IH]; intros x; simpl; [reflexivity|]. now rewrite IH. Qed.

Lemma le_bytes_range n : forall x,
  Forall (fun b => (0 <= b < 256)%Z) (Md5.le_bytes n x).
Proof.
  induction n as [|n IH]; intros x; simpl; constructor; auto.
  apply Z.mod_pos_bound. lia.
Qed.

Lemma hex_length bs : String.length (Md5.hex bs) = (2 * List.length bs)%nat.
Proof. induction bs as [|b r IH]; simpl; [reflexivity|]. rewrite IH. lia. Qed.

Lemma hex_digit_is_hex d : (0 <= d < 16)%Z -> is_hex (Md5.hex_digit d) = true.
Proof.
  intros H.
  assert (d = 0 \/ d = 1 \/ d = 2 \/ d = 3 \/ d = 4 \/ d = 5 \/ d = 6 \/ d = 7
          \/ d = 8 \/ d = 9 \/ d = 10 \/ d = 11 \/ d = 12 \/ d = 13 \/ d = 14
          \/ d = 15)%Z as Hd by lia.
  repeat destruct Hd as [->|Hd]; try reflexivity. now subst.
Qed.

Lemma hex_all_hex bs :
  Forall (fun b => (0 <= b < 256)%Z) bs -> all_hex (Md5.hex bs) = true.
Proof.
  induction 1 as [|b r Hb Hr IH]; simpl; [reflexivity|].
  rewrite IH, !hex_digit_is_hex; [reflexivity| |].
  - apply Z.mod_pos_bound. lia.
  - split; [apply Z.div_pos; lia|apply Z.div_lt_upper_bound; lia].
Qed.

(** X10. Shape of a key: whatever the query (empty, very long, any
    characters), the key is [chat:] followed by exactly 32 characters, each
    one of [0-9a-f]; it is 37 characters long. *)
Theorem key_shape q :
  exists hash,
    generateKey q = "chat:" ++ hash
    /\ String.length hash = 32
    /\ all_hex hash = true
    /\ String.length (generateKey q) = 37.
Proof.
  unfold generateKey. cbv zeta.
  set (n := normalize q).
  assert (String.length (Md5.md5_hex n) = 32) as Hlen.
  { unfold Md5.md5_hex, Md5.digest. rewrite hex_length.
    rewrite !length_app, !le_bytes_length. reflexivity. }
  exists (Md5.md5_hex n).
  split; [reflexivity|]. split; [exact Hlen|]. split.
  - unfold Md5.md5_hex, Md5.digest. apply hex_all_hex.
    repeat (apply Forall_app; split); apply le_bytes_range.
  - change ("chat:" ++ Md5.md5_hex n)
      with (String "c" (String "h" (String "a" (String "t" (String ":" (Md5.md5_hex n)))))).
    cbn [String.length]. now rewrite Hlen.
Qed.

End KeyMoreProps.

(** ** The retry loop: first success, bounds, statistics *)

Module RetryMoreProps.
Import Eff PythonBridge Spec BridgeOps.
Local Open Scope Z_scope.
Local Open Scope list_scope.

Section Loop.
Variable worker : Z -> exn + Data.
Variables (maxRetries : Z) (q u : string) (h : list Message).

(** How the loop ends, from the attempts that are left. *)
Lemma retry_loop_end n : forall attempt lastError,
  Z.of_nat n = maxRetries + 1 - attempt ->
  match snd (retry_loop worker maxRetries q u h attempt lastError) with
  | Returned d =>
      exists k, attempt < k <= maxRetries + 1 /\ worker k = inr d
                /\ forall j, attempt < j < k -> exists e, worker j = inl e
  | Exhausted a _ =>
      a = maxRetries + 1
      /\ forall j, attempt < j <= maxRetries + 1 -> exists e, worker j = inl e
  end.
Proof.
  induction n as [|n IH]; intros attempt lastError Hn; simp retry_loop.
  - destruct (Z_le_gt_dec attempt maxRetries); [lia|]. simpl.
    split; [lia|]. intros j Hj. lia.
  - destruct (Z_le_gt_dec attempt maxRetries); [|lia]. simpl.
    destruct (worker (attempt + 1)) as [e|d] eqn:Hw; simpl.
    + specialize (IH (attempt + 1) (Some e) ltac:(lia)).
      destruct (retry_loop worker maxRetries q u h (attempt + 1) (Some e))
        as [rest ex]. simpl in *.
      destruct ex as [d|a le].
      * destruct IH as (k & Hk & Hd & Hbefore).
        exists k. split; [lia|]. split; [exact Hd|].
        intros j Hj. destruct (Z.eq_dec j (attempt + 1)) as [->|];
          [eauto|apply Hbefore; lia].
      * destruct IH as [Ha Hall]. split; [exact Ha|].
        intros j Hj. destruct (Z.eq_dec j (attempt + 1)) as [->|];
          [eauto|apply Hall; lia].
    + exists (attempt + 1). split; [lia|]. split; [exact Hw|].
      intros j Hj. lia.
Qed.

(** The actions up to a first success at attempt [k]. *)
Lemma retry_loop_first_success k d n : forall attempt lastError,
  Z.of_nat n = k - 1 - attempt ->
  k <= maxRetries + 1 ->
  (forall j, attempt < j < k -> exists e, worker j = inl e) ->
  worker k = inr d ->
  retry_loop worker maxRetries q u h attempt lastError
  = (failing_attempts q u h maxRetries (attempt + 1) n ++ [Invoke q u h],
     Returned d).
Proof.
  induction n as [|n IH]; intros attempt lastError Hn Hk Hfail Hd;
    simp retry_loop;
    (destruct (Z_le_gt_dec attempt maxRetries); [|lia]); simpl.
  - replace (attempt + 1) with k by lia. now rewrite Hd.
  - destruct (Hfail (attempt + 1) ltac:(lia)) as [e He]. rewrite He. simpl.
    rewrite (IH (attempt + 1) (Some e)); auto; try lia.
    + simpl. destruct (Z.leb_spec (attempt + 1) maxRetries); [reflexivity|lia].
    + intros j Hj. apply Hfail. lia.
Qed.

Lemma invocations_app a b :
  invocations (a ++ b) = (invocations a + invocations b)%nat.
Proof. unfold invocations. now rewrite filter_app, length_app. Qed.

Lemma sleeps_app a b : sleeps (a ++ b) = sleeps a ++ sleeps b.
Proof. apply flat_map_app. Qed.

Lemma sleeps_before_success n : forall first,
  first + Z.of_nat n - 1 <= maxRetries -> 0 <= first ->
  sleeps (failing_attempts q u h maxRetries first n)
  = map backoff (map Z.of_nat (seq (Z.to_nat first) n)).
Proof.
  induction n as [|n IH]; intros first Hle Hf; [reflexivity|].
  simpl. destruct (Z.leb_spec first maxRetries); [|lia]. simpl.
  rewrite IH by lia. rewrite Z2Nat.id by lia.
  now replace (Z.to_nat (first + 1)) with (S (Z.to_nat first)) by lia.
Qed.

End Loop.

(** X11. First success: for an accepted query, when the attempts before the
    [k]-th fail and the [k]-th succeeds, with [k] within the budget of
    [maxRetries + 1], [executeQuery] returns the data of that attempt,
    having invoked the worker [k] times and slept after each of the [k - 1]
    failures; the call is counted as one success. *)
Theorem executeQuery_first_success worker elapsed q u h b k d :
  accepted q ->
  1 <= k <= maxRetries b + 1 ->
  (forall j, 1 <= j < k -> exists e, worker j = inl e) ->
  worker k = inr d ->
  exists acts,
    executeQuery worker elapsed (Js.Str q) u h b
    = (acts, (_updateStats true elapsed b, inr (mkAnswer d elapsed)))
    /\ invocations acts = Z.to_nat k
    /\ sleeps acts = map backoff (upto (k - 1)).
Proof.
  intros Hq Hk Hfail Hd.
  destruct (RetryProps.accepted_passes q Hq) as [Hv Hl].
  unfold executeQuery. rewrite Hv, Hl. simpl text_of.
  rewrite (retry_loop_first_success worker (maxRetries b) q u h k d
             (Z.to_nat (k - 1)) 0 None); try lia; auto.
  - eexists. split; [reflexivity|]. split.
    + rewrite invocations_app, RetryProps.invocations_failing.
      change (invocations [Invoke q u h]) with 1%nat. lia.
    + rewrite sleeps_app, sleeps_before_success by lia.
      change (sleeps [Invoke q u h]) with (@nil Z).
      rewrite app_nil_r. unfold upto. do 3 f_equal.
  - intros j Hj. apply Hfail. lia.
Qed.

Lemma executeQuery_first_success_witness :
  exists acts,
    executeQuery (fun k => if k <? 2 then inl timed_out
                           else inr (mkData true None "an answer" [] None))
                 900 (Js.Str "hello") "anonymous" [] default_bridge
    = (acts, (_updateStats true 900 default_bridge,
              inr (mkAnswer (mkData true None "an answer" [] None) 900)))
    /\ invocations acts = 2%nat
    /\ sleeps acts = [1000].
Proof.
  apply (executeQuery_first_success
           (fun k => if k <? 2 then inl timed_out
                     else inr (mkData true None "an answer" [] None))
           900 "hello" "anonymous" [] default_bridge 2).
  - split; [discriminate|apply Nat.leb_le; reflexivity].
  - vm_compute. split; discriminate.
  - intros j Hj. exists timed_out.
    destruct (Z.ltb_spec j 2); [reflexivity|lia].
  - reflexivity.
Defined.

Lemma backoff_range attempt : 1 <= attempt -> 1000 <= backoff attempt <= 5000.
Proof.
  intros H. unfold backoff.
  pose proof (Z.pow_pos_nonneg 2 (attempt - 1) ltac:(lia) ltac:(lia)).
  lia.
Qed.

Lemma retry_loop_sleeps worker maxRetries q u h attempt lastError :
  0 <= attempt ->
  Forall (fun ms => 1000 <= ms <= 5000)
         (sleeps (fst (retry_loop worker maxRetries q u h attempt lastError)))
  /\ (List.length
        (sleeps (fst (retry_loop worker maxRetries q u h attempt lastError)))
      <= Z.to_nat (maxRetries - attempt))%nat.
Proof.
  funelim (retry_loop worker maxRetries q u h attempt lastError);
    intros Hpos; try (simpl; split; [constructor|lia]).
  destruct (retry_loop worker maxRetries q u h (attempt + 1) (Some error))
    as [rest ex] eqn:E.
  destruct (H ltac:(lia)) as [Hall Hlen]. simpl in *.
  destruct (Z.leb_spec (attempt + 1) maxRetries); simpl.
  - split; [constructor; [apply backoff_range; lia|assumption]|lia].
  - split; [assumption|lia].
Qed.

(** X12. Bounds: whatever the worker does and whatever the query, a call
    of [executeQuery] invokes the worker at most [maxRetries + 1] times,
    sleeps at most [maxRetries] times, each time between one and five
    seconds, hence at most [5000 * maxRetries] ms in all. *)
Theorem executeQuery_bounded worker elapsed query u h b :
  let acts := fst (executeQuery worker elapsed query u h b) in
  (invocations acts <= Z.to_nat (maxRetries b + 1))%nat
  /\ (List.length (sleeps acts) <= Z.to_nat (maxRetries b))%nat
  /\ Forall (fun ms => 1000 <= ms <= 5000) (sleeps acts)
  /\ slept acts <= 5000 * Z.max 0 (maxRetries b).
Proof.
  cbv zeta. unfold executeQuery.
  assert ((invocations [] <= Z.to_nat (maxRetries b + 1))%nat
          /\ (List.length (sleeps []) <= Z.to_nat (maxRetries b))%nat
          /\ Forall (fun ms => 1000 <= ms <= 5000) (sleeps [])
          /\ slept [] <= 5000 * Z.max 0 (maxRetries b)) as Hnone.
  { refine (conj (Nat.le_0_l _) (conj (Nat.le_0_l _) (conj (Forall_nil _) _))).
    change (slept []) with 0. lia. }
  destruct (not_a_query query); [exact Hnone|].
  destruct (too_long query); [exact Hnone|].
  clear Hnone.
  pose proof (RetryProps.invocations_bounded worker (maxRetries b)
                (text_of query) u h 0 None) as Hinv.
  destruct (retry_loop_sleeps worker (maxRetries b) (text_of query) u h 0 None
              ltac:(lia)) as [Hall Hlen].
  destruct (retry_loop worker (maxRetries b) (text_of query) u h 0 None)
    as [acts ex]. cbn [fst snd] in *.
  assert (invocations acts <= Z.to_nat (maxRetries b + 1))%nat as H1
    by (replace (maxRetries b + 1) with (maxRetries b + 1 - 0) by lia; exact Hinv).
  assert (List.length (sleeps acts) <= Z.to_nat (maxRetries b))%nat as H2
    by (replace (maxRetries b) with (maxRetries b - 0) by lia; exact Hlen).
  assert (slept acts <= 5000 * Z.of_nat (List.length (sleeps acts))) as H3.
  { unfold slept. clear - Hall. induction Hall as [|x l Hx Hl IH]; simpl; lia. }
  destruct ex as [d|a [e|]]; cbn [fst];
    refine (conj H1 (conj H2 (conj Hall _))); lia.
Qed.

(** X13. Statistics: a call of [executeQuery] keeps the counters in
    agreement (total = successes + failures, the average is the rounded
    mean).  A call refused by validation is not counted; every other call
    is counted once, whatever the number of attempts it made. *)
Theorem executeQuery_stats worker elapsed query u h b :
  stats_ok b ->
  let b' := fst (snd (executeQuery worker elapsed query u h b)) in
  stats_ok b'
  /\ totalExecutions (stats b')
     = totalExecutions (stats b)
       + (if not_a_query query || too_long query then 0 else 1).
Proof.
  intros (Hs & Hf & Ht & Ha). cbv zeta. unfold executeQuery.
  destruct (not_a_query query); simpl.
  { split; [unfold stats_ok; auto|lia]. }
  destruct (too_long query); simpl.
  { split; [unfold stats_ok; auto|lia]. }
  destruct (retry_loop worker (maxRetries b) (text_of query) u h 0 None)
    as [acts [d|a [e|]]]; simpl;
    (split; [unfold stats_ok; simpl; repeat split; try lia|reflexivity]).
Qed.

Lemma executeQuery_stats_witness :
  let b' := fst (snd (executeQuery (fun _ => inl timed_out) 60000
                                   (Js.Str "hello") "anonymous" []
                                   default_bridge)) in
  stats_ok b'
  /\ totalExecutions (stats b') = totalExecutions (stats default_bridge) + 1.
Proof.
  apply (executeQuery_stats (fun _ => inl timed_out) 60000 (Js.Str "hello")
           "anonymous" [] default_bridge).
  unfold stats_ok. simpl. repeat split; lia.
Defined.

(** X14. Health check of the bridge: it never throws; with [maxRetries]
    not negative it answers [true] exactly when one of the first
    [maxRetries + 1] attempts on the test query succeeds; and it is counted
    in the statistics like any other call. *)
Theorem bridge_healthCheck worker elapsed b :
  0 <= maxRetries b ->
  (snd (snd (healthCheck worker elapsed b)) = true
   <-> exists k d, 1 <= k <= maxRetries b + 1 /\ worker k = inr d)
  /\ totalExecutions (stats (fst (snd (healthCheck worker elapsed b))))
     = totalExecutions (stats b) + 1.
Proof.
  intros Hmr. unfold healthCheck, executeQuery.
  change (not_a_query (Js.Str testQuery)) with false.
  change (too_long (Js.Str testQuery)) with false.
  cbv iota. simpl text_of.
  pose proof (retry_loop_end worker (maxRetries b) testQuery "health-check" []
                (Z.to_nat (maxRetries b + 1)) 0 None ltac:(lia)) as Hend.
  destruct (retry_loop worker (maxRetries b) testQuery "health-check" [] 0 None)
    as [acts ex]. simpl in Hend.
  destruct ex as [d|a le].
  - simpl. split; [|reflexivity]. split; [intros _|reflexivity].
    destruct Hend as (k & Hk & Hd & _). exists k, d. split; [lia|exact Hd].
  - destruct Hend as [Ha Hall].
    assert ((exists k d, 1 <= k <= maxRetries b + 1 /\ worker k = inr d) -> False)
      as Hnone.
    { intros (k & d & Hk & Hd). destruct (Hall k ltac:(lia)) as [e He].
      congruence. }
    destruct le as [e|]; simpl; (split; [|reflexivity]);
      (split; [discriminate|intros H; elim (Hnone H)]).
Qed.

Lemma bridge_healthCheck_witness :
  (snd (snd (healthCheck (fun _ => inl timed_out) 60000 default_bridge)) = true
   <-> exists k d, 1 <= k <= maxRetries default_bridge + 1
                   /\ (fun _ : Z => @inl exn Data timed_out) k = inr d)
  /\ totalExecutions
       (stats (fst (snd (healthCheck (fun _ => inl timed_out) 60000 default_bridge))))
     = totalExecutions (stats default_bridge) + 1.
Proof.
  apply (bridge_healthCheck (fun _ => inl timed_out) 60000 default_bridge).
  vm_compute. discriminate.
Defined.

End RetryMoreProps.

(** ** The worker process: no request is lost; requests go to the newest
    process *)

Module BridgeMoreProps.
Import Eff PythonBridge Trace Spec Scenario Processes.
Local Open Scope list_scope.

Lemma taken_sent_or_settled tr r :
  In r (taken tr) ->
  (exists req, In req (sent tr) /\ rid req = r) \/ settled r tr = true.
Proof.
  induction tr as [|e tr IH]; simpl; [tauto|].
  intros H. apply in_app_or in H as [H|H].
  - destruct e as [| | |p req| |r' e c]; simpl in H; try tauto.
    + destruct H as [<-|[]]. left. exists req. split; [now left|reflexivity].
    + destruct c; simpl in H; try tauto. destruct H as [<-|[]].
      right. simpl. now rewrite Nat.eqb_refl.
  - destruct (IH H) as [(req & Hin & Hr)|Hs].
    + left. exists req. split; [apply in_or_app; now right|exact Hr].
    + right. unfold settled in *. simpl. rewrite Hs. apply orb_true_r.
Qed.

(** X15. No request is lost unless a worker prints the line [null]: at
    any point of any history of the bridge in which no line of a worker
    parses to [null], every request that was pushed on the queue is still
    waiting in the queue, or is the current request, or has had its
    promise resolved or rejected. *)
Theorem no_request_lost timeout0 maxRetries0 evs w tr :
  no_null_line evs = true ->
  history timeout0 maxRetries0 evs = (w, tr) ->
  forall r, In r (arrived tr) ->
    In r (map rid (requestQueue (bridge w)))
    \/ (exists c, currentRequest (bridge w) = Some c /\ rid c = r)
    \/ settled r tr = true.
Proof.
  intros Hevs H r Hr.
  pose proof (BridgeProps.consistent_history timeout0 maxRetries0 evs Hevs)
    as Inv.
  rewrite H in Inv. simpl in Inv. destruct Inv as [_ I2 I3 _].
  rewrite I3 in Hr. apply in_app_or in Hr as [Ht|Hq]; [|now left].
  right.
  destruct (taken_sent_or_settled tr r Ht) as [(req & Hin & <-)|Hs];
    [|now right].
  destruct (settled (rid req) tr) eqn:Hs; [now right|].
  left. exists req. split; [|reflexivity].
  apply I2, BridgeProps.in_in_flight. now split.
Qed.

Lemma no_request_lost_witness :
  In 0%nat (map rid (requestQueue (bridge (fst (history None None late_answer)))))
  \/ (exists c, currentRequest (bridge (fst (history None None late_answer)))
                = Some c /\ rid c = 0%nat)
  \/ settled 0 (snd (history None None late_answer)) = true.
Proof.
  apply (no_request_lost None None late_answer
           (fst (history None None late_answer))
           (snd (history None None late_answer))).
  - reflexivity.
  - apply surjective_pairing.
  - vm_compute. now left.
Defined.

(** *** Which process a request is written to *)

Lemma spawned_app t1 t2 : spawned (t1 ++ t2) = spawned t1 ++ spawned t2.
Proof. apply flat_map_app. Qed.

Lemma kills_app t1 t2 : kills (t1 ++ t2) = kills t1 ++ kills t2.
Proof. apply flat_map_app. Qed.

(** A step that creates, kills and writes to no process. *)
Lemma newest_quiet w tr w' effs :
  newest w tr ->
  spawned effs = [] -> kills effs = [] -> sent effs = [] ->
  List.length (procs w') = List.length (procs w) ->
  (forall p, shell (bridge w') = Some p -> shell (bridge w) = Some p) ->
  newest w' (tr ++ effs).
Proof.
  intros [N1 N2 N3 N4] Hs Hk Hsent Hlen Hshell. split.
  - now rewrite spawned_app, Hs, app_nil_r, Hlen.
  - intros p Hp. rewrite Hlen. auto.
  - intros k Hin. rewrite kills_app, Hk, app_nil_r in Hin. rewrite Hlen. auto.
  - intros before p r after Heq.
    apply app_eq_app in Heq as [l [[Htr Hafter]|[Hbefore Heffs]]].
    + destruct l as [|x l].
      * rewrite app_nil_r in Htr. simpl in Hafter.
        exfalso. eapply (BridgeProps.sent_nil_no_send effs []); eauto.
      * simpl in Hafter. injection Hafter as <- _. eapply N4. exact Htr.
    + exfalso. eapply BridgeProps.sent_nil_no_send; eauto.
Qed.

(** A step that writes one request to the shell the bridge holds. *)
Lemma newest_send w tr w' p r :
  newest w tr ->
  shell (bridge w) = Some p ->
  List.length (procs w') = List.length (procs w) ->
  shell (bridge w') = shell (bridge w) ->
  newest w' (tr ++ [Send p r]).
Proof.
  intros [N1 N2 N3 N4] Hp Hlen Hshell. split.
  - now rewrite spawned_app, app_nil_r, Hlen.
  - intros p0 Hp0. rewrite Hlen. apply N2. congruence.
  - intros k Hin. rewrite kills_app, app_nil_r in Hin. rewrite Hlen. auto.
  - intros before p0 r0 after Heq.
    assert (tr = before /\ p0 = p \/ exists l, tr = before ++ Send p0 r0 :: l)
      as [[<- ->]|[l Htr]].
    { apply app_eq_app in Heq as [l [[Htr Hafter]|[Hbefore Heffs]]].
      - destruct l as [|x l].
        + left. rewrite app_nil_r in Htr. simpl in Hafter.
          injection Hafter as Hp0 _. split; congruence.
        + right. simpl in Hafter. injection Hafter as <- _. eauto.
      - destruct l as [|x l]; simpl in Heffs.
        + left. rewrite app_nil_r in Hbefore. injection Heffs as Hp0 _.
          split; congruence.
        + injection Heffs as _ Heffs. now destruct l. }
    + split.
      * rewrite N1. now rewrite <- (N2 p Hp).
      * intros k Hk. specialize (N3 k Hk). specialize (N2 p Hp). lia.
    + eapply N4. exact Htr.
Qed.

Lemma processQueue_on_frame q : forall w,
  procs (fst (processQueue_on q w)) = procs w
  /\ shell (bridge (fst (processQueue_on q w))) = shell (bridge w)
  /\ forall p r, In (Send p r) (snd (processQueue_on q w)) ->
                 shell (bridge w) = Some p.
Proof.
  induction q as [|r rest IH]; intros w; simpl.
  - destruct (negb (isReady (bridge w)) || isProcessing (bridge w)); simpl;
      repeat split; tauto.
  - destruct (negb (isReady (bridge w)) || isProcessing (bridge w)); simpl;
      [repeat split; tauto|].
    destruct (shell (bridge w)) as [p|] eqn:Hs; simpl.
    + repeat split; auto. intros p0 r0 [H|[]]. congruence.
    + match goal with |- context [processQueue_on rest ?w2] =>
        destruct (IH w2) as (H1 & H2 & H3);
        destruct (processQueue_on rest w2) as [w3 effs] end.
      simpl in *. repeat split; auto.
      * now rewrite H2.
      * intros p0 r0 [H|H]; [discriminate|].
        specialize (H3 p0 r0 H). rewrite Hs in H3. discriminate.
Qed.

Lemma newest_processQueue w tr :
  newest w tr ->
  newest (fst (_processQueue w)) (tr ++ snd (_processQueue w)).
Proof.
  intros N. unfold _processQueue.
  destruct (processQueue_on_frame (requestQueue (bridge w)) w) as (Hp & Hs & Hsend).
  pose proof (BridgeProps.processQueue_on_processed (requestQueue (bridge w)) w) as H.
  inversion H as [Hw Heffs|p r rest Hidle Hq Hb Heffs|Hidle Hb Heffs].
  - rewrite app_nil_r, Hw. exact N.
  - apply (newest_send w); auto; [|now rewrite Hp].
    apply (Hsend p r). rewrite <- Heffs. now left.
  - apply (newest_quiet w); auto.
    + clear. induction (requestQueue (bridge w)); auto.
    + clear. induction (requestQueue (bridge w)); auto.
    + apply BridgeProps.sent_rejects.
    + now rewrite Hp.
    + intros p. now rewrite Hs.
Qed.

Lemma set_nth_length {A} n (x : A) l : List.length (set_nth n x l) = List.length l.
Proof.
  revert n. induction l as [|y l IH]; intros [|n]; simpl; auto.
Qed.

Lemma mark_killed_frame p w :
  List.length (procs (mark_killed p w)) = List.length (procs w)
  /\ bridge (mark_killed p w) = bridge w.
Proof.
  unfold mark_killed. destruct (status p w) as [[]|]; simpl;
    rewrite ?set_nth_length; auto.
Qed.

Lemma no_send_in effs before p r after :
  sent effs = [] -> effs <> before ++ Send p r :: after.
Proof. apply BridgeProps.sent_nil_no_send. Qed.

Lemma newest_initShell w tr :
  newest w tr -> newest (fst (_initShell w)) (tr ++ snd (_initShell w)).
Proof.
  intros [N1 N2 N3 N4]. unfold _initShell.
  destruct (shell (bridge w)) as [old|] eqn:Hs.
  - destruct (mark_killed_frame old w) as [Hlen Hb].
    simpl. split; simpl.
    + rewrite spawned_app. simpl. rewrite N1, length_app. simpl.
      now rewrite Nat.add_1_r, seq_S, !Hlen.
    + intros p [= <-]. rewrite length_app. simpl. lia.
    + intros k Hin. rewrite kills_app in Hin. simpl in Hin.
      rewrite length_app, Hlen. simpl.
      apply in_app_or in Hin as [Hin|[<-|[]]].
      * specialize (N3 k Hin). lia.
      * specialize (N2 old eq_refl). lia.
    + intros before p r after Heq.
      apply app_eq_app in Heq as [l [[Htr Hafter]|[Hbefore Heffs]]].
      * destruct l as [|x l]; [discriminate|].
        simpl in Hafter. injection Hafter as <- _. eapply N4. exact Htr.
      * exfalso. revert Heffs. apply no_send_in. reflexivity.
  - simpl. split; simpl.
    + rewrite spawned_app. simpl. rewrite N1, length_app. simpl.
      now rewrite Nat.add_1_r, seq_S.
    + intros p [= <-]. rewrite length_app. simpl. lia.
    + intros k Hin. rewrite kills_app in Hin. simpl in Hin.
      rewrite app_nil_r in Hin. rewrite length_app. simpl.
      specialize (N3 k Hin). lia.
    + intros before p r after Heq.
      apply app_eq_app in Heq as [l [[Htr Hafter]|[Hbefore Heffs]]].
      * destruct l as [|x l]; [discriminate|].
        simpl in Hafter. injection Hafter as <- _. eapply N4. exact Htr.
      * exfalso. revert Heffs. apply no_send_in. reflexivity.
Qed.

Ltac calm w :=
  apply (newest_quiet w); simpl; auto; try discriminate;
  try (rewrite set_nth_length; reflexivity).

Lemma newest_handleProcessDeath w tr :
  newest w tr ->
  newest (fst (_handleProcessDeath w)) (tr ++ snd (_handleProcessDeath w)).
Proof.
  intros N. unfold _handleProcessDeath. simpl.
  destruct (currentRequest (bridge w)); simpl; calm w.
Qed.

Lemma newest_on_message p line w tr :
  newest w tr ->
  newest (fst (on_message p line w)) (tr ++ snd (on_message p line w)).
Proof.
  intros N. destruct line as [| |data]; simpl.
  - now rewrite app_nil_r.
  - destruct (negb (isReady (bridge w))); [now rewrite app_nil_r|].
    destruct (currentRequest (bridge w)) as [c|]; simpl;
      [|now rewrite app_nil_r].
    calm w.
  - destruct (negb (isReady (bridge w)) && is_ready_message data).
    + apply newest_processQueue. rewrite <- (app_nil_r tr). calm w.
    + destruct (currentRequest (bridge w)) as [c|]; simpl;
        [|now rewrite app_nil_r].
      destruct (success data); calm w.
Qed.

Lemma newest_on_timeout r w tr :
  newest w tr ->
  newest (fst (on_timeout r w)) (tr ++ snd (on_timeout r w)).
Proof.
  intros N. unfold on_timeout.
  destruct (currentRequest (bridge w)) as [c|] eqn:Hc; [|now rewrite app_nil_r].
  destruct (Nat.eqb (rid c) r); [|now rewrite app_nil_r].
  pose proof (newest_handleProcessDeath w (tr ++ [Reject r timed_out ByTimeout]))
    as H.
  destruct (_handleProcessDeath w) as [w1 effs]. simpl in *.
  rewrite <- app_assoc in H. apply H. calm w.
Qed.

Lemma newest_executePython q u h w tr :
  newest w tr ->
  newest (fst (_executePython q u h w)) (tr ++ snd (_executePython q u h w)).
Proof.
  intros N. unfold _executePython.
  set (request := mkRequest (nextRid w) q u h).
  set (w1 := with_nextRid _ _).
  pose proof (newest_processQueue w1 (tr ++ [Push request])) as H.
  destruct (_processQueue w1) as [w2 effs]. simpl in *.
  rewrite <- app_assoc in H. apply H. calm w.
Qed.

Lemma newest_same w w' tr :
  newest w tr ->
  List.length (procs w') = List.length (procs w) ->
  bridge w' = bridge w ->
  newest w' tr.
Proof.
  intros N Hl Hb. rewrite <- (app_nil_r tr). apply (newest_quiet w); auto.
  intros p. now rewrite Hb.
Qed.

Lemma newest_step w ev tr :
  newest w tr -> newest (fst (step w ev)) (tr ++ snd (step w ev)).
Proof.
  intros N. unfold step.
  destruct (enabled w ev); [|now rewrite app_nil_r].
  destruct ev; simpl.
  - now apply newest_executePython.
  - now apply newest_on_message.
  - now rewrite app_nil_r.
  - now apply newest_handleProcessDeath.
  - apply newest_handleProcessDeath.
    apply (newest_same w); simpl; auto. apply set_nth_length.
  - apply newest_on_timeout. now apply (newest_same w).
  - apply newest_initShell. now apply (newest_same w).
  - apply newest_processQueue. now apply (newest_same w).
Qed.

Lemma newest_run evs : forall w tr,
  newest w tr -> newest (fst (run w evs)) (tr ++ snd (run w evs)).
Proof.
  induction evs as [|ev rest IH]; intros w tr N; simpl.
  - now rewrite app_nil_r.
  - pose proof (newest_step w ev tr N) as H1.
    destruct (step w ev) as [w1 e1]. simpl in H1.
    pose proof (IH w1 (tr ++ e1) H1) as H2.
    destruct (run w1 rest) as [w2 e2]. simpl in *.
    now rewrite app_assoc.
Qed.

Lemma newest_new timeout0 maxRetries0 :
  newest (fst (new timeout0 maxRetries0)) (snd (new timeout0 maxRetries0)).
Proof.
  split; simpl; auto.
  - intros p [= <-]. reflexivity.
  - intros k [].
  - intros [|x before] p r after H; [discriminate|].
    injection H as _ H. now destruct before.
Qed.

(** X16. Whatever the event loop delivers, a request is only ever written
    to the process that is, at that moment, the last one the bridge has
    created: never to a process created earlier, and never to one the
    bridge has killed. *)
Theorem requests_go_to_newest_process timeout0 maxRetries0 evs w tr :
  history timeout0 maxRetries0 evs = (w, tr) ->
  forall before p r after,
    tr = before ++ Send p r :: after ->
    spawned before = seq 0 (S p)
    /\ forall k, In k (kills before) -> (k < p)%nat.
Proof.
  intros H. unfold history in H.
  pose proof (newest_new timeout0 maxRetries0) as N0.
  destruct (new timeout0 maxRetries0) as [w0 e0].
  pose proof (newest_run evs w0 e0 N0) as N.
  destruct (run w0 evs) as [w1 e1]. injection H as <- <-.
  apply (sent_to_last _ _ N).
Qed.

Lemma requests_go_to_newest_process_witness :
  spawned [Spawn 0; Push request_A; Send 0 request_A;
           Reject 0 timed_out ByTimeout; Reject 0 crashed ByDeath; Spawn 1;
           Push request_B] = [0; 1]%nat
  /\ forall k, In k (kills [Spawn 0; Push request_A; Send 0 request_A;
                            Reject 0 timed_out ByTimeout;
                            Reject 0 crashed ByDeath; Spawn 1; Push request_B])
               -> (k < 1)%nat.
Proof.
  apply (requests_go_to_newest_process None None late_answer
           (fst (history None None late_answer))
           (snd (history None None late_answer))
           (surjective_pairing _) _ 1%nat request_B
           [Resolve 1 answer_A (ByLine 0)]).
  vm_compute. reflexivity.
Defined.

End BridgeMoreProps.

(* ===================================================================== *)
(** ** The order in which the queue is served                             *)
(* ===================================================================== *)

Module OrderProps.
Import Eff PythonBridge Trace Spec Scenario.
Local Open Scope list_scope.

(** A step that takes nothing off the queue but what it says. *)
Lemma in_order_after b tr b' effs :
  in_order b tr ->
  taken effs ++ map rid (requestQueue b')
    = map rid (requestQueue b) ++ arrived effs ->
  in_order b' (tr ++ effs).
Proof.
  unfold in_order. intros I Hq.
  rewrite BridgeProps.arrived_app, BridgeProps.taken_app, I, <- !app_assoc.
  f_equal. now rewrite Hq.
Qed.

Lemma in_order_processed w w' tr effs :
  in_order (bridge w) tr ->
  processed (requestQueue (bridge w)) w w' effs ->
  in_order (bridge w') (tr ++ effs).
Proof.
  intros I H. destruct H as [->|p r rest Hidle Hq Hb|Hidle Hb].
  - now rewrite app_nil_r.
  - apply (in_order_after (bridge w)); [exact I|].
    rewrite Hb, Hq. simpl. now rewrite app_nil_r.
  - apply (in_order_after (bridge w)); [exact I|].
    rewrite Hb, BridgeProps.taken_rejects, BridgeProps.arrived_rejects.
    simpl. now rewrite !app_nil_r.
Qed.

Lemma in_order_processQueue w tr :
  in_order (bridge w) tr ->
  in_order (bridge (fst (_processQueue w))) (tr ++ snd (_processQueue w)).
Proof.
  intros I. apply (in_order_processed w); [exact I|].
  apply BridgeProps.processQueue_on_processed.
Qed.

Ltac still b :=
  apply (in_order_after b); [assumption|];
  simpl; rewrite ?app_nil_r; reflexivity.

Lemma in_order_initShell w tr :
  in_order (bridge w) tr ->
  in_order (bridge (fst (_initShell w))) (tr ++ snd (_initShell w)).
Proof.
  intros I. unfold _initShell.
  destruct (shell (bridge w)) as [old|]; simpl;
    rewrite ?BridgeProps.bridge_mark_killed; still (bridge w).
Qed.

Lemma in_order_handleProcessDeath w tr :
  in_order (bridge w) tr ->
  in_order (bridge (fst (_handleProcessDeath w)))
           (tr ++ snd (_handleProcessDeath w)).
Proof.
  intros I. unfold _handleProcessDeath. simpl.
  destruct (currentRequest (bridge w)) as [c|]; simpl; still (bridge w).
Qed.

Lemma in_order_on_message p line w tr :
  in_order (bridge w) tr ->
  in_order (bridge (fst (on_message p line w)))
           (tr ++ snd (on_message p line w)).
Proof.
  intros I. destruct line as [| |data]; simpl.
  - now rewrite app_nil_r.
  - destruct (negb (isReady (bridge w))); [now rewrite app_nil_r|].
    destruct (currentRequest (bridge w)) as [c|]; simpl;
      [|now rewrite app_nil_r].
    still (bridge w).
  - destruct (negb (isReady (bridge w)) && is_ready_message data).
    + apply in_order_processQueue. simpl.
      rewrite <- (app_nil_r tr). still (bridge w).
    + destruct (currentRequest (bridge w)) as [c|]; simpl;
        [|now rewrite app_nil_r].
      destruct (success data); still (bridge w).
Qed.

Lemma in_order_on_timeout r w tr :
  in_order (bridge w) tr ->
  in_order (bridge (fst (on_timeout r w))) (tr ++ snd (on_timeout r w)).
Proof.
  intros I. unfold on_timeout.
  destruct (currentRequest (bridge w)) as [c|] eqn:Hc;
    [|now rewrite app_nil_r].
  destruct (Nat.eqb (rid c) r); [|now rewrite app_nil_r].
  pose proof (in_order_handleProcessDeath w
                (tr ++ [Reject r timed_out ByTimeout])) as H.
  destruct (_handleProcessDeath w) as [w1 effs]. simpl in *.
  rewrite <- app_assoc in H. apply H. still (bridge w).
Qed.

Lemma in_order_executePython q u h w tr :
  in_order (bridge w) tr ->
  in_order (bridge (fst (_executePython q u h w)))
           (tr ++ snd (_executePython q u h w)).
Proof.
  intros I. unfold _executePython.
  set (request := mkRequest (nextRid w) q u h).
  set (w1 := with_nextRid _ _).
  pose proof (in_order_processQueue w1 (tr ++ [Push request])) as H.
  destruct (_processQueue w1) as [w2 effs]. simpl in *.
  rewrite <- app_assoc in H. apply H.
  apply (in_order_after (bridge w)); [assumption|].
  simpl. now rewrite map_app.
Qed.

Lemma in_order_step w ev tr :
  in_order (bridge w) tr ->
  in_order (bridge (fst (step w ev))) (tr ++ snd (step w ev)).
Proof.
  intros I. unfold step.
  destruct (enabled w ev); [|now rewrite app_nil_r].
  destruct ev; simpl.
  - now apply in_order_executePython.
  - now apply in_order_on_message.
  - now rewrite app_nil_r.
  - now apply in_order_handleProcessDeath.
  - now apply in_order_handleProcessDeath.
  - now apply in_order_on_timeout.
  - now apply in_order_initShell.
  - now apply in_order_processQueue.
Qed.

Lemma in_order_run evs : forall w tr,
  in_order (bridge w) tr ->
  in_order (bridge (fst (run w evs))) (tr ++ snd (run w evs)).
Proof.
  induction evs as [|ev rest IH]; intros w tr I; simpl.
  - now rewrite app_nil_r.
  - pose proof (in_order_step w ev tr I) as H1.
    destruct (step w ev) as [w1 e1]. simpl in H1.
    pose proof (IH w1 (tr ++ e1) H1) as H2.
    destruct (run w1 rest) as [w2 e2]. simpl in *.
    now rewrite app_assoc.
Qed.

Lemma in_order_new timeout0 maxRetries0 :
  in_order (bridge (fst (new timeout0 maxRetries0)))
           (snd (new timeout0 maxRetries0)).
Proof. reflexivity. Qed.

(** X31.  The queue is served first come, first served, whatever
    happens.  At any point of any history of the bridge (calls of
    [_executePython], lines of any kind, the line [null] included, errors
    and exits of any process, timers, in any order) the requests taken off
    the queue, in the order in which [_processQueue] took them to hand
    them to [shell.send], followed by the requests still waiting, are the
    requests in the order in which they were pushed; so the k-th request
    taken is the k-th that arrived. *)
Theorem queue_served_in_arrival_order timeout0 maxRetries0 evs w tr :
  history timeout0 maxRetries0 evs = (w, tr) ->
  arrived tr = taken tr ++ map rid (requestQueue (bridge w))
  /\ forall k r, nth_error (taken tr) k = Some r ->
                 nth_error (arrived tr) k = Some r.
Proof.
  intros H. unfold history in H.
  pose proof (in_order_new timeout0 maxRetries0) as I0.
  destruct (new timeout0 maxRetries0) as [w0 e0].
  pose proof (in_order_run evs w0 e0 I0) as I.
  destruct (run w0 evs) as [w1 e1]. injection H as <- <-.
  unfold in_order in I. cbn [fst snd] in I. split; [exact I|].
  intros k r Hk. rewrite I. rewrite nth_error_app1; [exact Hk|].
  apply nth_error_Some. congruence.
Qed.

Lemma queue_served_in_arrival_order_witness :
  arrived (snd (history None None null_answer))
  = taken (snd (history None None null_answer)) ++ []
  /\ forall k r,
       nth_error (taken (snd (history None None null_answer))) k = Some r ->
       nth_error (arrived (snd (history None None null_answer))) k = Some r.
Proof.
  exact (queue_served_in_arrival_order None None null_answer
           (fst (history None None null_answer))
           (snd (history None None null_answer))
           (surjective_pairing _)).
Defined.

End OrderProps.

(** ** Jobs: progress, cache hits, failures *)

Module JobProps.
Import Eff QueueService QueueScenario JobSpec JobScenario.
Local Open Scope Z_scope.
Local Open Scope list_scope.

Ltac run_job :=
  unfold _processJob, processJob_body, generateKey, executeQuery, on_cache, tell;
  unfold try_catch, bind, modify, ret, throw.

Section WithJson.
Context {json : Json Cached}.

(** [cacheService.set] returns, whatever happens inside. *)
Lemma set_returns env key v customTtl (c : CacheService.t Cached) :
  exists c' ok, CacheService.set env key v customTtl c = (c', inr ok).
Proof.
  unfold CacheService.set, try_catch, bind, modify, ret.
  destruct (CacheService.enabled c); simpl; [|eauto].
  destruct (CacheService.set_body env key v _ c) as [c1 [e|r]]; simpl; eauto.
Qed.

Lemma get_returns env key (c : CacheService.t Cached) :
  exists c' r, CacheService.get env key c = (c', inr r).
Proof.
  unfold CacheService.get, try_catch, bind, modify, ret.
  destruct (CacheService.enabled c); simpl; [|eauto].
  destruct (CacheService.get_body env key c) as [c1 [e|r]]; simpl; eauto.
Qed.

(** X17. Progress: the reports of a job are 20, then 40, 80 and 100 in that
    order, or 20 then 100 on a cache hit: they only increase.  The job
    returns a result exactly when its last report is 100. *)
Theorem progress_increases env job s :
  exists added,
    log (fst (_processJob env job s)) = log s ++ added
    /\ (progress added = [20] \/ progress added = [20; 100]
        \/ progress added = [20; 40] \/ progress added = [20; 40; 80; 100])
    /\ ((exists r, snd (_processJob env job s) = inr r)
        <-> last (progress added) 0 = 100).
Proof.
  run_job. simpl.
  destruct (query (MockQueue.data job)) as [| | | | |q|]; simpl;
    try (exists [Progress 20]; repeat split; auto;
         [intros [r Hr]; discriminate|discriminate]).
  destruct (is_empty (conversationHistory (MockQueue.data job))); simpl.
  - destruct (get_returns (cache_env env) (CacheService.generateKey q)
                (cacheService s)) as (c1 & hit & Hget).
    rewrite Hget. simpl.
    destruct hit as [c|]; simpl.
    + exists [Progress 20; CacheGet (CacheService.generateKey q); Progress 100].
      rewrite <- !app_assoc. simpl. repeat split; eauto.
    + destruct (PythonBridge.executeQuery _ _ _ _ _ _) as [acts [b [e|a]]]; simpl.
      * exists ([Progress 20; CacheGet (CacheService.generateKey q); Progress 40]
                ++ map Bridge acts).
        rewrite <- !app_assoc. simpl.
        assert (progress (map Bridge acts) = []) as Hp
          by (clear; induction acts; auto).
        unfold progress in *. simpl. rewrite Hp.
        repeat split; auto; [intros [r Hr]; discriminate|discriminate].
      * match goal with |- context [CacheService.set ?e ?k ?v ?t ?c] =>
          destruct (set_returns e k v t c) as (c2 & ok & Hset); rewrite Hset end.
        simpl.
        exists ([Progress 20; CacheGet (CacheService.generateKey q); Progress 40]
                ++ map Bridge acts
                ++ [Progress 80;
                    CacheSet (CacheService.generateKey q)
                             (mkCached (PythonBridge.answer (PythonBridge.result a))
                                       (PythonBridge.contexts (PythonBridge.result a)));
                    Progress 100]).
        rewrite <- !app_assoc. simpl.
        assert (forall rest, progress (map Bridge acts ++ rest) = progress rest) as Hp
          by (clear; intros rest; induction acts; auto).
        unfold progress in *. simpl. rewrite Hp. simpl.
        repeat split; eauto.
  - destruct (PythonBridge.executeQuery _ _ _ _ _ _) as [acts [b [e|a]]]; simpl.
    + exists ([Progress 20; Progress 40] ++ map Bridge acts).
      rewrite <- !app_assoc. simpl.
      assert (progress (map Bridge acts) = []) as Hp
        by (clear; induction acts; auto).
      unfold progress in *. simpl. rewrite Hp.
      repeat split; auto; [intros [r Hr]; discriminate|discriminate].
    + match goal with |- context [CacheService.set ?e ?k ?v ?t ?c] =>
        destruct (set_returns e k v t c) as (c2 & ok & Hset); rewrite Hset end.
      simpl.
      exists ([Progress 20; Progress 40] ++ map Bridge acts
              ++ [Progress 80;
                  CacheSet (CacheService.generateKey q)
                           (mkCached (PythonBridge.answer (PythonBridge.result a))
                                     (PythonBridge.contexts (PythonBridge.result a)));
                  Progress 100]).
      rewrite <- !app_assoc. simpl.
      assert (forall rest, progress (map Bridge acts ++ rest) = progress rest) as Hp
        by (clear; intros rest; induction acts; auto).
      unfold progress in *. simpl. rewrite Hp. simpl.
      repeat split; eauto.
Qed.

Lemma cache_hit_body env job s q c1 c :
  query (MockQueue.data job) = Js.Str q ->
  conversationHistory (MockQueue.data job) = [] ->
  CacheService.get (cache_env env) (CacheService.generateKey q) (cacheService s)
  = (c1, inr (Some c)) ->
  _processJob env job s
  = (mkServices c1 (pythonBridge s)
       (log s ++ [Progress 20; CacheGet (CacheService.generateKey q);
                  Progress 100]),
     inr (mkJobResult (cached_answer c) (cached_contexts c) true (duration env)
                      (userId (MockQueue.data job))
                      (sessionId (MockQueue.data job)))).
Proof.
  intros Hq Hh Hget. run_job. rewrite Hq, Hh. simpl. rewrite Hget. simpl.
  now rewrite <- !app_assoc.
Qed.

(** X18. Cache hit: for a job without earlier turns whose key is in the
    cache, [_processJob] returns the cached answer marked [cached: true];
    it reports 20 and 100, does not call the bridge (so the query is not
    even validated) and does not write the cache. *)
Theorem cache_hit_skips_worker env job s q c1 c :
  query (MockQueue.data job) = Js.Str q ->
  conversationHistory (MockQueue.data job) = [] ->
  CacheService.get (cache_env env) (CacheService.generateKey q) (cacheService s)
  = (c1, inr (Some c)) ->
  _processJob env job s
  = (mkServices c1 (pythonBridge s)
       (log s ++ [Progress 20; CacheGet (CacheService.generateKey q);
                  Progress 100]),
     inr (mkJobResult (cached_answer c) (cached_contexts c) true (duration env)
                      (userId (MockQueue.data job))
                      (sessionId (MockQueue.data job)))).
Proof. apply cache_hit_body. Qed.


(** A [get] that finds a live entry in the in-memory store. *)
Lemma get_live_entry env key (c : CacheService.t Cached) e :
  CacheService.enabled c = true ->
  CacheService.redisClient c = None ->
  JsMap.get key (CacheService.memoryCache c) = Some e ->
  CacheService.now env < CacheService.expiresAt e ->
  CacheService.get env key c
  = (CacheService.set_stats CacheService.hit c,
     inr (Some (CacheService.entry_value e))).
Proof.
  intros He Hr Hg Hlive.
  unfold CacheService.get, CacheService.get_body, try_catch, bind, gets,
    modify, ret.
  rewrite He. simpl. rewrite Hr. simpl. rewrite Hg.
  destruct (Z.gtb_spec (CacheService.expiresAt e) (CacheService.now env));
    [reflexivity|lia].
Qed.

Lemma get_absent_entry env key (c : CacheService.t Cached) :
  CacheService.enabled c = true ->
  CacheService.redisClient c = None ->
  JsMap.get key (CacheService.memoryCache c) = None ->
  CacheService.get env key c
  = (CacheService.set_stats CacheService.miss c, inr None).
Proof.
  intros He Hr Hg.
  unfold CacheService.get, CacheService.get_body, try_catch, bind, gets,
    modify, ret.
  rewrite He. simpl. rewrite Hr. simpl. now rewrite Hg.
Qed.

(** X20. Repeated query: on an enabled cache without Redis that does not
    hold the key, a job without earlier turns whose worker answers at the
    first attempt returns the answer with [cached: false]; a second job
    without earlier turns, from any caller, whose query has the same
    normalized text and which runs before the entry expires returns the
    same answer with [cached: true], and leaves the bridge untouched. *)
Theorem repeated_query_hits_cache env1 env2 job1 job2 s q1 q2 d serialized :
  query (MockQueue.data job1) = Js.Str q1 ->
  query (MockQueue.data job2) = Js.Str q2 ->
  CacheService.normalize q1 = CacheService.normalize q2 ->
  conversationHistory (MockQueue.data job1) = [] ->
  conversationHistory (MockQueue.data job2) = [] ->
  Spec.accepted q1 ->
  0 <= PythonBridge.maxRetries (pythonBridge s) ->
  worker env1 1 = inr d ->
  CacheService.enabled (cacheService s) = true ->
  CacheService.redisClient (cacheService s) = None ->
  JsMap.get (CacheService.generateKey q1)
            (CacheService.memoryCache (cacheService s)) = None ->
  stringify (mkCached (PythonBridge.answer d) (PythonBridge.contexts d))
  = Some serialized ->
  CacheService.now (cache_env env2)
  < CacheService.now (cache_env env1) + CacheService.ttl (cacheService s) * 1000 ->
  exists s1 s2 r1 r2,
    _processJob env1 job1 s = (s1, inr r1)
    /\ cached r1 = false
    /\ answer r1 = PythonBridge.answer d
    /\ _processJob env2 job2 s1 = (s2, inr r2)
    /\ cached r2 = true
    /\ answer r2 = PythonBridge.answer d
    /\ contexts r2 = PythonBridge.contexts d
    /\ pythonBridge s2 = pythonBridge s1.
Proof.
  intros Hq1 Hq2 Hnorm Hh1 Hh2 Hacc Hmr Hw He Hr Habsent Hs Hnow.
  assert (CacheService.generateKey q2 = CacheService.generateKey q1) as Hkey
    by (unfold CacheService.generateKey; cbv zeta; now rewrite Hnorm).
  destruct (RetryProps.accepted_passes q1 Hacc) as [Hv Hl].
  (* the first job *)
  assert (exists s1,
    _processJob env1 job1 s
    = (s1, inr (mkJobResult (PythonBridge.answer d) (PythonBridge.contexts d)
                            false (duration env1)
                            (userId (MockQueue.data job1))
                            (sessionId (MockQueue.data job1))))
    /\ cacheService s1
       = CacheService.set_stats CacheService.stored
           (CacheService.set_memoryCache
              (CacheService.fallback_after (cache_env env1)
                 (CacheService.generateKey q1)
                 (mkCached (PythonBridge.answer d) (PythonBridge.contexts d))
                 (CacheService.ttl (cacheService s))
                 (CacheService.set_stats CacheService.miss (cacheService s)))
              (CacheService.set_stats CacheService.miss (cacheService s))))
    as (s1 & Hjob1 & Hc1).
  { run_job. rewrite Hq1, Hh1. simpl.
    rewrite (get_absent_entry _ _ _ He Hr Habsent). simpl.
    unfold PythonBridge.executeQuery. rewrite Hv, Hl. simpl PythonBridge.text_of.
    assert (PythonBridge.retry_loop (worker env1)
              (PythonBridge.maxRetries (pythonBridge s)) q1
              (userId (MockQueue.data job1)) [] 0 None
            = ([PythonBridge.Invoke q1 (userId (MockQueue.data job1)) []],
               PythonBridge.Returned d)) as ->.
    { apply (RetryMoreProps.retry_loop_first_success (worker env1)
               (PythonBridge.maxRetries (pythonBridge s)) q1 _ _ 1 d 0 0 None);
        try lia; auto; intros j Hj; lia. }
    simpl.
    rewrite (CacheMoreProps.set_in_memory (cache_env env1)
               (CacheService.generateKey q1) _ None _ serialized); auto.
    simpl. eexists. split; reflexivity. }
  (* the second job *)
  exists s1. eexists. eexists. eexists.
  split; [exact Hjob1|]. split; [reflexivity|]. split; [reflexivity|].
  assert (CacheService.get (cache_env env2) (CacheService.generateKey q2)
            (cacheService s1)
          = (CacheService.set_stats CacheService.hit (cacheService s1),
             inr (Some (mkCached (PythonBridge.answer d) (PythonBridge.contexts d)))))
    as Hget.
  { rewrite Hkey, Hc1.
    apply (get_live_entry (cache_env env2) (CacheService.generateKey q1) _
             (CacheService.mkEntry
                (mkCached (PythonBridge.answer d) (PythonBridge.contexts d))
                (CacheService.now (cache_env env1)
                 + CacheService.ttl (cacheService s) * 1000))); auto.
    - simpl. unfold CacheService.fallback_after. apply MapFacts.get_set. }
  rewrite (cache_hit_body env2 job2 s1 q2 _ _ Hq2 Hh2 Hget).
  repeat split.
Qed.

End WithJson.

Lemma cache_hit_skips_worker_witness :
  PythonBridge.too_long (Js.Str padded_hi) = true
  /\ _processJob (answers "never asked") long_job warm
     = (mkServices (CacheService.set_stats CacheService.hit (cacheService warm))
          (pythonBridge warm)
          [Progress 20; CacheGet (CacheService.generateKey padded_hi);
           Progress 100],
        inr (mkJobResult "hello!" [] true 1200 "carol" "session-9")).
Proof.
  split; [vm_compute; reflexivity|].
  apply (cache_hit_skips_worker (answers "never asked") long_job warm padded_hi
           (CacheService.set_stats CacheService.hit (cacheService warm))
           (mkCached "hello!" [])); vm_compute; reflexivity.
Defined.


Lemma repeated_query_hits_cache_witness :
  exists s1 s2 r1 r2,
    _processJob (answers "on Friday") (job_of "job-2" first_turn) services
    = (s1, inr r1)
    /\ cached r1 = false
    /\ answer r1 = "on Friday"
    /\ _processJob (answers "next month") (job_of "job-3" respelled) s1
       = (s2, inr r2)
    /\ cached r2 = true
    /\ answer r2 = "on Friday"
    /\ contexts r2 = []
    /\ pythonBridge s2 = pythonBridge s1.
Proof.
  apply (repeated_query_hits_cache (answers "on Friday") (answers "next month")
           (job_of "job-2" first_turn) (job_of "job-3" respelled) services
           "And when is it due?" "  and WHEN is   it due? "
           (PythonBridge.mkData true None "on Friday" [] None) "on Friday");
    try (vm_compute; reflexivity);
    try (split; [vm_compute; discriminate|apply Nat.leb_le; reflexivity]);
    vm_compute; discriminate.
Defined.

End JobProps.

(* ===================================================================== *)
(** ** The in-memory queue: identifiers, entries, statistics              *)
(* ===================================================================== *)

Module QueueMoreProps.
Import Eff MockQueue QueueOps.
Local Open Scope Z_scope.
Local Open Scope list_scope.

(** Two numbers with the same decimal notation are the same. *)
Lemma decimal_inj a b :
  PythonBridge.decimal a = PythonBridge.decimal b -> a = b.
Proof.
  unfold PythonBridge.decimal. intros H.
  apply (f_equal DecimalString.NilZero.int_of_string) in H.
  assert (forall z, Z.to_int z <> Decimal.Pos Decimal.Nil
                    /\ Z.to_int z <> Decimal.Neg Decimal.Nil) as Hn.
  { intros [|p|p]; simpl; split; try discriminate;
      intros E; injection E; apply DecimalPos.Unsigned.to_uint_nonnil. }
  rewrite !DecimalString.NilZero.isi in H by apply Hn.
  injection H. apply DecimalZ.to_int_inj.
Qed.

Lemma generated_inj a b :
  ("job-" ++ PythonBridge.decimal a)%string
  = ("job-" ++ PythonBridge.decimal b)%string -> a = b.
Proof. simpl. intros H. apply decimal_inj. congruence. Qed.

Section Add.
Context {D R S : Type}.

Lemma length_set_absent {V} k (v : V) m :
  JsMap.get k m = None ->
  List.length (JsMap.set k v m) = Datatypes.S (List.length m).
Proof.
  induction m as [|[k' v'] r IH]; simpl; [reflexivity|].
  destruct (String.eqb k k'); [discriminate|]. simpl. auto.
Qed.

Lemma length_set_present {V} k (v : V) m :
  JsMap.get k m <> None ->
  List.length (JsMap.set k v m) = List.length m.
Proof.
  induction m as [|[k' v'] r IH]; simpl; [congruence|].
  destruct (String.eqb k k'); simpl; auto.
Qed.

(** What [add] does with no listener registered, with the identifier and
    the counter written out. *)
Lemma add_result now (d : D) options (q : MockQueue.t D R S) (s : S) :
  eventHandlers q = [] ->
  let job0 := mkJob (id_given options q) d options now 0 waiting None None in
  let counter := match jobId options with
                 | Some (String _ _) => jobCounter q
                 | _ => jobCounter q + 1
                 end in
  add now d options (q, s)
  = ((mk (JsMap.set (id_given options q)
            (snd (outcome (processor q) job0 s)) (jobs q))
         counter (processor q) [],
      fst (outcome (processor q) job0 s)),
     inr (snd (outcome (processor q) job0 s))).
Proof.
  intros Hh. destruct q as [js n proc hs]. simpl in Hh. subst hs.
  unfold add, fresh_id, outcome, id_given, bind, update_job, modify, gets,
    ret, try_catch, lift, emit, put_job.
  destruct (jobId options) as [[|c rest]|]; simpl;
    (destruct proc as [f|]; simpl; [|reflexivity]);
    rewrite ?QueueProps.set_set_same;
    (destruct (f _ s) as [s' [e|r]]; simpl);
    rewrite ?QueueProps.get_set_same; simpl;
    rewrite ?QueueProps.set_set_same; reflexivity.
Qed.

Lemma outcome_id (f : option (Job D R -> M S R)) job s :
  id (snd (outcome f job s)) = id job.
Proof.
  unfold outcome. destruct f as [f|]; [|reflexivity].
  destruct (f _ s) as [s' [e|r]]; reflexivity.
Qed.

Lemma automatic_id options (q : MockQueue.t D R S) :
  automatic options ->
  id_given options q
  = ("job-" ++ PythonBridge.decimal (jobCounter q + 1))%string
  /\ match jobId options with
     | Some (String _ _) => jobCounter q
     | _ => jobCounter q + 1
     end = jobCounter q + 1.
Proof. unfold id_given. intros [E|E]; rewrite E; split; reflexivity. Qed.

Lemma generated_absent (q : MockQueue.t D R S) :
  generated_ids q ->
  JsMap.get ("job-" ++ PythonBridge.decimal (jobCounter q + 1))%string
            (jobs q) = None.
Proof.
  intros [_ Hg]. apply MapFacts.get_none_not_in. intros Hin.
  destruct (Hg _ Hin) as (n & Hn & E).
  apply generated_inj in E. lia.
Qed.

(** One automatic [add]: the facts the theorems below share. *)
Lemma add_automatic now (d : D) options (q : MockQueue.t D R S) (s : S) :
  eventHandlers q = [] -> automatic options -> generated_ids q ->
  exists job q' s',
    add now d options (q, s) = ((q', s'), inr job)
    /\ id job = ("job-" ++ PythonBridge.decimal (jobCounter q + 1))%string
    /\ getJob (id job) q = None
    /\ getJob (id job) q' = Some job
    /\ (forall k, k <> id job -> getJob k q' = getJob k q)
    /\ JsMap.size (jobs q') = JsMap.size (jobs q) + 1
    /\ eventHandlers q' = []
    /\ generated_ids q'.
Proof.
  intros Hh Ha Hg.
  pose proof (add_result now d options q s Hh) as E. cbv zeta in E.
  destruct (automatic_id options q Ha) as [Ei Ec]. rewrite Ec in E.
  pose proof (generated_absent q Hg) as Habs.
  set (job := snd (outcome _ _ _)) in E.
  assert (id job = id_given options q) as Hid by apply outcome_id.
  eexists job, _, _. split; [exact E|].
  rewrite Hid, Ei. unfold getJob. cbn [jobs eventHandlers jobCounter].
  split; [reflexivity|]. split; [assumption|].
  split; [apply MapFacts.get_set|].
  split; [intros k Hk; now apply MapFacts.get_set_other|].
  split.
  { unfold JsMap.size. rewrite length_set_absent by assumption. lia. }
  split; [reflexivity|].
  destruct Hg as [H0 Hg]. split; cbn [jobs eventHandlers jobCounter]; [lia|].
  intros k Hin. apply MapFacts.keys_set in Hin as [->|Hin].
  - exists (jobCounter q + 1). split; [lia|reflexivity].
  - destruct (Hg _ Hin) as (n & Hn & En). exists n. split; [lia|assumption].
Qed.

(** X21.  The identifiers the in-memory queue generates are fresh.  On a
    queue all of whose jobs carry generated identifiers, with no listener
    registered, [add] without a [jobId] does not throw; the job it returns
    is named after the next value of the counter, no job of the queue had
    that name, the job is stored under it, every job stored before is
    still found, unchanged, under its own name, the queue holds one job
    more, and its jobs still all carry generated identifiers. *)
Theorem generated_id_is_fresh now (d : D) options (q : MockQueue.t D R S)
    (s : S) :
  eventHandlers q = [] -> automatic options -> generated_ids q ->
  exists job q' s',
    add now d options (q, s) = ((q', s'), inr job)
    /\ id job = ("job-" ++ PythonBridge.decimal (jobCounter q + 1))%string
    /\ getJob (id job) q = None
    /\ getJob (id job) q' = Some job
    /\ (forall k j, getJob k q = Some j -> getJob k q' = Some j)
    /\ JsMap.size (jobs q') = JsMap.size (jobs q) + 1
    /\ generated_ids q'.
Proof.
  intros Hh Ha Hg.
  destruct (add_automatic now d options q s Hh Ha Hg)
    as (job & q' & s' & E & Hid & Hnew & Hin & Hframe & Hsize & _ & Hg').
  exists job, q', s'. repeat (split; [assumption|]).
  split; [|split; assumption].
  intros k j Hk. rewrite Hframe; [assumption|]. congruence.
Qed.

(** X22.  [add] touches one entry of the queue.  With no listener
    registered, whatever the options, [add] does not throw; the job it
    returns is stored under its identifier, which is the [jobId] asked
    for when there is one and it is not empty; the jobs under every other
    identifier are as they were; and when the identifier was already in
    use the earlier job is replaced, the queue holding as many jobs as
    before. *)
Theorem add_changes_one_entry now (d : D) options (q : MockQueue.t D R S)
    (s : S) :
  eventHandlers q = [] ->
  exists job q' s',
    add now d options (q, s) = ((q', s'), inr job)
    /\ id job = id_given options q
    /\ getJob (id job) q' = Some job
    /\ (forall k, k <> id job -> getJob k q' = getJob k q)
    /\ (getJob (id job) q <> None ->
        JsMap.size (jobs q') = JsMap.size (jobs q))
    /\ (getJob (id job) q = None ->
        JsMap.size (jobs q') = JsMap.size (jobs q) + 1).
Proof.
  intros Hh.
  pose proof (add_result now d options q s Hh) as E. cbv zeta in E.
  set (job := snd (outcome _ _ _)) in E.
  assert (id job = id_given options q) as Hid by apply outcome_id.
  eexists job, _, _. split; [exact E|].
  rewrite Hid. unfold getJob, JsMap.size. cbn [jobs].
  split; [reflexivity|].
  split; [apply MapFacts.get_set|].
  split; [intros k Hk; now apply MapFacts.get_set_other|].
  split; intros H.
  - now rewrite length_set_present.
  - rewrite length_set_absent by assumption. lia.
Qed.

(** X23.  A batch of jobs added one after the other, each without a
    [jobId], to a queue whose jobs carry generated identifiers: no [add]
    throws, there is one job per element, no two of them share an
    identifier, the queue has grown by the size of the batch, and each
    job of the batch is the one found under its identifier at the end. *)
Theorem batch_ids_are_distinct now options (ds : list D)
    (q : MockQueue.t D R S) (s : S) :
  eventHandlers q = [] -> automatic options -> generated_ids q ->
  exists added q' s',
    add_each now options ds (q, s) = ((q', s'), inr added)
    /\ List.length added = List.length ds
    /\ NoDup (map id added)
    /\ JsMap.size (jobs q') = JsMap.size (jobs q) + Z.of_nat (List.length ds)
    /\ forall job, In job added -> getJob (id job) q' = Some job.
Proof.
  intros Hh Ha Hg.
  enough (exists added q' s',
    add_each now options ds (q, s) = ((q', s'), inr added)
    /\ List.length added = List.length ds
    /\ NoDup (map id added)
    /\ JsMap.size (jobs q') = JsMap.size (jobs q) + Z.of_nat (List.length ds)
    /\ (forall job, In job added -> getJob (id job) q' = Some job)
    /\ (forall job, In job added -> getJob (id job) q = None)
    /\ (forall k j, getJob k q = Some j -> getJob k q' = Some j)) as H.
  { destruct H as (a & q' & s' & H1 & H2 & H3 & H4 & H5 & _).
    exists a, q', s'. auto. }
  revert q s Hh Hg. induction ds as [|d rest IH]; intros q s Hh Hg.
  - exists [], q, s. simpl. repeat split; try tauto; try constructor; lia.
  - destruct (add_automatic now d options q s Hh Ha Hg)
      as (job & q1 & s1 & E & Hid & Hnew & Hin & Hframe & Hsize & Hh1 & Hg1).
    destruct (IH q1 s1 Hh1 Hg1)
      as (others & q2 & s2 & E2 & Hlen & Hnd & Hsize2 & Hfound & Hold & Hkeep).
    exists (job :: others), q2, s2.
    split.
    { cbn [add_each]. unfold bind at 1. rewrite E.
      unfold bind at 1. rewrite E2. reflexivity. }
    split; [simpl; congruence|].
    split.
    { simpl. constructor; [|assumption].
      intros Hi. apply in_map_iff in Hi as (j & Ej & Hj).
      apply Hold in Hj. rewrite Ej in Hj. congruence. }
    split.
    { rewrite Hsize2, Hsize. cbn [List.length]. lia. }
    split.
    { intros j [<-|Hj]; [now apply Hkeep|now apply Hfound]. }
    split.
    { intros j [<-|Hj]; [assumption|].
      destruct (string_dec (id j) (id job)) as [Ej|Ej].
      - rewrite Ej. assumption.
      - rewrite <- Hframe by assumption. now apply Hold. }
    intros k j Hk. apply Hkeep. rewrite Hframe; [assumption|congruence].
Qed.

End Add.

Lemma generated_id_is_fresh_witness :
  exists job q' s',
    add 7 "hello"%string no_options
        (process 1 failing_processor MockQueue.new, tt)
    = ((q', s'), inr job)
    /\ id job = "job-1"%string.
Proof.
  destruct (generated_id_is_fresh 7 "hello"%string no_options
              (process 1 failing_processor MockQueue.new) tt)
    as (job & q' & s' & E & Hid & _).
  - reflexivity.
  - left. reflexivity.
  - split; simpl; [lia|tauto].
  - exists job, q', s'. split; assumption.
Defined.

Lemma add_changes_one_entry_witness :
  exists job q' s',
    add 7 "hello"%string (mkOptions (Some "mine"%string) 0 0)
        (process 1 failing_processor MockQueue.new, tt)
    = ((q', s'), inr job)
    /\ id job = "mine"%string.
Proof.
  destruct (add_changes_one_entry 7 "hello"%string
              (mkOptions (Some "mine"%string) 0 0)
              (process 1 failing_processor MockQueue.new) tt)
    as (job & q' & s' & E & Hid & _).
  - reflexivity.
  - exists job, q', s'. split; assumption.
Defined.

Lemma batch_ids_are_distinct_witness :
  exists added q' s',
    add_each 7 no_options ["a"; "b"; "c"]%string
        (process 1 failing_processor MockQueue.new, tt)
    = ((q', s'), inr added)
    /\ List.length added = 3%nat.
Proof.
  destruct (batch_ids_are_distinct 7 no_options ["a"; "b"; "c"]%string
              (process 1 failing_processor MockQueue.new) tt)
    as (added & q' & s' & E & Hlen & _).
  - reflexivity.
  - left. reflexivity.
  - split; simpl; [lia|tauto].
  - exists added, q', s'. split; assumption.
Defined.

(** X24.  The health of the queue only gets worse as the counts grow:
    with no fewer jobs waiting, active and failed, the state reported is
    no better. *)
Theorem health_is_monotone w a f w' a' f' :
  w <= w' -> a <= a' -> f <= f' ->
  severity (_calculateQueueHealth w a f)
  <= severity (_calculateQueueHealth w' a' f').
Proof.
  intros Hw Ha Hf. unfold _calculateQueueHealth.
  destruct (Z.gtb_spec f 10), (Z.gtb_spec f' 10),
           (Z.gtb_spec w 50), (Z.gtb_spec w' 50),
           (Z.gtb_spec a 10), (Z.gtb_spec a' 10); simpl; lia.
Qed.

Lemma health_is_monotone_witness :
  severity (_calculateQueueHealth 3 2 0)
  <= severity (_calculateQueueHealth 60 2 0).
Proof. apply health_is_monotone; lia. Defined.

Section Stats.
Context {D R S : Type}.

(** X25.  On the in-memory queue a failed job is counted as completed.
    With no listener registered and a processor that throws on the job,
    [add] returns the job failed, holding the reason; yet the statistics
    of the queue afterwards report no failed job, count the job among the
    completed ones, whose number is the total, and call the queue
    healthy. *)
Theorem failed_job_counts_as_completed now (d : D) options processing
    (f : Job D R -> M S R) (q : MockQueue.t D R S) (s : S) :
  eventHandlers q = [] ->
  processor q = Some f ->
  (forall job, throws (f job) s) ->
  exists job q' s',
    add now d options (q, s) = ((q', s'), inr job)
    /\ state job = failed
    /\ failedReason job <> None
    /\ getJob (id job) q' = Some job
    /\ failed_count (getQueueStats processing q') = 0
    /\ 1 <= completed_count (getQueueStats processing q')
    /\ total (getQueueStats processing q')
       = completed_count (getQueueStats processing q')
    /\ health (getQueueStats processing q') = healthy.
Proof.
  intros Hh Hp Hf.
  pose proof (add_result now d options q s Hh) as E. cbv zeta in E.
  rewrite Hp in E. unfold outcome in E.
  destruct (Hf (with_state active
                  (mkJob (id_given options q) d options now 0 waiting
                         None None))) as (s1 & e & Ef).
  rewrite Ef in E. cbn [fst snd] in E.
  eexists _, _, _. split; [exact E|].
  split; [reflexivity|]. split; [discriminate|].
  split; [apply MapFacts.get_set|].
  unfold getQueueStats, getFailedCount, getWaitingCount, getActiveCount,
    getDelayedCount, getCompletedCount, JsMap.size.
  cbn [failed_count completed_count total health jobs].
  split; [reflexivity|].
  split.
  { destruct (JsMap.get (id_given options q) (jobs q)) eqn:G.
    - rewrite length_set_present by congruence.
      destruct (jobs q); [discriminate|]. simpl. lia.
    - rewrite length_set_absent by assumption. lia. }
  split; [lia|reflexivity].
Qed.

End Stats.

Lemma failed_job_counts_as_completed_witness :
  exists job q' s',
    add 7 "hello"%string no_options
        (process 1 failing_processor MockQueue.new, tt)
    = ((q', s'), inr job)
    /\ state job = failed.
Proof.
  destruct (failed_job_counts_as_completed 7 "hello"%string no_options true
              failing_processor
              (process 1 failing_processor MockQueue.new) tt)
    as (job & q' & s' & E & Hs & _).
  - reflexivity.
  - reflexivity.
  - intros job. exists tt, (Error "worker down"). reflexivity.
  - exists job, q', s'. split; assumption.
Defined.

End QueueMoreProps.

(* ===================================================================== *)
(** ** Submitting a job                                                   *)
(* ===================================================================== *)

Module SubmitProps.
Import Eff QueueService QueueScenario.
Local Open Scope Z_scope.
Local Open Scope list_scope.






End SubmitProps.

(* ===================================================================== *)
(** ** The daily limit of a user                                          *)
(* ===================================================================== *)

Module RateLimiterProps.
Import Eff RateLimiter.
Local Open Scope Z_scope.
Local Open Scope list_scope.

Ltac limiter :=
  unfold userRateLimiter, getRateLimitStatus, try_catch, bind, findById,
    save, ret.

Lemma day_length : TWENTY_FOUR_HOURS = 86400000.
Proof. reflexivity. Qed.

(** The defaults of the schema are the fall-backs of the middleware: on
    the document as loaded it reads the numbers it would read on the
    stored one. *)
Lemma hydrate_reads now user :
  limit_of (hydrate now user) = limit_of user
  /\ used_of (hydrate now user) = used_of user
  /\ total_of (hydrate now user) = total_of user
  /\ reset_of now (hydrate now user) = reset_of now user.
Proof.
  unfold limit_of, used_of, total_of, reset_of, number_or, date_or, hydrate.
  cbn [usage dailyLimit dailyQueries totalQueries dailyResetAt].
  destruct (usage user) as [[tq lq sc dq dl dr dt]|];
    cbn [dailyLimit dailyQueries totalQueries dailyResetAt];
    [|repeat split].
  destruct tq, dq, dl, dr; repeat split.
Qed.

(** The date a loaded document carries. *)
Lemma hydrate_day now user :
  day_of (hydrate now user) = Some (reset_of now user).
Proof.
  unfold day_of, reset_of, date_or, hydrate. cbn [usage dailyResetAt].
  destruct (usage user) as [u|]; [|reflexivity].
  now destruct (dailyResetAt u).
Qed.

Ltac loaded now user :=
  destruct (hydrate_reads now user) as (Hhl & Hhu & Hht & Hhr);
  fold (reset_of now (hydrate now user)) (limit_of (hydrate now user))
       (used_of (hydrate now user)) (total_of (hydrate now user));
  rewrite ?Hhl, ?Hhu, ?Hht, ?Hhr.

(** One request of a stored user, branch by branch. *)
Lemma request_reset now userId user db :
  stored userId user db -> userId <> ""%string ->
  TWENTY_FOUR_HOURS <= now - reset_of now user ->
  exists user',
    userRateLimiter now (Some userId) db
    = (mkDb (JsMap.set userId user' (users db)) None None,
       inr (Next (Some (mkHeaders (limit_of user) (limit_of user - 1)
                                  (now + TWENTY_FOUR_HOURS))) None))
    /\ limit_of user' = limit_of user
    /\ used_of user' = 1
    /\ total_of user' = total_of user + 1
    /\ (forall t, reset_of t user' = now)
    /\ day_of user' = Some now.
Proof.
  intros (Hf & Hs & Hg) Hid Hday.
  destruct userId as [|c rest]; [congruence|].
  limiter. rewrite Hf, Hg. cbn [option_map]. loaded now user.
  destruct (Z.geb_spec (now - reset_of now user) TWENTY_FOUR_HOURS); [|lia].
  rewrite Hs, ?Hf. eexists. split; [reflexivity|].
  revert Hhl. clear.
  unfold limit_of, used_of, total_of, reset_of, day_of, number_or, date_or,
    spread, hydrate.
  cbn [usage dailyLimit dailyQueries totalQueries dailyResetAt].
  destruct (usage user) as [u|]; cbn [dailyLimit]; intros Hhl;
    repeat split; try assumption;
    match goal with
    | |- context [?x + 1 =? 0] => destruct (Z.eqb_spec (x + 1) 0); lia
    | _ => idtac
    end.
Qed.

Lemma request_refused now userId user db :
  find_error db = None -> JsMap.get userId (users db) = Some user ->
  userId <> ""%string ->
  now - reset_of now user < TWENTY_FOUR_HOURS ->
  limit_of user <= used_of user ->
  exists h e,
    userRateLimiter now (Some userId) db = (db, inr (TooMany h e))
    /\ retryAfter e
       = ceil_div (reset_of now user + TWENTY_FOUR_HOURS - now) 60000 * 60
    /\ resetAt e = reset_of now user + TWENTY_FOUR_HOURS
    /\ h_remaining h = 0 /\ statusCode e = 429 /\ remaining e = 0.
Proof.
  intros Hf Hg Hid Hday Hfull.
  destruct userId as [|c rest]; [congruence|].
  limiter. rewrite Hf, Hg. cbn [option_map]. loaded now user.
  destruct (Z.geb_spec (now - reset_of now user) TWENTY_FOUR_HOURS); [lia|].
  destruct (Z.geb_spec (used_of user) (limit_of user)); [|lia].
  eexists _, _. split; [reflexivity|]. cbn. auto 6.
Qed.

Lemma request_counted now userId user db :
  stored userId user db -> userId <> ""%string ->
  now - reset_of now user < TWENTY_FOUR_HOURS ->
  used_of user < limit_of user ->
  exists user',
    userRateLimiter now (Some userId) db
    = (mkDb (JsMap.set userId user' (users db)) None None,
       inr (Next (Some (mkHeaders (limit_of user)
                                  (limit_of user - used_of user - 1)
                                  (reset_of now user + TWENTY_FOUR_HOURS)))
                 (Some (mkInfo (limit_of user)
                               (limit_of user - used_of user - 1)
                               (used_of user + 1)))))
    /\ limit_of user' = limit_of user
    /\ used_of user' = used_of user + 1
    /\ total_of user' = total_of user + 1
    /\ (forall t, reset_of t user' = reset_of now user)
    /\ day_of user' = Some (reset_of now user).
Proof.
  intros (Hf & Hs & Hg) Hid Hday Hroom.
  destruct userId as [|c rest]; [congruence|].
  limiter. rewrite Hf, Hg. cbn [option_map]. loaded now user.
  destruct (Z.geb_spec (now - reset_of now user) TWENTY_FOUR_HOURS); [lia|].
  destruct (Z.geb_spec (used_of user) (limit_of user)); [lia|].
  rewrite Hs, ?Hf. eexists. split; [reflexivity|].
  revert Hhl. clear.
  unfold limit_of, used_of, total_of, reset_of, day_of, number_or, date_or,
    spread, hydrate, or_schema_default.
  cbn [usage dailyLimit dailyQueries totalQueries dailyResetAt].
  destruct (usage user) as [[tq lq sc dq dl dr dt]|];
    cbn [dailyLimit dailyQueries totalQueries dailyResetAt];
    [destruct dr|]; intros Hhl;
    repeat split; try assumption;
    repeat match goal with
    | |- context [?x + 1 =? 0] => destruct (Z.eqb_spec (x + 1) 0)
    end; lia.
Qed.

Lemma stored_set userId user user' db :
  stored userId user db ->
  stored userId user' (mkDb (JsMap.set userId user' (users db)) None None).
Proof.
  intros _. repeat split. cbn. apply MapFacts.get_set.
Qed.

(** X26.  The middleware never throws and never refuses on an error.
    Whatever the database and the request, it returns; it answers 429
    only when the database answered, the user exists, the day of the
    user has not ended and the user has used up the limit, and then the
    database is left as it was; and when the database rejects the look-up
    or the saving, the request is not refused on that account: if it goes
    on, it goes on with no header set and the users are as they were. *)
Theorem limiter_fails_open now userId db :
  exists db' o,
    userRateLimiter now userId db = (db', inr o)
    /\ (passed o = false ->
        db' = db
        /\ exists id user,
             userId = Some id
             /\ find_error db = None
             /\ JsMap.get id (users db) = Some user
             /\ now - reset_of now user < TWENTY_FOUR_HOURS
             /\ limit_of user <= used_of user)
    /\ (find_error db <> None \/ save_error db <> None ->
        db' = db /\ (passed o = true -> o = Next None None)).
Proof.
  limiter.
  destruct userId as [[|c rest]|];
    try (eexists _, _; split; [reflexivity|]; split;
         [discriminate|auto]).
  destruct (find_error db) as [e|] eqn:Hf.
  { eexists _, _; split; [reflexivity|]; split; [discriminate|auto]. }
  destruct (JsMap.get _ (users db)) as [user|] eqn:Hg; cbn [option_map].
  2:{ eexists _, _; split; [reflexivity|]; split; [discriminate|auto]. }
  loaded now user.
  destruct (Z.geb_spec (now - reset_of now user) TWENTY_FOUR_HOURS).
  { destruct (save_error db) as [e|] eqn:Hs;
      eexists _, _; (split; [reflexivity|]); (split; [discriminate|]).
    - auto.
    - intros [Hx|Hx]; congruence. }
  destruct (Z.geb_spec (used_of user) (limit_of user)).
  { eexists _, _; split; [reflexivity|]. split.
    - intros _. split; [reflexivity|].
      eexists _, user. repeat split; try assumption; lia.
    - intros _. split; [reflexivity|discriminate]. }
  destruct (save_error db) as [e|] eqn:Hs;
    eexists _, _; (split; [reflexivity|]); (split; [discriminate|]).
  - auto.
  - intros [Hx|Hx]; congruence.
Qed.

(** X28.  What one request writes.  For a user of a database that
    answers, the middleware does not throw and the user is still stored
    afterwards, every other user being as before.  A request that is
    refused changes nothing.  A request that goes on is counted once in
    the total of queries, keeps the limit, and leaves a stored reset date:
    when 24 hours have passed since the reset date the day starts again
    at this request, which is the first of it; otherwise the count of the
    day goes up by one and the day is the one that was running. *)
Theorem request_counted_once now userId user db :
  stored userId user db -> userId <> ""%string ->
  exists o db' user',
    userRateLimiter now (Some userId) db = (db', inr o)
    /\ stored userId user' db'
    /\ (forall k, k <> userId ->
                  JsMap.get k (users db') = JsMap.get k (users db))
    /\ if passed o
       then total_of user' = total_of user + 1
            /\ limit_of user' = limit_of user
            /\ if now - reset_of now user >=? TWENTY_FOUR_HOURS
               then used_of user' = 1 /\ day_of user' = Some now
               else used_of user' = used_of user + 1
                    /\ day_of user' = Some (reset_of now user)
       else db' = db /\ user' = user.
Proof.
  intros Hst Hid.
  destruct (Z.geb_spec (now - reset_of now user) TWENTY_FOUR_HOURS)
    as [Hday|Hday].
  - destruct (request_reset now userId user db Hst Hid Hday) as
      (user' & E & Hl & Hu & Ht & _ & Hd).
    eexists _, _, user'. split; [exact E|].
    split; [eapply stored_set; eassumption|].
    split; [intros k Hk; cbn; now apply MapFacts.get_set_other|].
    cbn [passed]. auto.
  - destruct (Z_lt_ge_dec (used_of user) (limit_of user)) as [Hroom|Hfull].
    + destruct (request_counted now userId user db Hst Hid Hday Hroom)
        as (user' & E & Hl & Hu & Ht & _ & Hd).
      eexists _, _, user'. split; [exact E|].
      split; [eapply stored_set; eassumption|].
      split; [intros k Hk; cbn; now apply MapFacts.get_set_other|].
      cbn [passed]. auto.
    + pose proof Hst as (Hf & Hs & Hg).
      destruct (request_refused now userId user db Hf Hg Hid Hday)
        as (h & e & E & _); [lia|].
      eexists _, db, user. split; [exact E|].
      split; [assumption|]. split; [reflexivity|].
      cbn [passed]. auto.
Qed.

Lemma request_counted_once_witness :
  exists o db' user',
    userRateLimiter 2000 (Some "u1"%string) db_alice = (db', inr o)
    /\ stored "u1" user' db'.
Proof.
  destruct (request_counted_once 2000 "u1"%string alice db_alice)
    as (o & db' & user' & E & Hst & _).
  - repeat split.
  - discriminate.
  - exists o, db', user'. split; assumption.
Defined.

Lemma ceil_div_bounds a b :
  0 < b -> a <= ceil_div a b * b < a + b.
Proof.
  intros Hb. unfold ceil_div.
  pose proof (Z.div_mod (- a) b ltac:(lia)) as E.
  pose proof (Z.mod_pos_bound (- a) b Hb). nia.
Qed.

(** X29.  A refusal tells the truth about the wait.  When a user with a
    reset date, whose day has started and not ended, has used up the
    limit, the request is answered 429 and the database is left as it
    was; the wait announced is a whole number of minutes, from 1 to 1440,
    that reaches the end of the user's day and passes it by less than a
    minute; and a request of that user made once the announced wait is
    over goes on. *)
Theorem refusal_announces_the_wait now start userId user db :
  stored userId user db -> userId <> ""%string ->
  day_of user = Some start ->
  start <= now -> now - start < TWENTY_FOUR_HOURS ->
  limit_of user <= used_of user ->
  exists h e,
    userRateLimiter now (Some userId) db = (db, inr (TooMany h e))
    /\ statusCode e = 429
    /\ 60 <= retryAfter e <= 86400
    /\ (60 | retryAfter e)
    /\ resetAt e - now <= retryAfter e * 1000 < resetAt e - now + 60000
    /\ forall later, now + retryAfter e * 1000 <= later ->
         exists db' headers,
           userRateLimiter later (Some userId) db
           = (db', inr (Next headers None)).
Proof.
  intros Hst Hid Hdate Hstart Hday Hfull.
  assert (forall t, reset_of t user = start) as Hsame.
  { intros t. unfold reset_of, date_or, day_of in *.
    destruct (usage user) as [u|]; [|discriminate].
    now rewrite Hdate. }
  rewrite <- (Hsame now) in Hstart, Hday.
  pose proof Hst as (Hf & Hs & Hg).
  destruct (request_refused now userId user db Hf Hg Hid Hday Hfull)
    as (h & e & E & Hwait & Hreset & _ & Hcode & _).
  exists h, e. split; [assumption|]. split; [assumption|].
  pose proof (ceil_div_bounds (reset_of now user + TWENTY_FOUR_HOURS - now)
                60000 ltac:(lia)) as Hb.
  rewrite day_length in *.
  set (w := ceil_div _ _) in *.
  assert (1 <= w <= 1440) by lia.
  rewrite Hwait, Hreset.
  split; [lia|]. split; [exists w; lia|]. split; [lia|].
  intros later Hlater.
  destruct (request_reset later userId user db Hst Hid) as (user' & E' & _).
  { rewrite Hsame, <- (Hsame now), day_length. lia. }
  eexists _, _. exact E'.
Qed.

Lemma refusal_announces_the_wait_witness :
  exists h e,
    userRateLimiter 5000 (Some "u1"%string)
      (mkDb [("u1"%string,
              mkUser "bob@example.org"
                (Some (mkUsage (Some 7) None None (Some 50) None
                               (Some 1000) None)))] None None)
    = (mkDb [("u1"%string,
              mkUser "bob@example.org"
                (Some (mkUsage (Some 7) None None (Some 50) None
                               (Some 1000) None)))] None None,
       inr (TooMany h e))
    /\ statusCode e = 429.
Proof.
  destruct (refusal_announces_the_wait 5000 1000 "u1"%string
              (mkUser "bob@example.org"
                (Some (mkUsage (Some 7) None None (Some 50) None
                               (Some 1000) None)))
              (mkDb [("u1"%string,
              mkUser "bob@example.org"
                (Some (mkUsage (Some 7) None None (Some 50) None
                               (Some 1000) None)))] None None))
    as (h & e & E & Hc & _).
  - repeat split.
  - discriminate.
  - reflexivity.
  - lia.
  - vm_compute. reflexivity.
  - vm_compute. discriminate.
  - exists h, e. split; [exact E|exact Hc].
Defined.

(** X30.  The status agrees with the middleware.  For a user of a
    database that answers, with a limit of at least 1 and a count that is
    not negative: [getRateLimitStatus] reports the limit the middleware
    applies and a remaining count that is positive exactly when a request
    made at that moment would go on; and after a request that went on,
    the status asked at that same moment reports the remaining count and
    the reset date the middleware wrote in the headers. *)
Theorem status_agrees_with_limiter now userId user db :
  stored userId user db -> userId <> ""%string ->
  1 <= limit_of user -> 0 <= used_of user ->
  exists st o db',
    getRateLimitStatus now userId db = (db, inr (Some st))
    /\ userRateLimiter now (Some userId) db = (db', inr o)
    /\ s_limit st = limit_of user
    /\ (0 < s_remaining st <-> passed o = true)
    /\ match o with
       | Next (Some h) _ =>
           exists st',
             getRateLimitStatus now userId db' = (db', inr (Some st'))
             /\ s_limit st' = h_limit h
             /\ s_remaining st' = h_remaining h
             /\ s_resetAt st' = h_reset h
             /\ s_used st' = s_used st + 1
       | Next None _ => False
       | TooMany h e => s_remaining st = 0 /\ s_remaining st = remaining e
       end.
Proof.
  intros Hst Hid Hlim Hpos.
  pose proof Hst as (Hf & Hs & Hg).
  assert (forall u d, stored userId u d ->
            getRateLimitStatus now userId d
            = (d, inr (Some
                 (if now - reset_of now u >=? TWENTY_FOUR_HOURS
                  then mkStatus (limit_of u) 0 (limit_of u)
                                (now + TWENTY_FOUR_HOURS)
                  else mkStatus (limit_of u) (used_of u)
                                (Z.max 0 (limit_of u - used_of u))
                                (reset_of now u + TWENTY_FOUR_HOURS)))))
    as Hstatus.
  { intros u d (Hf' & _ & Hg'). limiter. rewrite Hf', Hg'.
    cbn [option_map]. loaded now u.
    destruct (now - reset_of now u >=? TWENTY_FOUR_HOURS); reflexivity. }
  rewrite (Hstatus user db Hst).
  destruct (Z.geb_spec (now - reset_of now user) TWENTY_FOUR_HOURS)
    as [Hday|Hday].
  - destruct (request_reset now userId user db Hst Hid Hday)
      as (user' & E & Hl & Hu & _ & Hr & _).
    eexists _, _, _. split; [reflexivity|]. split; [exact E|].
    cbn [s_limit s_remaining s_used passed].
    split; [reflexivity|]. split; [intuition lia|].
    rewrite (Hstatus user' _ (stored_set userId user user' db Hst)).
    rewrite Hr, Hl, Hu.
    destruct (Z.geb_spec (now - now) TWENTY_FOUR_HOURS);
      [rewrite day_length in *; lia|].
    eexists. split; [reflexivity|]. cbn. repeat split; lia.
  - destruct (Z_lt_ge_dec (used_of user) (limit_of user)) as [Hroom|Hfull].
    + destruct (request_counted now userId user db Hst Hid Hday Hroom)
        as (user' & E & Hl & Hu & _ & Hr & _).
      eexists _, _, _. split; [reflexivity|]. split; [exact E|].
      cbn [s_limit s_remaining s_used passed].
      split; [reflexivity|]. split; [intuition lia|].
      rewrite (Hstatus user' _ (stored_set userId user user' db Hst)).
      rewrite Hr, Hl, Hu.
      destruct (Z.geb_spec (now - reset_of now user) TWENTY_FOUR_HOURS);
        [lia|].
      eexists. split; [reflexivity|]. cbn. repeat split; lia.
    + destruct (request_refused now userId user db Hf Hg Hid Hday)
        as (h & e & E & _ & _ & _ & _ & Hrem); [lia|].
      eexists _, _, _. split; [reflexivity|]. split; [exact E|].
      cbn [s_limit s_remaining s_used passed].
      split; [reflexivity|]. split; [split; [lia|discriminate]|].
      rewrite Hrem. split; lia.
Qed.

Lemma status_agrees_with_limiter_witness :
  exists st o db',
    getRateLimitStatus 2000 "u1" db_alice = (db_alice, inr (Some st))
    /\ userRateLimiter 2000 (Some "u1"%string) db_alice = (db', inr o)
    /\ s_limit st = 50.
Proof.
  destruct (status_agrees_with_limiter 2000 "u1"%string alice db_alice)
    as (st & o & db' & E1 & E2 & Hl & _).
  - repeat split.
  - discriminate.
  - vm_compute. discriminate.
  - vm_compute. discriminate.
  - exists st, o, db'. repeat split; assumption.
Defined.

End RateLimiterProps.
